(** * The file-transfer server of assignment4.cpp: framing, filename guard
      and the per-connection protocol engine

    A shallow embedding of the server side of [src/assignment4.cpp]
    ([sendAll], [recvExact], [readLine], [sendLine], [isSafeFilename] and
    [handle_client]) together with the properties of the wire protocol that
    follow from that code, followed by the client side
    ([recvResponseOKAndSize] and the loop of [run_client]) and the commands
    of the local mode ([do_list], [do_get], [do_put]).

    Modelling conventions.
    - A [std::string] and a byte buffer are both a [list ascii].
    - The socket is modelled from the server's side: what [recv] will deliver
      is a finite list of events (one per byte, plus interrupted calls and
      hard errors; the end of the list is the orderly shutdown, [recv]
      returning 0), and what [send] accepted so far is a byte list, with an
      optional bound on how many more bytes the peer takes before [send]
      starts failing.
    - The served directory is a finite map from entry names to entries. It is
      assumed to exist and to be enumerable (the best-effort creation at the
      top of [handle_client] is outside the model), regular files can always
      be opened for reading, and a write fails only when the volume has no
      room left; truncating a file gives no room back. A symbolic link that
      leads to a file or a directory stands as what it leads to, and a link
      that leads nowhere is an entry of its own. Entries that the system
      cannot examine (a loop of links) and special files that a stream can
      open (a device, a FIFO) are not modelled, and no two entries share
      their content.
    - A path reaches the operating system as a C string: it ends at its
      first NUL byte. A path with a component longer than [NAME_MAX], or of
      [PATH_MAX] bytes or more, is refused by the system; the throwing
      overloads of [fs::exists] and [fs::is_regular_file] then raise
      [fs::filesystem_error], which nothing in [handle_client], [run_client],
      [do_get] or [do_put] catches: the function is left at once, and what
      follows the loop (the [close]) does not run.
    - Memory is assumed to suffice for every buffer within
      [std::vector<char>::max_size()]. *)

From Stdlib Require Import ZArith NArith Ascii String List DecimalString Lia.
From Stdlib Require DecimalPos DecimalN.
From stdpp Require Import gmap strings list fin_maps.

Local Open Scope char_scope.
Local Open Scope list_scope.

(** ** Byte strings *)

Abbreviation bytes := (list ascii).

Definition NL : ascii := "010".
Definition CR : ascii := "013".
Definition TAB : ascii := "009".
Definition BACKSLASH : ascii := "092".
Definition NUL : ascii := "000".

(** A string literal of the source, as bytes. *)
Definition str (s : string) : bytes := list_ascii_of_string s.

Definition BUFFER_SIZE : N := 8192.
Definition ULLONG_MAX : N := 18446744073709551615.

(** Limits of the platform: the longest path component and the longest path
    of Linux, [std::vector<char>::max_size()] (that is [PTRDIFF_MAX]), and
    the size from which [std::basic_filebuf::xsputn] of libstdc++ hands a
    write to the file at once instead of copying it into its buffer. *)
Definition NAME_MAX : nat := 255.
Definition PATH_MAX : nat := 4096.
Definition VECTOR_MAX : N := 9223372036854775807.
Definition FILEBUF_DIRECT : N := 1024.

(** [s.starts_with(pat)], the test behind [s.rfind(pat, 0) == 0]. *)
Fixpoint starts_with (pat s : bytes) : bool :=
  match pat, s with
  | [], _ => true
  | _ :: _, [] => false
  | p :: pat', c :: s' => if decide (p = c) then starts_with pat' s' else false
  end.

(** [s.rfind(pat, pos)]: the largest index [i <= pos] at which [pat] occurs
    in [s]; [None] is [npos]. *)
Fixpoint rfind (s pat : bytes) (pos : nat) : option nat :=
  if starts_with pat (drop pos s) && (pos + length pat <=? length s)%nat
  then Some pos
  else match pos with
       | O => None
       | S p => rfind s pat p
       end.

(** [s.find(c)]: index of the first occurrence of the character. *)
Fixpoint find_char (s : bytes) (c : ascii) : option nat :=
  match s with
  | [] => None
  | x :: s' => if decide (x = c) then Some O else S <$> find_char s' c
  end.

(** [s.find(pat)]: index of the first occurrence of the substring. *)
Fixpoint find_str (s pat : bytes) : option nat :=
  if starts_with pat s then Some O
  else match s with
       | [] => None
       | _ :: s' => S <$> find_str s' pat
       end.

(** [s.substr(pos)] for [pos <= s.size()]. *)
Definition substr (s : bytes) (pos : nat) : bytes := drop pos s.

(** [std::to_string] of an [unsigned long long]. *)
Definition to_string (n : N) : bytes :=
  str (NilZero.string_of_uint (N.to_uint n)).

(** *** [std::stoull] in base 10

    [strtoull] skips leading white space, takes an optional sign, then the
    longest run of decimal digits; what follows the digits is ignored. No
    digit at all is [std::invalid_argument], a magnitude above [ULLONG_MAX]
    is [std::out_of_range]; both are [None] here. A leading minus sign
    negates the value modulo 2^64. *)

Definition isspace (c : ascii) : bool :=
  match c with
  | " " | "009" | "010" | "011" | "012" | "013" => true
  | _ => false
  end.

Definition digit_val (c : ascii) : option N :=
  let n := N_of_ascii c in
  if ((48 <=? n) && (n <=? 57))%N then Some (n - 48)%N else None.

Fixpoint skip_spaces (s : bytes) : bytes :=
  match s with
  | c :: s' => if isspace c then skip_spaces s' else s
  | [] => []
  end.

Fixpoint parse_digits (s : bytes) (acc : N) : N :=
  match s with
  | c :: s' =>
      match digit_val c with
      | Some d => parse_digits s' (10 * acc + d)%N
      | None => acc
      end
  | [] => acc
  end.

Definition split_sign (s : bytes) : bool * bytes :=
  match s with
  | "-" :: s' => (true, s')
  | "+" :: s' => (false, s')
  | _ => (false, s)
  end.

Definition stoull (s : bytes) : option N :=
  let '(neg, ds) := split_sign (skip_spaces s) in
  match ds with
  | c :: _ =>
      match digit_val c with
      | Some _ =>
          let v := parse_digits ds 0 in
          if (ULLONG_MAX <? v)%N then None
          else Some (if neg then ((2 ^ 64 - v) mod 2 ^ 64)%N else v)
      | None => None
      end
  | [] => None
  end.

(** ** Filename Guard *)

Definition isSafeFilename (fn : bytes) : bool :=
  if decide (fn = []) then false
  else if bool_decide (find_char fn "/" ≠ None) then false
  else if bool_decide (find_char fn BACKSLASH ≠ None) then false
  else if bool_decide (find_str fn (str "..") ≠ None) then false
  else true.

(** ** The connection and the served directory *)

(** One outcome of a [recv] call, seen byte by byte. *)
Inductive recv_event : Type :=
  | RByte (c : ascii)   (* one byte delivered *)
  | REintr              (* the call fails with [errno == EINTR] *)
  | RError.             (* the call fails with another error *)

Inductive entry : Type :=
  | File (content : bytes)   (* a regular file *)
  | Dir                      (* a directory *)
  | Link                     (* a symbolic link that leads nowhere *)
  | Other.                   (* any other entry; it cannot be opened for writing *)

Record World : Type := mkWorld {
  inp : list recv_event;        (* what [recv] will deliver; [[]] is EOF *)
  out : bytes;                  (* what [send] has accepted so far *)
  send_room : option nat;       (* bytes the peer still takes; [None]: no bound *)
  fs : gmap bytes entry;        (* the entries of the served directory *)
  disk_free : N;                (* bytes that can still be written *)
  closed : bool                 (* [close(client_sock)] was called *)
}.

Definition set_inp (i : list recv_event) (w : World) : World :=
  mkWorld i (out w) (send_room w) (fs w) (disk_free w) (closed w).
Definition set_fs (m : gmap bytes entry) (w : World) : World :=
  mkWorld (inp w) (out w) (send_room w) m (disk_free w) (closed w).
Definition close (w : World) : World :=
  mkWorld (inp w) (out w) (send_room w) (fs w) (disk_free w) true.

(** ** Framing Layer *)

(** [sendAll]: every byte is accepted, or [send] fails for good after the
    bytes the peer still took; the result is [len] or [-1]. (An interrupted
    [send] is retried by the source and leaves no trace here.) *)
Definition sendAll (buf : bytes) (w : World) : Z * World :=
  match send_room w with
  | None =>
      (Z.of_nat (length buf),
       mkWorld (inp w) (out w ++ buf) None (fs w) (disk_free w) (closed w))
  | Some room =>
      if (length buf <=? room)%nat
      then (Z.of_nat (length buf),
            mkWorld (inp w) (out w ++ buf) (Some (room - length buf))
                    (fs w) (disk_free w) (closed w))
      else ((-1)%Z,
            mkWorld (inp w) (out w ++ take room buf) (Some O)
                    (fs w) (disk_free w) (closed w))
  end.

(** [recvExact] on the event list: [len] is the number of bytes still
    wanted, [buf] what was stored so far. Result: the byte count or [-1],
    the buffer, and the events left. *)
Fixpoint recvExact (evs : list recv_event) (len : nat) (buf : bytes)
  : Z * bytes * list recv_event :=
  match len with
  | O => (Z.of_nat (length buf), buf, evs)
  | S len' =>
      match evs with
      | [] => ((-1)%Z, buf, [])
      | RByte c :: rest => recvExact rest len' (buf ++ [c])
      | REintr :: rest => recvExact rest len buf
      | RError :: rest => ((-1)%Z, buf, rest)
      end
  end.

(** [readLine]: [outLine] is the accumulator (cleared by the caller below).
    Result: the returned flag, [outLine], and the events left. *)
Fixpoint readLine_from (evs : list recv_event) (outLine : bytes)
  : bool * bytes * list recv_event :=
  match evs with
  | [] => (false, outLine, [])
  | RByte ch :: rest =>
      if decide (ch = NL) then (true, outLine, rest)
      else if decide (ch ≠ CR) then readLine_from rest (outLine ++ [ch])
      else readLine_from rest outLine
  | REintr :: rest => readLine_from rest outLine
  | RError :: rest => (false, outLine, rest)
  end.

Definition readLine (evs : list recv_event) : bool * bytes * list recv_event :=
  readLine_from evs [].

Definition sendLine (line : bytes) (w : World) : bool * World :=
  let withnl := line ++ [NL] in
  let '(n, w') := sendAll withnl w in
  (bool_decide (n = Z.of_nat (length withnl)), w').

(** *** [sendAll] call by call

    The loop of [sendAll] over the outcomes of its [send] calls. The
    definition [sendAll] above is what this loop amounts to once the calls
    are summed up (X2 below). *)

(** One outcome of a [send] call. *)
Inductive send_event : Type :=
  | SAccept (n : nat)   (* the call returns [n]: that many bytes were taken *)
  | SEintr              (* the call fails with [errno == EINTR] *)
  | SError.             (* the call fails with another error *)

(** [pending] is what is left to send ([buf + total], [len - total]),
    [gone] the bytes the calls took so far. A call takes no more than it is
    given; when no outcome is left the connection is gone and [send] fails.
    Result: the value returned, the bytes taken, and the outcomes left. *)
Fixpoint sendAll_calls (calls : list send_event) (pending gone : bytes)
  : Z * bytes * list send_event :=
  match pending with
  | [] => (Z.of_nat (length gone), gone, calls)
  | _ :: _ =>
      match calls with
      | [] => ((-1)%Z, gone, [])
      | SAccept n :: rest =>
          if (n =? 0)%nat then ((-1)%Z, gone, rest)
          else sendAll_calls rest (drop n pending) (gone ++ take n pending)
      | SEintr :: rest => sendAll_calls rest pending gone
      | SError :: rest => ((-1)%Z, gone, rest)
      end
  end.

Definition sendLine_calls (calls : list send_event) (line : bytes)
  : bool * bytes * list send_event :=
  let withnl := line ++ [NL] in
  let '(n, gone, rest) := sendAll_calls calls withnl [] in
  (bool_decide (n = Z.of_nat (length withnl)), gone, rest).

(** ** The served directory as [std::filesystem] sees it *)

(** The path as the system calls see it: the bytes before the first NUL. *)
Fixpoint c_str (s : bytes) : bytes :=
  match s with
  | [] => []
  | c :: s' => if decide (c = NUL) then [] else c :: c_str s'
  end.

(** The length of the longest component of a path; [cur] is the length of
    the component being read. *)
Fixpoint longest_component (s : bytes) (cur : nat) : nat :=
  match s with
  | [] => cur
  | c :: s' =>
      if decide (c = "/") then Nat.max cur (longest_component s' O)
      else longest_component s' (S cur)
  end.

(** The system refuses the path with [ENAMETOOLONG]. (The path of the
    served directory is taken to be short enough for every name within
    [NAME_MAX] to give a path within [PATH_MAX].) *)
Definition os_rejects (name : bytes) : bool :=
  (NAME_MAX <? longest_component (c_str name) O)%nat
  || (PATH_MAX <=? length (c_str name))%nat.

(** What [serve_dir / name] leads to, links followed: nothing when the
    system refuses the path; the directory itself for the names [""] and
    ["."] (an empty path not joined to a directory names nothing, which the
    code cannot tell from a directory: neither is a regular file and
    neither can be opened); otherwise the entry of that name, a link that
    leads nowhere being nothing. *)
Definition resolve (m : gmap bytes entry) (name : bytes) : option entry :=
  if os_rejects name then None
  else if decide (c_str name = [] ∨ c_str name = str ".") then Some Dir
  else match m !! c_str name with
       | Some Link => None
       | e => e
       end.

(** [fs::exists(p)] and [fs::is_regular_file(p)], the overloads that throw:
    [None] is the exception raised when the system refuses the path. *)
Definition fs_exists (m : gmap bytes entry) (name : bytes) : option bool :=
  if os_rejects name then None
  else Some (match resolve m name with Some _ => true | None => false end).

Definition is_regular_file (m : gmap bytes entry) (name : bytes)
  : option bool :=
  if os_rejects name then None
  else Some (match resolve m name with Some (File _) => true | _ => false end).

Definition file_size (m : gmap bytes entry) (name : bytes) : N :=
  match resolve m name with
  | Some (File content) => N.of_nat (length content)
  | _ => 0
  end.

(** [std::ifstream ifs(filep, std::ios::binary)]: the content to be read, or
    [None] when the stream is not good. *)
Definition ifstream_open (m : gmap bytes entry) (name : bytes) : option bytes :=
  match resolve m name with
  | Some (File content) => Some content
  | _ => None
  end.

(** [std::ofstream ofs(filep, std::ios::binary)]: creates the file or
    truncates it, through a link if the name is one (the file the link
    leads to then exists, and the name stands as that file); fails on a path
    the system refuses, on a directory and on an entry that cannot be opened
    for writing. The result is the directory after the open. *)
Definition ofstream_open (m : gmap bytes entry) (name : bytes)
  : option (gmap bytes entry) :=
  if os_rejects name then None
  else if decide (c_str name = [] ∨ c_str name = str ".") then None
  else match m !! c_str name with
       | None | Some (File _) | Some Link =>
           Some (<[c_str name := File []]> m)
       | Some Dir | Some Other => None
       end.

Definition append_to (data : bytes) (e : entry) : entry :=
  match e with
  | File content => File (content ++ data)
  | _ => e
  end.

(** [ofs.write(buf, got)] followed by the test of the stream. The bytes
    are appended when they fit on the volume. When they do not fit, a write
    of [FILEBUF_DIRECT] bytes or more goes to the file at once, fails, and
    the stream goes bad; a shorter one only fills the buffer of the stream,
    which stays good: those bytes are lost when the stream is closed, and
    the source does not test the stream after [close]. The file keeps what
    it had in both cases. (The loops below write chunks of [BUFFER_SIZE]
    bytes and then at most one shorter chunk, so a write always finds the
    buffer empty.) *)
Definition ofs_write (name data : bytes) (w : World) : bool * World :=
  if (N.of_nat (length data) <=? disk_free w)%N
  then (true,
        mkWorld (inp w) (out w) (send_room w)
                (alter (append_to data) (c_str name) (fs w))
                (disk_free w - N.of_nat (length data)) (closed w))
  else if (N.of_nat (length data) <? FILEBUF_DIRECT)%N then (true, w)
  else (false, w).

(** ** Session Protocol Engine *)

Inductive exit_reason : Type :=
  | ExitRead    (* [readLine] failed: EOF or error *)
  | ExitSend    (* a send of the LIST response failed *)
  | ExitQuit    (* a QUIT line *)
  | ExitThrow.  (* an exception left [handle_client] *)

Inductive status : Type :=
  | Continue                  (* back to the top of the loop *)
  | Break (r : exit_reason)   (* out of the loop *)
  | Throw.                    (* an exception that nothing catches *)

(** The two lines of an error response; the results of both [sendLine]
    calls are ignored by the source. *)
Definition send_err (msg : string) (w : World) : World :=
  snd (sendLine (str msg) (snd (sendLine (str "ERR") w))).

Definition listing_line (ne : bytes * entry) : bytes :=
  match ne.2 with
  | File _ => ne.1 ++ TAB :: str "file" ++ [NL]
  | Dir => ne.1 ++ TAB :: str "dir" ++ [NL]
  | Link | Other => ne.1 ++ TAB :: str "other" ++ [NL]
  end.

(** The body of a LIST response: one line for each entry. The order in
    which [fs::directory_iterator] yields the entries is unspecified; the
    order of the map stands for it. *)
Definition listing_of (m : gmap bytes entry) : bytes :=
  concat (listing_line <$> map_to_list m).

Definition do_LIST (w : World) : World * status :=
  let listing := listing_of (fs w) in
  let '(ok1, w1) := sendLine (str "OK") w in
  if negb ok1 then (w1, Break ExitSend)
  else
    let '(ok2, w2) := sendLine (to_string (N.of_nat (length listing))) w1 in
    if negb ok2 then (w2, Break ExitSend)
    else
      if negb (bool_decide (listing = []))
      then
        let '(n, w3) := sendAll listing w2 in
        if (n <? 0)%Z then (w3, Break ExitSend) else (w3, Continue)
      else (w2, Continue).

(** The chunked send of a GET: [content] is what the stream still holds.
    A read shorter than the buffer ends the loop, and so does a failed
    send. *)
Fixpoint send_chunks (fuel : nat) (content : bytes) (w : World) : World :=
  match fuel with
  | O => w
  | S fuel' =>
      let buf := take (N.to_nat BUFFER_SIZE) content in
      let r := length buf in
      let ifs_good := (r =? N.to_nat BUFFER_SIZE)%nat in
      let '(failed, w') :=
        if (0 <? r)%nat
        then let '(n, w') := sendAll buf w in ((n <? 0)%Z, w')
        else (false, w) in
      if failed then w'
      else if ifs_good
           then send_chunks fuel' (drop (N.to_nat BUFFER_SIZE) content) w'
           else w'
  end.

Definition do_GET (filename : bytes) (w : World) : World * status :=
  if negb (isSafeFilename filename)
  then (send_err "Invalid filename" w, Continue)
  else
    match fs_exists (fs w) filename with
    | None => (w, Throw)
    | Some false => (send_err "File not found" w, Continue)
    | Some true =>
        match is_regular_file (fs w) filename with
        | None => (w, Throw)
        | Some false => (send_err "File not found" w, Continue)
        | Some true =>
            let fsize := file_size (fs w) filename in
            match ifstream_open (fs w) filename with
            | None => (send_err "Failed to open file" w, Continue)
            | Some content =>
                let w1 := snd (sendLine (str "OK") w) in
                let w2 := snd (sendLine (to_string fsize) w1) in
                (send_chunks (S (length content)) content w2, Continue)
            end
        end
    end.

(** The drain after a failed create, 4096 bytes at a time. *)
Fixpoint drain (fuel : nat) (toDiscard : N) (w : World) : World :=
  match fuel with
  | O => w
  | S fuel' =>
      if (0 <? toDiscard)%N
      then
        let chunk := if (4096 <? toDiscard)%N then 4096%N else toDiscard in
        let '(got, _, rest) := recvExact (inp w) (N.to_nat chunk) [] in
        let w' := set_inp rest w in
        if (got <=? 0)%Z then w'
        else drain fuel' (toDiscard - Z.to_N got) w'
      else w
  end.

(** The copy loop of a PUT; the result is the [err] flag and the world. *)
Fixpoint recv_to_file (fuel : nat) (name : bytes) (remaining : N) (w : World)
  : bool * World :=
  match fuel with
  | O => (true, w)
  | S fuel' =>
      if (0 <? remaining)%N
      then
        let chunk :=
          if (BUFFER_SIZE <? remaining)%N then BUFFER_SIZE else remaining in
        let '(got, buf, rest) := recvExact (inp w) (N.to_nat chunk) [] in
        let w1 := set_inp rest w in
        if (got <=? 0)%Z then (true, w1)
        else
          let '(good, w2) := ofs_write name buf w1 in
          if negb good then (true, w2)
          else recv_to_file fuel' name (remaining - Z.to_N got) w2
      else (false, w)
  end.

Definition do_PUT (filename : bytes) (w : World) : World * status :=
  if negb (isSafeFilename filename)
  then (send_err "Invalid filename" w, Continue)
  else
    let '(ok, sizeLine, rest) := readLine (inp w) in
    let w0 := set_inp rest w in
    if negb ok then (w0, Break ExitRead)
    else
      match stoull sizeLine with
      | None => (send_err "Invalid size header" w0, Continue)
      | Some size =>
          match ofstream_open (fs w0) filename with
          | None =>
              let w1 := send_err "Failed to create file" w0 in
              (drain (S (length (inp w1))) size w1, Continue)
          | Some m =>
              let w1 := set_fs m w0 in
              let '(err, w2) :=
                recv_to_file (S (length (inp w1))) filename size w1 in
              if err then (send_err "Transfer error" w2, Continue)
              else (snd (sendLine (str "OK") w2), Continue)
          end
      end.

(** The dispatch on one received line. *)
Definition serve_line (line : bytes) (w : World) : World * status :=
  if bool_decide (rfind line (str "LIST") 0 = Some O) then do_LIST w
  else if bool_decide (rfind line (str "GET ") 0 = Some O)
  then do_GET (substr line 4) w
  else if bool_decide (rfind line (str "PUT ") 0 = Some O)
  then do_PUT (substr line 4) w
  else if bool_decide (rfind line (str "QUIT") 0 = Some O)
  then (w, Break ExitQuit)
  else (send_err "Unknown command" w, Continue).

(** One turn of the [while (true)] loop. *)
Definition step (w : World) : World * status :=
  let '(ok, line, rest) := readLine (inp w) in
  let w0 := set_inp rest w in
  if negb ok then (w0, Break ExitRead) else serve_line line w0.

(** The loop; [None] only when the fuel runs out. *)
Fixpoint session (fuel : nat) (w : World) : option (World * exit_reason) :=
  match fuel with
  | O => None
  | S fuel' =>
      match step w with
      | (w', Continue) => session fuel' w'
      | (w', Break r) => Some (w', r)
      | (w', Throw) => Some (w', ExitThrow)
      end
  end.

(** [handle_client]: the loop, then [close(client_sock)], which an
    exception skips. Every turn of the loop consumes at least one event,
    which bounds the number of turns. *)
Definition handle_client (w : World) : option (World * exit_reason) :=
  match session (S (length (inp w))) w with
  | Some (w', ExitThrow) => Some (w', ExitThrow)
  | Some (w', r) => Some (close w', r)
  | None => None
  end.

(** The world right after [accept]: a stream to come, nothing sent, a peer
    that takes every byte, and a directory. *)
Definition accepted (evs : list recv_event) (m : gmap bytes entry) : World :=
  mkWorld evs [] None m 1000000 false.

(** The events of a byte string that arrives without incident. *)
Definition wire (s : bytes) : list recv_event := RByte <$> s.

(** The bytes a run of events delivers. *)
Fixpoint delivered (evs : list recv_event) : bytes :=
  match evs with
  | RByte c :: rest => c :: delivered rest
  | _ :: rest => delivered rest
  | [] => []
  end.

(** The line as the specification describes it: the bytes before the
    terminator, less one carriage return when it is the last of them. *)
Definition spec_strip_trailing_cr (line : bytes) : bytes :=
  match reverse line with
  | c :: before => if decide (c = CR) then reverse before else line
  | [] => line
  end.

(** The world after the peer took the bytes [b]. *)
Definition emit (b : bytes) (w : World) : World :=
  mkWorld (inp w) (out w ++ b) (send_room w) (fs w) (disk_free w) (closed w).

(** The two lines of an error response on the wire. *)
Definition err_response (msg : string) : bytes :=
  str "ERR" ++ [NL] ++ str msg ++ [NL].

(** An event that neither ends a line nor fails the read. *)
Definition quiet (e : recv_event) : Prop := e ≠ RByte NL ∧ e ≠ RError.

(** A name holds the substring [pat]. *)
Definition contains (pat s : bytes) : Prop :=
  ∃ pre post, s = pre ++ pat ++ post.

(** ** Vocabulary for a peer that may stop taking bytes *)

(** The part of [b] that a peer with the given room takes. *)
Definition accepted_prefix (room : option nat) (b : bytes) : bytes :=
  match room with
  | None => b
  | Some r => take r b
  end.

(** The room left after an attempt to send [n] bytes. *)
Definition room_after (room : option nat) (n : nat) : option nat :=
  match room with
  | None => None
  | Some r => Some (r - n)
  end.

(** The peer takes all [n] bytes. *)
Definition has_room (room : option nat) (n : nat) : bool :=
  match room with
  | None => true
  | Some r => (n <=? r)%nat
  end.

(** The world after an attempt to send [b], whatever its outcome. *)
Definition push (b : bytes) (w : World) : World :=
  mkWorld (inp w) (out w ++ accepted_prefix (send_room w) b)
          (room_after (send_room w) (length b))
          (fs w) (disk_free w) (closed w).

(** The complete responses to LIST and to a GET that finds its file. *)
Definition list_response (m : gmap bytes entry) : bytes :=
  str "OK" ++ [NL] ++ to_string (N.of_nat (length (listing_of m))) ++ [NL]
  ++ listing_of m.

Definition get_response (content : bytes) : bytes :=
  str "OK" ++ [NL] ++ to_string (N.of_nat (length content)) ++ [NL]
  ++ content.

(** A byte that is neither a line feed nor a carriage return. *)
Definition plain (c : ascii) : Prop := c ≠ NL ∧ c ≠ CR.

(** ** Client helper *)

(** [recvResponseOKAndSize]: [sizeOut] and [errMsg] are the values the
    reference parameters hold at the call. Result: the returned flag, the
    two parameters after the call, and the events left. *)
Definition recvResponseOKAndSize (evs : list recv_event) (sizeOut : N)
    (errMsg : bytes) : bool * N * bytes * list recv_event :=
  let '(ok, status, rest) := readLine evs in
  if negb ok then (false, sizeOut, errMsg, rest)
  else if decide (status = str "OK")
  then
    let '(ok2, sizeLine, rest2) := readLine rest in
    if negb ok2 then (false, sizeOut, errMsg, rest2)
    else
      match stoull sizeLine with
      | Some n => (true, n, errMsg, rest2)
      | None => (false, sizeOut, errMsg, rest2)
      end
  else if decide (status = str "ERR")
  then
    let '(ok3, msg, rest3) := readLine rest in
    if negb ok3 then (false, sizeOut, errMsg, rest3)
    else (false, sizeOut, msg, rest3)
  else (false, sizeOut, str "Unexpected response", rest).

(** ** Client Driver

    The client after [connect] succeeded. Its socket is a [World] seen from
    the client: [inp] is what the server sends, [out] what the client sent,
    and [fs] is the client's working directory, a path being looked up as
    it is typed. *)

Record Client : Type := mkClient {
  sock : World;           (* the connection and the working directory *)
  stdin : list bytes;     (* the lines [std::getline] will return *)
  cout : bytes;           (* written to [std::cout] *)
  cerr : bytes            (* written to [std::cerr] *)
}.

Definition with_sock (w : World) (c : Client) : Client :=
  mkClient w (stdin c) (cout c) (cerr c).
Definition say (b : bytes) (c : Client) : Client :=
  mkClient (sock c) (stdin c) (cout c ++ b) (cerr c).
Definition complain (b : bytes) (c : Client) : Client :=
  mkClient (sock c) (stdin c) (cout c) (cerr c ++ b).

Inductive client_exit : Type :=
  | CEndOfInput    (* [std::getline] failed *)
  | CSendFailed    (* a request line could not be sent *)
  | CNoResponse    (* no status line after a PUT *)
  | CQuit          (* the QUIT command *)
  | CThrown.       (* an exception left [run_client] *)

Inductive client_status : Type :=
  | CContinue
  | CBreak (r : client_exit)
  | CThrow.                   (* an exception that nothing catches *)

Definition client_LIST (c : Client) : Client * client_status :=
  let '(ok, w1) := sendLine (str "LIST") (sock c) in
  if negb ok then (with_sock w1 c, CBreak CSendFailed)
  else
    let '(ok2, size, err, rest) := recvResponseOKAndSize (inp w1) 0 [] in
    let w2 := set_inp rest w1 in
    if negb ok2
    then (complain (str "Server error: " ++ err ++ [NL]) (with_sock w2 c),
          CContinue)
    else if (VECTOR_MAX <? size)%N
    then (with_sock w2 c, CThrow)   (* [std::length_error] of the vector *)
    else
      let '(failed, buf, w3) :=
        if (0 <? size)%N
        then
          let '(got, data, rest') := recvExact (inp w2) (N.to_nat size) [] in
          ((got <=? 0)%Z, data, set_inp rest' w2)
        else (false, [], w2) in
      if failed
      then (complain (str "Failed to read listing" ++ [NL]) (with_sock w3 c),
            CContinue)
      else (say (str "Server listing:" ++ [NL] ++ buf ++ [NL])
                (with_sock w3 c), CContinue).

(** The drain of the client after a failed local open. *)
Fixpoint client_drain (fuel : nat) (remaining : N) (w : World) : World :=
  match fuel with
  | O => w
  | S fuel' =>
      if (0 <? remaining)%N
      then
        let chunk := if (4096 <? remaining)%N then 4096%N else remaining in
        let '(got, _, rest) := recvExact (inp w) (N.to_nat chunk) [] in
        let w' := set_inp rest w in
        if (got <=? 0)%Z then w'
        else client_drain fuel' (remaining - chunk) w'
      else w
  end.

(** The download loop; [good] is the state of the output stream, whose
    writes are not tested. The flag of the result says that the connection
    failed. *)
Fixpoint client_copy (fuel : nat) (name : bytes) (remaining : N)
    (good : bool) (w : World) : bool * World :=
  match fuel with
  | O => (false, w)
  | S fuel' =>
      if (0 <? remaining)%N
      then
        let chunk :=
          if (BUFFER_SIZE <? remaining)%N then BUFFER_SIZE else remaining in
        let '(got, buf, rest) := recvExact (inp w) (N.to_nat chunk) [] in
        let w1 := set_inp rest w in
        if (got <=? 0)%Z then (true, w1)
        else
          let '(good', w2) :=
            if good then ofs_write name buf w1 else (false, w1) in
          client_copy fuel' name (remaining - Z.to_N got) good' w2
      else (false, w)
  end.

Definition client_GET (filename : bytes) (c : Client)
  : Client * client_status :=
  if bool_decide (filename = [])
  then (complain (str "Usage: GET <filename>" ++ [NL]) c, CContinue)
  else
    let '(ok, w1) := sendLine (str "GET " ++ filename) (sock c) in
    if negb ok then (with_sock w1 c, CBreak CSendFailed)
    else
      let '(ok2, size, err, rest) := recvResponseOKAndSize (inp w1) 0 [] in
      let w2 := set_inp rest w1 in
      if negb ok2
      then (complain (str "Server error: " ++ err ++ [NL]) (with_sock w2 c),
            CContinue)
      else
        match ofstream_open (fs w2) filename with
        | None =>
            (with_sock (client_drain (S (length (inp w2))) size w2)
               (complain (str "Failed to open local file for writing" ++ [NL])
                         c), CContinue)
        | Some m =>
            let '(failed, w3) :=
              client_copy (S (length (inp w2))) filename size true
                          (set_fs m w2) in
            let c1 :=
              if failed
              then complain (str "Connection error during download" ++ [NL]) c
              else c in
            (say (str "Downloaded " ++ filename ++ str " ("
                  ++ to_string size ++ str " bytes)" ++ [NL])
                 (with_sock w3 c1), CContinue)
        end.

(** The upload loop of the client; the flag says that a send failed. *)
Fixpoint client_send_chunks (fuel : nat) (content : bytes) (w : World)
  : bool * World :=
  match fuel with
  | O => (false, w)
  | S fuel' =>
      let buf := take (N.to_nat BUFFER_SIZE) content in
      let r := length buf in
      let ifs_good := (r =? N.to_nat BUFFER_SIZE)%nat in
      let '(failed, w') :=
        if (0 <? r)%nat
        then let '(n, w') := sendAll buf w in ((n <? 0)%Z, w')
        else (false, w) in
      if failed then (true, w')
      else if ifs_good
           then client_send_chunks fuel'
                  (drop (N.to_nat BUFFER_SIZE) content) w'
           else (false, w')
  end.

Definition client_PUT (filename : bytes) (c : Client)
  : Client * client_status :=
  let not_found :=
    (complain (str "Local file not found: " ++ filename ++ [NL]) c,
     CContinue) in
  if bool_decide (filename = [])
  then (complain (str "Usage: PUT <filename>" ++ [NL]) c, CContinue)
  else
    match fs_exists (fs (sock c)) filename with
    | None => (c, CThrow)
    | Some false => not_found
    | Some true =>
    match is_regular_file (fs (sock c)) filename with
    | None => (c, CThrow)
    | Some false => not_found
    | Some true =>
    let fsize := file_size (fs (sock c)) filename in
    let '(ok, w1) := sendLine (str "PUT " ++ filename) (sock c) in
    if negb ok then (with_sock w1 c, CBreak CSendFailed)
    else
      let '(ok2, w2) := sendLine (to_string fsize) w1 in
      if negb ok2 then (with_sock w2 c, CBreak CSendFailed)
      else
        match ifstream_open (fs w2) filename with
        | None =>
            (complain (str "Failed to open local file for reading" ++ [NL])
                      (with_sock w2 c), CContinue)
        | Some content =>
            let '(failed, w3) :=
              client_send_chunks (S (length content)) content w2 in
            let c1 :=
              if failed then complain (str "Send error" ++ [NL]) c else c in
            let '(ok3, status, rest) := readLine (inp w3) in
            let w4 := set_inp rest w3 in
            if negb ok3
            then (complain (str "No response after PUT" ++ [NL])
                           (with_sock w4 c1), CBreak CNoResponse)
            else if bool_decide (status = str "OK")
            then (say (str "Upload successful" ++ [NL]) (with_sock w4 c1),
                  CContinue)
            else if bool_decide (status = str "ERR")
            then
              let '(_, msg, rest') := readLine (inp w4) in
              (complain (str "Server error: " ++ msg ++ [NL])
                        (with_sock (set_inp rest' w4) c1), CContinue)
            else (complain (str "Unexpected server response: " ++ status
                            ++ [NL]) (with_sock w4 c1), CContinue)
        end
    end
    end.

(** The dispatch of the client on one line typed by the user. *)
Definition client_command (cmd : bytes) (c : Client)
  : Client * client_status :=
  if bool_decide (cmd = []) then (c, CContinue)
  else if bool_decide (rfind cmd (str "LIST") 0 = Some O) then client_LIST c
  else if bool_decide (rfind cmd (str "GET ") 0 = Some O)
  then client_GET (substr cmd 4) c
  else if bool_decide (rfind cmd (str "PUT ") 0 = Some O)
  then client_PUT (substr cmd 4) c
  else if bool_decide (rfind cmd (str "QUIT") 0 = Some O)
  then (with_sock (snd (sendLine (str "QUIT") (sock c))) c, CBreak CQuit)
  else (say (str "Unknown command. Supported: LIST, GET <file>, PUT <file>, QUIT"
             ++ [NL]) c, CContinue).

(** One turn of the client's loop: the prompt, a line, its dispatch. *)
Definition client_step (c : Client) : Client * client_status :=
  let c0 := say (str "> ") c in
  match stdin c0 with
  | [] => (c0, CBreak CEndOfInput)
  | cmd :: more =>
      client_command cmd (mkClient (sock c0) more (cout c0) (cerr c0))
  end.

Fixpoint client_session (fuel : nat) (c : Client)
  : option (Client * client_exit) :=
  match fuel with
  | O => None
  | S fuel' =>
      match client_step c with
      | (c', CContinue) => client_session fuel' c'
      | (c', CBreak r) => Some (c', r)
      | (c', CThrow) => Some (c', CThrown)
      end
  end.

(** [run_client] from the connected socket on: the loop, [close(sock)],
    and the last message, both skipped by an exception. Every turn takes
    one line of the input. *)
Definition run_client (c : Client) : option (Client * client_exit) :=
  match client_session (S (length (stdin c))) c with
  | Some (c', CThrown) => Some (c', CThrown)
  | Some (c', r) =>
      Some (say (str "Disconnected." ++ [NL]) (with_sock (close (sock c')) c'),
            r)
  | None => None
  end.

(** What a client sends for the upload of [content] under [filename]. *)
Definition put_request (filename content : bytes) : bytes :=
  str "PUT " ++ filename ++ [NL] ++ to_string (N.of_nat (length content))
  ++ [NL] ++ content.

(** ** Local mode (the build with [NO_NETWORK])

    [do_list], [do_get] and [do_put] work on the served directory and on
    the working directory of the process. The two are the same directory
    when the program is started without [--dir] ([main] then takes
    [fs::current_path()] as the served directory); [same_dir] records that,
    and every access to the working directory then goes to the served
    one. *)

Record Local : Type := mkLocal {
  served : gmap bytes entry;    (* the entries of [serve_dir] *)
  cwd : gmap bytes entry;       (* the working directory, when it is another *)
  same_dir : bool;              (* [serve_dir] is the working directory *)
  lfree : N;                    (* bytes that can still be written *)
  lout : bytes;                 (* written to [std::cout] *)
  lerr : bytes                  (* written to [std::cerr] *)
}.

Inductive side : Type := Served | Working.

Definition dir_of (d : side) (s : Local) : gmap bytes entry :=
  match d with
  | Served => served s
  | Working => if same_dir s then served s else cwd s
  end.

Definition set_dir (d : side) (m : gmap bytes entry) (s : Local) : Local :=
  match d with
  | Served => mkLocal m (cwd s) (same_dir s) (lfree s) (lout s) (lerr s)
  | Working =>
      if same_dir s
      then mkLocal m (cwd s) (same_dir s) (lfree s) (lout s) (lerr s)
      else mkLocal (served s) m (same_dir s) (lfree s) (lout s) (lerr s)
  end.

Definition lsay (b : bytes) (s : Local) : Local :=
  mkLocal (served s) (cwd s) (same_dir s) (lfree s) (lout s ++ b) (lerr s).
Definition lcomplain (b : bytes) (s : Local) : Local :=
  mkLocal (served s) (cwd s) (same_dir s) (lfree s) (lout s) (lerr s ++ b).

(** The copy loop of [do_get] and [do_put]: [content] is what the input
    stream still holds, [good] the state of the output stream (its writes
    are not tested), [d] the directory of the file written. A write is
    that of [ofs_write]. *)
Fixpoint local_copy (fuel : nat) (d : side) (name content : bytes)
    (good : bool) (s : Local) : Local :=
  match fuel with
  | O => s
  | S fuel' =>
      let buf := take (N.to_nat BUFFER_SIZE) content in
      let r := length buf in
      let ifs_good := (r =? N.to_nat BUFFER_SIZE)%nat in
      let '(good', s') :=
        if (0 <? r)%nat && good
        then
          if (N.of_nat r <=? lfree s)%N
          then (true,
                set_dir d (alter (append_to buf) (c_str name) (dir_of d s))
                  (mkLocal (served s) (cwd s) (same_dir s)
                           (lfree s - N.of_nat r) (lout s) (lerr s)))
          else if (N.of_nat r <? FILEBUF_DIRECT)%N then (true, s)
          else (false, s)
        else (good, s) in
      if ifs_good
      then local_copy fuel' d name (drop (N.to_nat BUFFER_SIZE) content)
                      good' s'
      else s'
  end.

(** What an input stream opened on [name] delivers when it is read. *)
Definition readable (m : gmap bytes entry) (name : bytes) : bytes :=
  match ifstream_open m name with
  | Some content => content
  | None => []
  end.

Definition do_list (s : Local) : Local := lsay (listing_of (served s)) s.

(** How a command of the local mode ends: it returns, or an exception
    that nothing catches leaves it. *)
Inductive lresult : Type :=
  | Returned (s : Local)
  | Thrown (s : Local).

Definition do_get (filename : bytes) (s : Local) : lresult :=
  let not_found :=
    Returned
      (lcomplain (str "File not found on server: " ++ filename ++ [NL]) s) in
  if negb (isSafeFilename filename)
  then Returned (lcomplain (str "Invalid filename" ++ [NL]) s)
  else
    match fs_exists (served s) filename with
    | None => Thrown s
    | Some false => not_found
    | Some true =>
    match is_regular_file (served s) filename with
    | None => Thrown s
    | Some false => not_found
    | Some true =>
    match ifstream_open (served s) filename with
    | None => Returned (lcomplain (str "Failed to open server file" ++ [NL]) s)
    | Some _ =>
        match ofstream_open (dir_of Working s) filename with
        | None =>
            Returned
              (lcomplain (str "Failed to open local file for writing" ++ [NL])
                         s)
        | Some m =>
            let s1 := set_dir Working m s in
            let content := readable (served s1) filename in
            let s2 :=
              local_copy (S (length content)) Working filename content true
                         s1 in
            Returned
              (lsay (str "Downloaded " ++ filename ++ str " ("
                     ++ to_string (file_size (served s2) filename)
                     ++ str " bytes)" ++ [NL]) s2)
        end
    end
    end
    end.

Definition do_put (filename : bytes) (s : Local) : lresult :=
  let not_found :=
    Returned (lcomplain (str "Local file not found: " ++ filename ++ [NL]) s) in
  if negb (isSafeFilename filename)
  then Returned (lcomplain (str "Invalid filename" ++ [NL]) s)
  else
    match fs_exists (dir_of Working s) filename with
    | None => Thrown s
    | Some false => not_found
    | Some true =>
    match is_regular_file (dir_of Working s) filename with
    | None => Thrown s
    | Some false => not_found
    | Some true =>
    match ifstream_open (dir_of Working s) filename with
    | None =>
        Returned
          (lcomplain (str "Failed to open local file for reading" ++ [NL]) s)
    | Some _ =>
        match ofstream_open (served s) filename with
        | None =>
            Returned (lcomplain (str "Failed to create server file" ++ [NL]) s)
        | Some m =>
            let s1 := set_dir Served m s in
            let content := readable (dir_of Working s1) filename in
            let s2 :=
              local_copy (S (length content)) Served filename content true
                         s1 in
            Returned
              (lsay (str "Uploaded " ++ filename ++ str " to server directory"
                     ++ [NL]) s2)
        end
    end
    end
    end.

(** ** Vocabulary of the specification *)

(** A size line that is a decimal number: one digit or more, and nothing
    else. *)
Definition spec_decimal_number (s : bytes) : bool :=
  negb (bool_decide (s = []))
  && forallb (λ c, bool_decide (is_Some (digit_val c))) s.

(** Two responses that differ in their first bytes. *)
Ltac differs :=
  let H := fresh in
  intros H; unfold err_response, str in H; simpl in H; discriminate H.

(** * Properties *)

(** ** Searching in byte strings *)

Lemma starts_with_spec (pat s : bytes) :
  starts_with pat s = true ↔ ∃ post, s = pat ++ post.
Proof.
  revert s. induction pat as [|p pat IH]; intros s; simpl.
  - split; [intros _; by exists s | done].
  - destruct s as [|c s].
    + split; [done | intros [post H]; discriminate H].
    + destruct (decide (p = c)) as [->|Hne].
      * rewrite IH. split; intros [post H]; exists post; congruence.
      * split; [done | intros [post H]; congruence].
Qed.

Lemma find_char_None (s : bytes) (c : ascii) :
  find_char s c = None ↔ c ∉ s.
Proof.
  induction s as [|x s IH]; simpl.
  - split; [intros _; apply not_elem_of_nil | done].
  - destruct (decide (x = c)) as [->|Hne].
    + split; [done | intros H; destruct H; left].
    + rewrite fmap_None, IH, not_elem_of_cons. intuition congruence.
Qed.

Lemma find_str_None (s pat : bytes) :
  find_str s pat = None ↔ ¬ contains pat s.
Proof.
  unfold contains. induction s as [|x s IH]; simpl.
  - destruct (starts_with pat []) eqn:E.
    + apply starts_with_spec in E as [post E].
      split; [done | intros H; destruct H; by exists [], post].
    + split; [| done]. intros _ (pre & post & H).
      symmetry in H. apply app_eq_nil in H as [-> H].
      assert (starts_with pat [] = true) as E'
        by (apply starts_with_spec; by exists post).
      congruence.
  - destruct (starts_with pat (x :: s)) eqn:E.
    + apply starts_with_spec in E as [post E].
      split; [done | intros H; destruct H; by exists [], post].
    + rewrite fmap_None, IH. split.
      * intros Hs (pre & post & H). destruct pre as [|y pre]; simpl in H.
        -- assert (starts_with pat (x :: s) = true) as E'
             by (apply starts_with_spec; by exists post).
           congruence.
        -- injection H as _ H. apply Hs. by exists pre, post.
      * intros Hs (pre & post & H). apply Hs.
        exists (x :: pre), post. by rewrite H.
Qed.

Lemma find_str_contains (s pat : bytes) :
  find_str s pat ≠ None ↔ contains pat s.
Proof.
  split.
  - unfold contains. induction s as [|x s IH]; simpl.
    + destruct (starts_with pat []) eqn:E; [|done].
      apply starts_with_spec in E as [post E]. intros _. by exists [], post.
    + destruct (starts_with pat (x :: s)) eqn:E.
      * apply starts_with_spec in E as [post E]. intros _. by exists [], post.
      * intros H. destruct (find_str s pat) eqn:F; [|done].
        destruct IH as (pre & post & ->); [done|].
        by exists (x :: pre), post.
  - intros H E. by apply find_str_None in E.
Qed.

(** The guard accepts exactly the non-empty names without a slash, a
    backslash or two dots in a row. *)
Lemma isSafeFilename_true (fn : bytes) :
  isSafeFilename fn = true ↔
  fn ≠ [] ∧ ("/" ∉ fn) ∧ (BACKSLASH ∉ fn) ∧ ¬ contains (str "..") fn.
Proof.
  unfold isSafeFilename.
  rewrite <- !find_char_None, <- find_str_None.
  destruct (decide (fn = [])) as [->|Hne]; [intuition congruence|].
  repeat case_bool_decide; intuition congruence.
Qed.

Lemma isSafeFilename_false (fn : bytes) :
  isSafeFilename fn = false ↔
  fn = [] ∨ ("/" ∈ fn) ∨ (BACKSLASH ∈ fn) ∨ contains (str "..") fn.
Proof.
  rewrite <- not_true_iff_false, isSafeFilename_true, <- find_str_contains.
  destruct (decide (fn = [])); destruct (decide ("/" ∈ fn));
    destruct (decide (BACKSLASH ∈ fn));
    destruct (find_str fn (str "..")) eqn:E; intuition congruence.
Qed.

(** C1. [isSafeFilename] returns false exactly for the empty name and for
    the names that hold a slash, a backslash or the substring [".."]; on
    every other name it returns true. *)
Theorem isSafeFilename_rejects_exactly (name : bytes) :
  (isSafeFilename name = false ↔
   name = [] ∨ ("/" ∈ name) ∨ (BACKSLASH ∈ name) ∨ contains (str "..") name)
  ∧ (isSafeFilename name = true ↔
     name ≠ [] ∧ ("/" ∉ name) ∧ (BACKSLASH ∉ name)
     ∧ ¬ contains (str "..") name).
Proof. split; [apply isSafeFilename_false | apply isSafeFilename_true]. Qed.

(** ** Framing: [readLine] *)

Lemma readLine_from_line (pre rest : list recv_event) (acc : bytes) :
  Forall quiet pre →
  readLine_from (pre ++ RByte NL :: rest) acc
  = (true, acc ++ filter (λ c, c ≠ CR) (delivered pre), rest).
Proof.
  intros H. revert acc.
  induction H as [|e pre [Hnl Herr] _ IH]; intros acc; simpl.
  - by rewrite app_nil_r.
  - destruct e as [c| |]; [| apply IH | done].
    rewrite decide_False by congruence.
    destruct (decide (c ≠ CR)) as [Hc|Hc].
    + rewrite IH, filter_cons_True by done. by rewrite <- app_assoc.
    + rewrite IH, filter_cons_False by done. done.
Qed.

Lemma readLine_from_eof (pre : list recv_event) (acc : bytes) :
  Forall quiet pre → (readLine_from pre acc).1.1 = false.
Proof.
  intros H. revert acc.
  induction H as [|e pre [Hnl Herr] _ IH]; intros acc; simpl; [done|].
  destruct e as [c| |]; [| apply IH | done].
  rewrite decide_False by congruence.
  destruct (decide (c ≠ CR)); apply IH.
Qed.

Lemma readLine_from_error (pre rest : list recv_event) (acc : bytes) :
  Forall quiet pre →
  (readLine_from (pre ++ RError :: rest) acc).1.1 = false
  ∧ (readLine_from (pre ++ RError :: rest) acc).2 = rest.
Proof.
  intros H. revert acc.
  induction H as [|e pre [Hnl Herr] _ IH]; intros acc; simpl; [done|].
  destruct e as [c| |]; [| apply IH | done].
  rewrite decide_False by congruence.
  destruct (decide (c ≠ CR)); apply IH.
Qed.

(** A successful [readLine] takes at least its terminator off the stream. *)
Lemma readLine_from_shrinks (evs : list recv_event) (acc : bytes) :
  length (readLine_from evs acc).2 ≤ length evs
  ∧ ((readLine_from evs acc).1.1 = true →
     length (readLine_from evs acc).2 < length evs).
Proof.
  revert acc. induction evs as [|e evs IH]; intros acc; simpl; [done|].
  destruct e as [c| |]; simpl.
  - destruct (decide (c = NL)); simpl; [lia|].
    destruct (decide (c ≠ CR)).
    + destruct (IH (acc ++ [c])). split; [lia | intros; auto with lia].
    + destruct (IH acc). split; [lia | intros; auto with lia].
  - destruct (IH acc). split; [lia | intros; auto with lia].
  - split; [lia | done].
Qed.

(** C3, as the code has it. Up to the first line feed, [readLine] drops
    every carriage return it meets (not only one that stands right before
    the line feed) and keeps all other bytes in order; interrupted calls
    are retried. When the stream ends or fails before a line feed, the
    result is failure. *)
Theorem readLine_drops_every_cr (pre rest : list recv_event) :
  Forall quiet pre →
  readLine (pre ++ RByte NL :: rest)
  = (true, filter (λ c, c ≠ CR) (delivered pre), rest)
  ∧ (readLine pre).1.1 = false
  ∧ (readLine (pre ++ RError :: rest)).1.1 = false.
Proof.
  intros H. unfold readLine. split; [| split].
  - by rewrite readLine_from_line.
  - by apply readLine_from_eof.
  - by apply readLine_from_error.
Qed.

Lemma readLine_drops_every_cr_witness :
  readLine (wire (str "ab" ++ [CR]) ++ RByte NL :: wire (str "QUIT"))
  = (true, str "ab", wire (str "QUIT"))
  ∧ (readLine (wire (str "ab" ++ [CR]))).1.1 = false.
Proof.
  pose proof (readLine_drops_every_cr
                (wire (str "ab" ++ [CR])) (wire (str "QUIT"))) as H.
  split; apply H; repeat constructor; discriminate.
Defined.

(** C3, as the specification words it, fails: a carriage return inside the
    line is not kept. *)
Lemma readLine_inner_cr_lost :
  readLine (wire (str "a" ++ CR :: str "b" ++ [NL])) = (true, str "ab", [])
  ∧ spec_strip_trailing_cr (str "a" ++ CR :: str "b") = str "a" ++ CR :: str "b"
  ∧ (readLine (wire (str "a" ++ CR :: str "b" ++ [NL]))).1.2
    ≠ spec_strip_trailing_cr (str "a" ++ CR :: str "b").
Proof. repeat split; vm_compute; congruence. Qed.

(** ** Framing: sending *)

Lemma sendAll_inp (b : bytes) (w : World) : inp (sendAll b w).2 = inp w.
Proof.
  unfold sendAll. destruct (send_room w); [|done].
  by destruct (_ <=? _)%nat.
Qed.

Lemma sendLine_inp (l : bytes) (w : World) : inp (sendLine l w).2 = inp w.
Proof.
  unfold sendLine. pose proof (sendAll_inp (l ++ [NL]) w) as H.
  by destruct (sendAll _ w).
Qed.

Lemma send_err_inp (msg : string) (w : World) : inp (send_err msg w) = inp w.
Proof. unfold send_err. by rewrite !sendLine_inp. Qed.

Lemma sendAll_None (b : bytes) (w : World) :
  send_room w = None → sendAll b w = (Z.of_nat (length b), emit b w).
Proof. intros H. unfold sendAll, emit. by rewrite H. Qed.

Lemma sendLine_None (l : bytes) (w : World) :
  send_room w = None → sendLine l w = (true, emit (l ++ [NL]) w).
Proof.
  intros H. unfold sendLine. rewrite sendAll_None by done.
  by rewrite bool_decide_eq_true_2.
Qed.

Lemma emit_emit (a b : bytes) (w : World) :
  emit b (emit a w) = emit (a ++ b) w.
Proof. unfold emit. simpl. by rewrite <- app_assoc. Qed.

Lemma emit_nil (w : World) : emit [] w = w.
Proof. destruct w. unfold emit. simpl. by rewrite app_nil_r. Qed.

Lemma send_err_None (msg : string) (w : World) :
  send_room w = None → send_err msg w = emit (err_response msg) w.
Proof.
  intros H. unfold send_err, err_response.
  rewrite (sendLine_None _ w) by done. simpl.
  rewrite sendLine_None by done. by rewrite emit_emit.
Qed.

(** The chunked send of a file amounts to one send of the whole content. *)
Lemma send_chunks_None (fuel : nat) (content : bytes) (w : World) :
  send_room w = None → length content < fuel →
  send_chunks fuel content w = emit content w.
Proof.
  revert content w. induction fuel as [|fuel IH]; intros content w Hr Hf;
    [lia|].
  cbn [send_chunks].
  set (k := N.to_nat BUFFER_SIZE).
  assert (0 < k) as Hk by (subst k; unfold BUFFER_SIZE; lia).
  clearbody k.
  destruct (decide (length content < k)) as [Hlt|Hge].
  - rewrite take_ge by lia.
    destruct content as [|c content].
    + rewrite emit_nil. destruct k; [lia | done].
    + replace (0 <? length (c :: content))%nat with true
        by (symmetry; apply Nat.ltb_lt; simpl; lia).
      rewrite sendAll_None by done.
      replace (Z.of_nat (length (c :: content)) <? 0)%Z with false
        by (symmetry; apply Z.ltb_ge; lia).
      replace (length (c :: content) =? k)%nat with false
        by (symmetry; apply Nat.eqb_neq; lia).
      done.
  - rewrite length_take, Nat.min_l by lia.
    replace (0 <? k)%nat with true by (symmetry; apply Nat.ltb_lt; lia).
    rewrite sendAll_None by done.
    replace (Z.of_nat (length (take k content)) <? 0)%Z with false
      by (symmetry; apply Z.ltb_ge; lia).
    rewrite Nat.eqb_refl.
    rewrite IH; [| done | rewrite length_drop; lia].
    rewrite emit_emit. by rewrite take_drop.
Qed.

Lemma send_chunks_inp (fuel : nat) (content : bytes) (w : World) :
  inp (send_chunks fuel content w) = inp w.
Proof.
  revert content w. induction fuel as [|fuel IH]; intros content w; [done|].
  cbn [send_chunks].
  destruct (0 <? _)%nat.
  - pose proof (sendAll_inp (take (N.to_nat BUFFER_SIZE) content) w) as H.
    destruct (sendAll _ w) as [n w']. simpl in H.
    destruct (n <? 0)%Z; [done|].
    destruct (_ =? _)%nat; [|done]. by rewrite IH.
  - destruct (_ =? _)%nat; [|done]. by rewrite IH.
Qed.

(** ** Framing: [recvExact] *)

(** [recvExact] either fails with [-1] or delivers exactly [len] more
    bytes; it never gives events back. *)
Lemma recvExact_cases (evs : list recv_event) (len : nat) (buf : bytes) :
  ∃ got data rest,
    recvExact evs len buf = (got, buf ++ data, rest)
    ∧ length rest ≤ length evs
    ∧ (got = (-1)%Z
       ∨ (got = Z.of_nat (length buf + len) ∧ length data = len
          ∧ (0 < len → length rest < length evs))).
Proof.
  revert len buf. induction evs as [|e evs IH]; intros len buf.
  - destruct len; simpl.
    + exists (Z.of_nat (length buf)), [], []. rewrite app_nil_r.
      split; [done|]. split; [done|]. right.
      split; [f_equal; lia | split; [done | lia]].
    + exists (-1)%Z, [], []. rewrite app_nil_r. auto.
  - destruct len as [|len].
    + simpl. exists (Z.of_nat (length buf)), [], (e :: evs).
      rewrite app_nil_r. split; [done|]. split; [done|]. right.
      split; [f_equal; lia | split; [done | lia]].
    + destruct e as [c| |]; cbn [recvExact].
      * destruct (IH len (buf ++ [c])) as (got & data & rest & E & Hl & H).
        exists got, (c :: data), rest. rewrite E, <- app_assoc.
        split; [done|]. split; [simpl; lia|].
        destruct H as [H|(H1 & H2 & H3)]; [by left | right].
        rewrite length_app in H1. simpl in *.
        split; [rewrite H1; f_equal; lia | split; [lia | lia]].
      * destruct (IH (S len) buf) as (got & data & rest & E & Hl & H).
        exists got, data, rest. rewrite E.
        split; [done|]. split; [simpl; lia|].
        destruct H as [H|(H1 & H2 & H3)]; [by left | right].
        split; [done | split; [done | simpl; lia]].
      * exists (-1)%Z, [], evs. rewrite app_nil_r.
        split; [done|]. split; [simpl; lia | by left].
Qed.

(** What is already in the buffer does not change what is read. *)
Lemma recvExact_buf (evs : list recv_event) (len : nat) (buf : bytes) :
  ∀ got data rest,
    recvExact evs len [] = (got, data, rest) →
    recvExact evs len buf
    = (if decide (got = (-1)%Z) then (-1)%Z
       else (got + Z.of_nat (length buf))%Z,
       buf ++ data, rest).
Proof.
  revert len buf. induction evs as [|e evs IH]; intros len buf got data rest.
  - destruct len; simpl; intros [= <- <- <-]; rewrite app_nil_r; [|done].
    destruct (decide _) as [?|_]; [lia | done].
  - destruct len as [|len].
    + simpl. intros [= <- <- <-]. rewrite app_nil_r.
      destruct (decide _) as [?|_]; [lia | done].
    + destruct e as [c| |]; cbn [recvExact].
      * simpl. intros E.
        destruct (recvExact_cases evs len []) as (g0 & d0 & r0 & E0 & _ & _).
        simpl in E0.
        rewrite (IH len [c] _ _ _ E0) in E. injection E as <- <- <-.
        rewrite (IH len (buf ++ [c]) _ _ _ E0).
        rewrite length_app. simpl. rewrite <- app_assoc. simpl.
        destruct (decide (g0 = (-1)%Z)) as [->|Hg].
        -- by rewrite decide_True.
        -- destruct (decide _) as [Hbad|_].
           ++ destruct (recvExact_cases evs len []) as (g1 & d1 & r1 & E1 & _ & H).
              simpl in E1. rewrite E0 in E1. injection E1 as <- <- <-.
              destruct H as [H|[H _]]; [done | lia].
           ++ do 2 f_equal. lia.
      * apply IH.
      * intros [= <- <- <-]. rewrite app_nil_r. done.
Qed.

(** Reading [a + b] bytes is reading [a] bytes and then [b] more. *)
Lemma recvExact_split (evs : list recv_event) (a b : nat) (buf : bytes) :
  ∀ got data rest,
    recvExact evs a buf = (got, data, rest) →
    recvExact evs (a + b) buf
    = (if decide (got = (-1)%Z) then recvExact evs (a + b) buf
       else recvExact rest b data)
    ∧ (got = (-1)%Z → (recvExact evs (a + b) buf).1.1 = (-1)%Z).
Proof.
  revert a buf. induction evs as [|e evs IH]; intros a buf got data rest.
  - destruct a; simpl.
    + intros [= <- <- <-]. rewrite decide_False by lia. split; [done | lia].
    + intros [= <- <- <-]. by rewrite decide_True.
  - destruct a as [|a].
    + simpl. intros [= <- <- <-]. rewrite decide_False by lia.
      split; [done | lia].
    + destruct e as [c| |]; cbn [recvExact Nat.add].
      * apply IH.
      * intros E. apply (IH (S a) buf _ _ _ E).
      * intros [= <- <- <-]. by rewrite decide_True.
Qed.

(** ** The loop terminates *)

Lemma drain_inp (fuel : nat) (n : N) (w : World) :
  length (inp (drain fuel n w)) ≤ length (inp w).
Proof.
  revert n w. induction fuel as [|fuel IH]; intros n w; [done|].
  cbn [drain]. destruct (0 <? n)%N; [|done].
  set (chunk := if (4096 <? n)%N then 4096%N else n).
  destruct (recvExact_cases (inp w) (N.to_nat chunk) [])
    as (got & data & rest & E & Hl & _).
  rewrite E. destruct (got <=? 0)%Z; [done|].
  etrans; [apply IH | done].
Qed.

Lemma recv_to_file_inp (fuel : nat) (name : bytes) (n : N) (w : World) :
  length (inp (recv_to_file fuel name n w).2) ≤ length (inp w).
Proof.
  revert n w. induction fuel as [|fuel IH]; intros n w; [done|].
  cbn [recv_to_file]. destruct (0 <? n)%N; [|done].
  set (chunk := if (BUFFER_SIZE <? n)%N then BUFFER_SIZE else n).
  destruct (recvExact_cases (inp w) (N.to_nat chunk) [])
    as (got & data & rest & E & Hl & _).
  rewrite E. destruct (got <=? 0)%Z; [done|].
  unfold ofs_write.
  destruct (_ <=? _)%N; [| destruct (N.of_nat _ <? _)%N; [|done]];
    cbn [negb]; (etrans; [apply IH | done]).
Qed.

Lemma do_LIST_inp (w : World) : inp (do_LIST w).1 = inp w.
Proof.
  unfold do_LIST.
  pose proof (sendLine_inp (str "OK") w) as H1.
  destruct (sendLine (str "OK") w) as [ok1 w1]. simpl in H1.
  destruct ok1; [|done]. cbn [negb].
  pose proof (sendLine_inp
    (to_string (N.of_nat (length (listing_of (fs w))))) w1) as H2.
  destruct (sendLine _ w1) as [ok2 w2]. simpl in H2.
  destruct ok2; cbn [negb]; [| simpl; congruence].
  destruct (bool_decide _); cbn [negb]; [simpl; congruence|].
  pose proof (sendAll_inp (listing_of (fs w)) w2) as H3.
  destruct (sendAll _ w2) as [n w3]. simpl in H3.
  destruct (n <? 0)%Z; simpl; congruence.
Qed.

Lemma do_GET_inp (filename : bytes) (w : World) :
  inp (do_GET filename w).1 = inp w.
Proof.
  unfold do_GET.
  destruct (isSafeFilename filename); cbn [negb];
    [| apply send_err_inp].
  destruct (fs_exists _ _) as [[|]|]; [| apply send_err_inp | done].
  destruct (is_regular_file _ _) as [[|]|]; [| apply send_err_inp | done].
  destruct (ifstream_open _ _); [| apply send_err_inp].
  cbn [fst]. by rewrite send_chunks_inp, !sendLine_inp.
Qed.

Lemma do_PUT_inp (filename : bytes) (w : World) :
  length (inp (do_PUT filename w).1) ≤ length (inp w).
Proof.
  unfold do_PUT.
  destruct (isSafeFilename filename); cbn [negb];
    [| cbn [fst]; by rewrite send_err_inp].
  pose proof (readLine_from_shrinks (inp w) []) as [Hl _].
  fold (readLine (inp w)) in Hl.
  destruct (readLine (inp w)) as [[ok sizeLine] rest]. simpl in Hl.
  destruct ok; cbn [negb]; [|done].
  destruct (stoull sizeLine) as [size|]; [| cbn [fst]; by rewrite send_err_inp].
  destruct (ofstream_open _ _) as [m|].
  - pose proof (recv_to_file_inp (S (length (inp (set_fs m (set_inp rest w)))))
                  filename size (set_fs m (set_inp rest w))) as H.
    destruct (recv_to_file _ _ _ _) as [err w2]. simpl in H.
    destruct err; cbn [fst]; rewrite ?send_err_inp, ?sendLine_inp; lia.
  - cbn [fst]. etrans; [apply drain_inp|]. by rewrite send_err_inp.
Qed.

Lemma serve_line_inp (line : bytes) (w : World) :
  length (inp (serve_line line w).1) ≤ length (inp w).
Proof.
  unfold serve_line.
  repeat case_bool_decide; simpl;
    rewrite ?do_LIST_inp, ?do_GET_inp, ?send_err_inp;
    auto using do_PUT_inp.
Qed.

Lemma step_shrinks (w w' : World) :
  step w = (w', Continue) → length (inp w') < length (inp w).
Proof.
  unfold step.
  pose proof (readLine_from_shrinks (inp w) []) as [_ Hl].
  fold (readLine (inp w)) in Hl.
  destruct (readLine (inp w)) as [[ok line] rest]. simpl in Hl.
  destruct ok; cbn [negb]; [|done].
  intros E. pose proof (serve_line_inp line (set_inp rest w)) as H.
  rewrite E in H. simpl in H. specialize (Hl eq_refl). lia.
Qed.

(** With more fuel than events the loop reaches a [break]. *)
Lemma session_total (fuel : nat) (w : World) :
  length (inp w) < fuel → ∃ w' r, session fuel w = Some (w', r).
Proof.
  revert w. induction fuel as [|fuel IH]; intros w Hf; [lia|].
  cbn [session]. destruct (step w) as [w1 [|r|]] eqn:E; [| by eauto ..].
  apply step_shrinks in E. apply IH. lia.
Qed.

Lemma session_fuel (f1 f2 : nat) (w : World) :
  length (inp w) < f1 → length (inp w) < f2 → session f1 w = session f2 w.
Proof.
  revert f2 w. induction f1 as [|f1 IH]; intros f2 w H1 H2; [lia|].
  destruct f2 as [|f2]; [lia|].
  cbn [session]. destruct (step w) as [w1 [|r|]] eqn:E; [|done ..].
  apply step_shrinks in E. apply IH; lia.
Qed.

(** Unfolding one turn of the loop that ends in [continue]. *)
Lemma handle_client_continue (w w' : World) :
  step w = (w', Continue) → handle_client w = handle_client w'.
Proof.
  intros E. unfold handle_client. cbn [session]. rewrite E.
  apply step_shrinks in E.
  by rewrite (session_fuel (length (inp w)) (S (length (inp w')))) by lia.
Qed.

Lemma handle_client_break (w w' : World) (r : exit_reason) :
  step w = (w', Break r) → r ≠ ExitThrow →
  handle_client w = Some (close w', r).
Proof.
  intros E Hr. unfold handle_client. cbn [session]. rewrite E.
  by destruct r.
Qed.

Lemma handle_client_throw (w w' : World) :
  step w = (w', Throw) → handle_client w = Some (w', ExitThrow).
Proof. intros E. unfold handle_client. cbn [session]. by rewrite E. Qed.

(** The fuel given to the inner loops is never what stops them. *)
Lemma drain_fuel (f1 f2 : nat) (n : N) (w : World) :
  length (inp w) < f1 → length (inp w) < f2 → drain f1 n w = drain f2 n w.
Proof.
  revert f2 n w. induction f1 as [|f1 IH]; intros f2 n w H1 H2; [lia|].
  destruct f2 as [|f2]; [lia|]. cbn [drain].
  destruct (0 <? n)%N eqn:Hn; [|done]. apply N.ltb_lt in Hn.
  set (chunk := if (4096 <? n)%N then 4096%N else n).
  assert (0 < N.to_nat chunk) as Hc.
  { subst chunk. destruct (4096 <? n)%N; lia. }
  destruct (recvExact_cases (inp w) (N.to_nat chunk) [])
    as (got & data & rest & E & Hl & H).
  rewrite E. destruct (got <=? 0)%Z eqn:Hg; [done|]. apply Z.leb_gt in Hg.
  destruct H as [->|(_ & _ & Hlt)]; [lia|]. specialize (Hlt Hc).
  apply IH; simpl; lia.
Qed.

Lemma send_chunks_fuel (f1 f2 : nat) (content : bytes) (w : World) :
  length content < f1 → length content < f2 →
  send_chunks f1 content w = send_chunks f2 content w.
Proof.
  revert f2 content w.
  induction f1 as [|f1 IH]; intros f2 content w H1 H2; [lia|].
  destruct f2 as [|f2]; [lia|]. cbn [send_chunks].
  set (k := N.to_nat BUFFER_SIZE).
  assert (0 < k) as Hk by (subst k; unfold BUFFER_SIZE; lia).
  clearbody k.
  destruct (if (0 <? length (take k content))%nat
            then let '(n, w') := sendAll (take k content) w in
                 ((n <? 0)%Z, w')
            else (false, w)) as [failed w'].
  destruct failed; [done|].
  destruct (length (take k content) =? k)%nat eqn:E; [|done].
  apply Nat.eqb_eq in E. rewrite length_take in E.
  apply IH; rewrite length_drop; lia.
Qed.

(** [std::stoull] throws exactly when no digit follows the white space and
    the sign, or when the digits exceed [ULLONG_MAX]. *)
Lemma stoull_None (s : bytes) :
  stoull s = None ↔
  match (split_sign (skip_spaces s)).2 with
  | c :: _ => digit_val c = None
  | [] => True
  end
  ∨ (ULLONG_MAX < parse_digits (split_sign (skip_spaces s)).2 0)%N.
Proof.
  unfold stoull. destruct (split_sign (skip_spaces s)) as [neg ds]. simpl.
  destruct ds as [|c ds]; [tauto|].
  destruct (digit_val c) as [d|] eqn:Hd; [|tauto].
  destruct (ULLONG_MAX <? _)%N eqn:Ho.
  - apply N.ltb_lt in Ho. tauto.
  - apply N.ltb_ge in Ho. split; [done|]. intros [?|?]; [done | lia].
Qed.

(** ** Dispatch *)

Lemma starts_with_length (pat s : bytes) :
  starts_with pat s = true → length pat ≤ length s.
Proof.
  intros H. apply starts_with_spec in H as [post ->].
  rewrite length_app. lia.
Qed.

(** [line.rfind(pat, 0) == 0] says that [line] begins with [pat]. *)
Lemma rfind_0_test (line pat : bytes) :
  bool_decide (rfind line pat 0 = Some O) = starts_with pat line.
Proof.
  cbn [rfind]. rewrite drop_0.
  destruct (starts_with pat line) eqn:E; cbn [andb].
  - apply starts_with_length in E.
    replace (0 + length pat <=? length line)%nat with true
      by (symmetry; apply Nat.leb_le; lia).
    by apply bool_decide_eq_true_2.
  - by apply bool_decide_eq_false_2.
Qed.

Lemma serve_line_unfold (line : bytes) (w : World) :
  serve_line line w =
  if starts_with (str "LIST") line then do_LIST w
  else if starts_with (str "GET ") line then do_GET (substr line 4) w
  else if starts_with (str "PUT ") line then do_PUT (substr line 4) w
  else if starts_with (str "QUIT") line then (w, Break ExitQuit)
  else (send_err "Unknown command" w, Continue).
Proof. unfold serve_line. by rewrite !rfind_0_test. Qed.

Lemma serve_line_GET (filename : bytes) (w : World) :
  serve_line (str "GET " ++ filename) w = do_GET filename w.
Proof. by rewrite serve_line_unfold. Qed.

Lemma serve_line_PUT (filename : bytes) (w : World) :
  serve_line (str "PUT " ++ filename) w = do_PUT filename w.
Proof. by rewrite serve_line_unfold. Qed.

Lemma serve_line_QUIT (line : bytes) (w : World) :
  starts_with (str "QUIT") line = true →
  serve_line line w = (w, Break ExitQuit).
Proof.
  intros H. rewrite serve_line_unfold, H.
  apply starts_with_spec in H as [post ->]. done.
Qed.

(** X26. [handle_client] always comes to an end on a finite stream: the
    loop is left by a [break] (a failed [readLine], a failed send of a LIST
    response, or a QUIT line), and then the connection is closed, or by an
    exception. A line that begins with QUIT ends the session with nothing
    sent for it. *)
Theorem handle_client_ends (w : World) :
  (∃ w' r, handle_client w = Some (w', r)
           ∧ (r ≠ ExitThrow → closed w' = true))
  ∧ (∀ line rest,
       readLine (inp w) = (true, line, rest) →
       starts_with (str "QUIT") line = true →
       handle_client w = Some (close (set_inp rest w), ExitQuit)
       ∧ out (close (set_inp rest w)) = out w).
Proof.
  split.
  - unfold handle_client.
    destruct (session_total (S (length (inp w))) w) as (w' & r & E); [lia|].
    rewrite E. destruct r; eexists _, _; (split; [reflexivity | done]).
  - intros line rest Hr Hq. split; [|done].
    apply handle_client_break; [|done]. unfold step. rewrite Hr. cbn [negb].
    by apply serve_line_QUIT.
Qed.

(** ** The copy loop of PUT *)

Lemma alter_append_to (m : gmap bytes entry) (name c data : bytes) :
  m !! name = Some (File c) →
  alter (append_to data) name m = <[name := File (c ++ data)]> m.
Proof.
  intros H. apply map_eq. intros k.
  rewrite lookup_alter, lookup_insert.
  destruct (decide (name = k)) as [<-|]; [by rewrite H | done].
Qed.

(** The chunked copy amounts to one [recvExact] of the declared size
    appended to the open file: it ends without error when the stream
    delivers that many bytes and they fit on the volume, and with an error
    when the stream does not deliver them. *)
Lemma recv_to_file_spec (name : bytes) (fuel : nat) :
  ∀ (n : N) (w : World) (c : bytes),
    length (inp w) < fuel →
    fs w !! c_str name = Some (File c) →
    ∃ got data rest,
      recvExact (inp w) (N.to_nat n) [] = (got, data, rest)
      ∧ (got ≠ (-1)%Z → (n <= disk_free w)%N →
         recv_to_file fuel name n w
         = (false,
            mkWorld rest (out w) (send_room w)
                    (<[c_str name := File (c ++ data)]> (fs w))
                    (disk_free w - n) (closed w)))
      ∧ (got = (-1)%Z → (recv_to_file fuel name n w).1 = true).
Proof.
  induction fuel as [|fuel IH]; intros n w c Hf Hopen; [lia|].
  cbn [recv_to_file].
  destruct (0 <? n)%N eqn:Hn.
  2:{ apply N.ltb_ge in Hn. assert (n = 0%N) as -> by lia.
      exists 0%Z, [], (inp w). split.
      { by destruct (inp w). }
      split; [| done].
      intros _ _. f_equal. destruct w as [i o r m d cl]. simpl in *.
      rewrite app_nil_r, insert_id, N.sub_0_r by done. done. }
  apply N.ltb_lt in Hn.
  set (chunk := if (BUFFER_SIZE <? n)%N then BUFFER_SIZE else n).
  assert (0 < chunk ∧ chunk <= n)%N as [Hc0 Hcn].
  { subst chunk. unfold BUFFER_SIZE.
    destruct (8192 <? n)%N eqn:E; [apply N.ltb_lt in E|]; lia. }
  clearbody chunk.
  assert (N.to_nat n = N.to_nat chunk + N.to_nat (n - chunk)) as Hsplit by lia.
  destruct (recvExact_cases (inp w) (N.to_nat chunk) [])
    as (g1 & d1 & r1 & E1 & Hl1 & H1).
  cbn [length Nat.add app] in E1, H1. rewrite E1.
  pose proof (recvExact_split (inp w) (N.to_nat chunk) (N.to_nat (n - chunk))
                [] _ _ _ E1) as [Hs Hfail].
  rewrite <- Hsplit in Hs, Hfail.
  destruct H1 as [->|(-> & Hd1 & Hlt)].
  { (* the first chunk fails *)
    destruct (recvExact (inp w) (N.to_nat n) []) as [[got data] rest] eqn:E.
    exists got, data, rest. split; [done|].
    simpl in Hfail. split; [intros Hg; by specialize (Hfail eq_refl) | done]. }
  specialize (Hlt ltac:(lia)). simpl in Hs.
  rewrite decide_False in Hs by lia. clear Hfail.
  replace (Z.of_nat (N.to_nat chunk) <=? 0)%Z with false
    by (symmetry; apply Z.leb_gt; lia).
  unfold ofs_write. cbn [disk_free set_inp fs inp out send_room closed].
  rewrite Hd1, N2Nat.id.
  destruct (recvExact_cases r1 (N.to_nat (n - chunk)) [])
    as (g2 & d2 & r2 & E2 & Hl2 & H2).
  cbn [length Nat.add app] in E2, H2.
  rewrite (recvExact_buf _ _ d1 _ _ _ E2) in Hs.
  exists (if decide (g2 = (-1)%Z) then (-1)%Z
          else (g2 + Z.of_nat (length d1))%Z), (d1 ++ d2), r2.
  split; [done|].
  assert (∀ g : Z,
            (if decide (g2 = (-1)%Z) then (-1)%Z
             else (g2 + Z.of_nat (length d1))%Z) = (-1)%Z → g2 = (-1)%Z)
    as Hg2.
  { intros _. destruct (decide (g2 = (-1)%Z)) as [|Hg2]; [done|].
    destruct H2 as [?|[-> _]]; [done | lia]. }
  specialize (Hg2 0%Z).
  replace (Z.to_N (Z.of_nat (N.to_nat chunk))) with chunk by lia.
  destruct (chunk <=? disk_free w)%N eqn:Hdisk.
  2:{ (* the volume is full *)
      apply N.leb_gt in Hdisk. split; [lia|].
      destruct (chunk <? FILEBUF_DIRECT)%N; [| done]. cbn [negb].
      intros Hg. apply Hg2 in Hg.
      destruct (IH (n - chunk)%N (set_inp r1 w) c)
        as (g & d & r & E & _ & Hbad); [simpl; lia | done |].
      simpl in E. rewrite E2 in E. injection E as <- <- <-.
      by apply Hbad. }
  apply N.leb_le in Hdisk. cbn [negb].
  rewrite (alter_append_to _ _ c) by done.
  set (w2 := mkWorld r1 (out w) (send_room w)
               (<[c_str name:=File (c ++ d1)]> (fs w))
               (disk_free w - chunk) (closed w)).
  destruct (IH (n - chunk)%N w2 (c ++ d1)) as (g & d & r & E & Hok & Hbad).
  { simpl. lia. }
  { simpl. apply lookup_insert_eq. }
  simpl in E. rewrite E2 in E. injection E as <- <- <-.
  split.
  - intros Hg Hle. destruct (decide (g2 = (-1)%Z)) as [|Hg2']; [done|].
    rewrite Hok; [| done | simpl; lia]. f_equal. simpl.
    rewrite insert_insert_eq, app_assoc. f_equal. lia.
  - intros Hg. by apply Hbad, Hg2.
Qed.

(** ** What a command leaves untouched *)

Lemma sendAll_frame (b : bytes) (w : World) :
  fs (sendAll b w).2 = fs w ∧ disk_free (sendAll b w).2 = disk_free w
  ∧ closed (sendAll b w).2 = closed w.
Proof.
  unfold sendAll. destruct (send_room w); [|done].
  by destruct (_ <=? _)%nat.
Qed.

Lemma send_err_frame (msg : string) (w : World) :
  fs (send_err msg w) = fs w ∧ disk_free (send_err msg w) = disk_free w
  ∧ closed (send_err msg w) = closed w ∧ inp (send_err msg w) = inp w.
Proof.
  unfold send_err, sendLine.
  pose proof (sendAll_frame (str "ERR" ++ [NL]) w) as (F1 & D1 & C1).
  pose proof (sendAll_inp (str "ERR" ++ [NL]) w) as I1.
  destruct (sendAll (str "ERR" ++ [NL]) w) as [n1 w1]. simpl in *.
  pose proof (sendAll_frame (str msg ++ [NL]) w1) as (F2 & D2 & C2).
  pose proof (sendAll_inp (str msg ++ [NL]) w1) as I2.
  destruct (sendAll (str msg ++ [NL]) w1) as [n2 w2]. simpl in *.
  repeat split; congruence.
Qed.

Lemma drain_frame (fuel : nat) (n : N) (w : World) :
  out (drain fuel n w) = out w ∧ send_room (drain fuel n w) = send_room w.
Proof.
  revert n w. induction fuel as [|fuel IH]; intros n w; [done|].
  cbn [drain]. destruct (0 <? n)%N; [|done].
  destruct (recvExact _ _ _) as [[got data] rest].
  destruct (got <=? 0)%Z; [done|].
  destruct (IH (n - Z.to_N got)%N (set_inp rest w)) as [-> ->]. done.
Qed.

Lemma recv_to_file_frame (fuel : nat) (name : bytes) (n : N) (w : World) :
  out (recv_to_file fuel name n w).2 = out w
  ∧ send_room (recv_to_file fuel name n w).2 = send_room w.
Proof.
  revert n w. induction fuel as [|fuel IH]; intros n w; [done|].
  cbn [recv_to_file]. destruct (0 <? n)%N; [|done].
  destruct (recvExact _ _ _) as [[got data] rest].
  destruct (got <=? 0)%Z; [done|].
  unfold ofs_write.
  destruct (_ <=? _)%N; [| destruct (N.of_nat _ <? _)%N; [|done]];
    cbn [negb];
    match goal with |- context [recv_to_file fuel name ?m ?v] =>
      destruct (IH m v) as [-> ->] end;
    done.
Qed.

(** ** The responses of the three commands *)

Lemma do_PUT_unsafe (filename : bytes) (w : World) :
  isSafeFilename filename = false →
  do_PUT filename w = (send_err "Invalid filename" w, Continue).
Proof. intros H. unfold do_PUT. by rewrite H. Qed.

Lemma do_PUT_bad_size (filename sizeLine : bytes) (rest : list recv_event)
    (w : World) :
  isSafeFilename filename = true →
  readLine (inp w) = (true, sizeLine, rest) →
  stoull sizeLine = None →
  do_PUT filename w
  = (send_err "Invalid size header" (set_inp rest w), Continue).
Proof. intros Hs Hr Hn. unfold do_PUT. by rewrite Hs, Hr, Hn. Qed.

(** What the system does not refuse can be looked up. *)
Lemma resolve_Some (m : gmap bytes entry) (name : bytes) (e : entry) :
  resolve m name = Some e → os_rejects name = false.
Proof. unfold resolve. by destruct (os_rejects name). Qed.

Lemma fs_exists_Some (m : gmap bytes entry) (name : bytes) (e : entry) :
  resolve m name = Some e → fs_exists m name = Some true.
Proof.
  intros H. unfold fs_exists. by rewrite (resolve_Some _ _ _ H), H.
Qed.

Lemma is_regular_file_Some (m : gmap bytes entry) (name : bytes) (b : bool) :
  is_regular_file m name = Some b →
  os_rejects name = false
  ∧ b = match resolve m name with Some (File _) => true | _ => false end
  ∧ ∃ b', fs_exists m name = Some b'.
Proof.
  unfold is_regular_file, fs_exists.
  destruct (os_rejects name); [done|]. intros [= <-]. eauto.
Qed.

Lemma do_GET_not_found (filename : bytes) (w : World) :
  isSafeFilename filename = true →
  is_regular_file (fs w) filename = Some false →
  do_GET filename w = (send_err "File not found" w, Continue).
Proof.
  intros Hs Hr. unfold do_GET. rewrite Hs, Hr. cbn [negb].
  apply is_regular_file_Some in Hr as (_ & _ & b' & ->). by destruct b'.
Qed.

Lemma do_GET_throws (filename : bytes) (w : World) :
  isSafeFilename filename = true →
  os_rejects filename = true →
  do_GET filename w = (w, Throw).
Proof.
  intros Hs Hr. unfold do_GET, fs_exists. by rewrite Hs, Hr.
Qed.

Lemma do_GET_file (filename content : bytes) (w : World) :
  isSafeFilename filename = true →
  resolve (fs w) filename = Some (File content) →
  send_room w = None →
  do_GET filename w
  = (emit (str "OK" ++ [NL] ++ to_string (N.of_nat (length content)) ++ [NL]
           ++ content) w, Continue).
Proof.
  intros Hs Hr Hroom.
  unfold do_GET, fs_exists, is_regular_file, file_size, ifstream_open.
  rewrite Hs, (resolve_Some _ _ _ Hr), Hr. cbn [negb orb].
  rewrite (sendLine_None _ w) by done. cbn [snd].
  rewrite sendLine_None by done. cbn [snd].
  rewrite send_chunks_None by (done || lia).
  rewrite !emit_emit. by rewrite <- !app_assoc.
Qed.

(** A PUT that goes through: the size parses, the file opens, the stream
    delivers the declared number of bytes and they fit. *)
Lemma do_PUT_stored (filename sizeLine payload : bytes)
    (evs rest : list recv_event) (size : N) (w : World) :
  isSafeFilename filename = true →
  readLine (inp w) = (true, sizeLine, evs) →
  stoull sizeLine = Some size →
  ofstream_open (fs w) filename
  = Some (<[c_str filename := File []]> (fs w)) →
  recvExact evs (N.to_nat size) [] = (Z.of_N size, payload, rest) →
  (size <= disk_free w)%N →
  do_PUT filename w
  = (snd (sendLine (str "OK")
            (mkWorld rest (out w) (send_room w)
                     (<[c_str filename := File payload]> (fs w))
                     (disk_free w - size) (closed w))), Continue).
Proof.
  intros Hs Hr Hn Ho Hx Hd. unfold do_PUT. rewrite Hs, Hr, Hn. cbn [negb].
  cbn [set_inp fs]. rewrite Ho.
  set (w1 := set_fs _ _).
  destruct (recv_to_file_spec filename (S (length (inp w1))) size w1 [])
    as (got & data & r & E & Hok & _); [lia | apply lookup_insert_eq |].
  simpl in E. rewrite Hx in E. injection E as <- <- <-.
  rewrite Hok by (simpl; lia). simpl.
  by rewrite insert_insert_eq.
Qed.

Lemma ofstream_open_Some (m m' : gmap bytes entry) (name : bytes) :
  ofstream_open m name = Some m' →
  m' = <[c_str name := File []]> m ∧ resolve m' name = Some (File []).
Proof.
  unfold ofstream_open, resolve.
  destruct (os_rejects name); [done|].
  destruct (decide _) as [|Hne]; [done|].
  destruct (m !! c_str name) as [[c| | |]|]; intros [= <-];
    by rewrite lookup_insert_eq.
Qed.

Lemma ofstream_open_file (m : gmap bytes entry) (name c : bytes) :
  resolve m name = Some (File c) →
  ofstream_open m name = Some (<[c_str name := File []]> m).
Proof.
  unfold ofstream_open, resolve.
  destruct (os_rejects name); [done|].
  destruct (decide _); [done|].
  by destruct (m !! c_str name) as [[| | |]|].
Qed.

Lemma resolve_insert (m : gmap bytes entry) (name c : bytes) (e : entry) :
  resolve (<[c_str name := e]> m) name = Some (File []) →
  resolve (<[c_str name := File c]> m) name = Some (File c).
Proof.
  unfold resolve. destruct (os_rejects name); [done|].
  destruct (decide _); [done|].
  by rewrite !lookup_insert_eq.
Qed.

(** On success [recvExact] hands over the first [len] bytes the stream
    delivers. *)
Lemma recvExact_delivered (evs : list recv_event) :
  ∀ (len : nat) (buf data : bytes) (got : Z) (rest : list recv_event),
    recvExact evs len buf = (got, data, rest) →
    got ≠ (-1)%Z →
    data = buf ++ take len (delivered evs)
    ∧ got = Z.of_nat (length data) ∧ length data = length buf + len.
Proof.
  induction evs as [|e evs IH]; intros len buf data got rest.
  - destruct len; simpl; intros [= <- <- <-] H; [| done].
    rewrite app_nil_r. auto with lia.
  - destruct len as [|len].
    + simpl. intros [= <- <- <-] _. rewrite app_nil_r. auto with lia.
    + destruct e as [c| |]; cbn [recvExact delivered].
      * intros E Hg. destruct (IH _ _ _ _ _ E Hg) as (Hd & Hg' & Hl).
        rewrite <- app_assoc in Hd. rewrite length_app in Hl. simpl in Hl.
        split; [done|]. split; [done | lia].
      * intros E Hg. apply (IH _ _ _ _ _ E Hg).
      * intros [= <- <- <-] H. done.
Qed.

(** A PUT that is answered with the single line OK went through. *)
Lemma do_PUT_OK_inv (filename : bytes) (w w1 : World) :
  send_room w = None →
  (∀ sizeLine evs size,
     readLine (inp w) = (true, sizeLine, evs) →
     stoull sizeLine = Some size → (size <= disk_free w)%N) →
  do_PUT filename w = (w1, Continue) →
  out w1 = out w ++ str "OK" ++ [NL] →
  ∃ sizeLine evs size payload,
    readLine (inp w) = (true, sizeLine, evs)
    ∧ stoull sizeLine = Some size
    ∧ recvExact evs (N.to_nat size) [] = (Z.of_N size, payload, inp w1)
    ∧ fs w1 = <[c_str filename := File payload]> (fs w)
    ∧ resolve (fs w1) filename = Some (File payload).
Proof.
  intros Hroom Hfit. unfold do_PUT.
  destruct (isSafeFilename filename) eqn:Hs; cbn [negb].
  2:{ intros [= <-]. rewrite send_err_None by done. simpl.
      intros H. apply app_inv_head in H. revert H. differs. }
  destruct (readLine (inp w)) as [[ok sizeLine] evs] eqn:Hr.
  destruct ok; cbn [negb]; [|done].
  destruct (stoull sizeLine) as [size|] eqn:Hn.
  2:{ intros [= <-]. rewrite send_err_None by done. simpl.
      intros H. apply app_inv_head in H. revert H. differs. }
  cbn [set_inp fs].
  destruct (ofstream_open (fs w) filename) as [m|] eqn:Ho.
  2:{ match goal with |- context [drain ?f ?n ?v] =>
        destruct (drain_frame f n v) as [Do _];
        generalize dependent (drain f n v) end.
      intros wd Do [= <-]. rewrite Do, send_err_None by done. simpl.
      intros H. apply app_inv_head in H. revert H. differs. }
  apply ofstream_open_Some in Ho as [-> Hres].
  set (w0 := set_fs _ _).
  destruct (recv_to_file_spec filename (S (length (inp w0))) size w0 [])
    as (got & data & r & E & Hok & Hbad); [lia | apply lookup_insert_eq |].
  pose proof (recv_to_file_frame (S (length (inp w0))) filename size w0)
    as [Fo Fr].
  destruct (recv_to_file _ _ _ _) as [err w2] eqn:Ew2. simpl in Fo, Fr.
  destruct err.
  { intros [= <-]. rewrite send_err_None by (by rewrite Fr). simpl.
    rewrite Fo. simpl.
    intros H. apply app_inv_head in H. revert H. differs. }
  intros [= <-] _.
  assert (got ≠ (-1)%Z) as Hg.
  { intros ->. by specialize (Hbad eq_refl). }
  specialize (Hok Hg (Hfit _ _ _ eq_refl Hn)). injection Hok as ->.
  simpl in E.
  destruct (recvExact_delivered _ _ _ _ _ _ E Hg) as (_ & Hgot & Hlen).
  simpl in Hlen.
  exists sizeLine, evs, size, data.
  split; [done|]. split; [done|].
  rewrite sendLine_inp. simpl.
  replace (Z.of_N size) with got by lia.
  split; [done|].
  pose proof (sendAll_frame (str "OK" ++ [NL])
    (mkWorld r (out w) (send_room w)
       (<[c_str filename:=File data]> (<[c_str filename:=File []]> (fs w)))
       (disk_free w - size) (closed w))) as (Ff & _).
  unfold sendLine. destruct (sendAll _ _) as [k w3]. simpl in Ff |- *.
  rewrite Ff, insert_insert_eq. split; [done|].
  by apply (resolve_insert _ _ _ (File [])).
Qed.

(** ** The protocol properties *)

(** C8. A PUT whose filename holds a path separator or two dots in a row
    changes nothing in the served directory, whatever the peer does, and is
    answered with the lines ERR and "Invalid filename". *)
Theorem put_unsafe_name_rejected (filename : bytes) (w : World) :
  ("/" ∈ filename) ∨ (BACKSLASH ∈ filename) ∨ contains (str "..") filename →
  fs (serve_line (str "PUT " ++ filename) w).1 = fs w
  ∧ disk_free (serve_line (str "PUT " ++ filename) w).1 = disk_free w
  ∧ (send_room w = None →
     serve_line (str "PUT " ++ filename) w
     = (emit (err_response "Invalid filename") w, Continue)).
Proof.
  intros H. rewrite serve_line_PUT, do_PUT_unsafe
    by (apply isSafeFilename_false; tauto).
  destruct (send_err_frame "Invalid filename" w) as (Hf & Hd & _).
  split; [done|]. split; [done|].
  intros Hroom. by rewrite send_err_None.
Qed.

Lemma put_unsafe_name_rejected_witness :
  fs (serve_line (str "PUT ../etc/passwd") (accepted (wire (str "0" ++ [NL])) ∅)).1
  = ∅
  ∧ serve_line (str "PUT ../etc/passwd") (accepted (wire (str "0" ++ [NL])) ∅)
    = (emit (err_response "Invalid filename")
            (accepted (wire (str "0" ++ [NL])) ∅), Continue).
Proof.
  destruct (put_unsafe_name_rejected (str "../etc/passwd")
              (accepted (wire (str "0" ++ [NL])) ∅)) as (Hf & _ & Hr).
  - left. vm_compute. repeat constructor.
  - split; [exact Hf | by apply Hr].
Defined.

(** C2, on the stream [PUT ../x], [3], then the payload [abc] followed at
    once by the command [LIST]: after the rejection nothing is drained. The
    stream is left at the size line, which is read as the next command, and
    so is the payload with the LIST behind it; the LIST is never served. *)
Theorem put_rejected_size_line_read_as_command :
  step (accepted (wire (str "PUT ../x" ++ NL :: str "3" ++ NL
                       :: str "abcLIST" ++ [NL])) ∅)
  = (emit (err_response "Invalid filename")
       (accepted (wire (str "3" ++ NL :: str "abcLIST" ++ [NL])) ∅), Continue)
  ∧ (λ r, out r.1) <$>
      handle_client (accepted (wire (str "PUT ../x" ++ NL :: str "3" ++ NL
                                    :: str "abcLIST" ++ [NL])) ∅)
    = Some (err_response "Invalid filename" ++ err_response "Unknown command"
            ++ err_response "Unknown command").
Proof. split; vm_compute; reflexivity. Qed.

(** C6, as the code has it. A PUT with a safe filename whose size line
    [std::stoull] rejects (after leading white space and one optional sign
    the line does not go on with a decimal digit, or its digits give a
    value above [ULLONG_MAX]; see [stoull_None]) is answered with ERR and
    "Invalid size header"; the stream is left right after the size line,
    the served directory is as before, and the loop goes on. *)
Theorem put_unparsable_size (filename sizeLine : bytes)
    (rest : list recv_event) (w : World) :
  isSafeFilename filename = true →
  readLine (inp w) = (true, sizeLine, rest) →
  stoull sizeLine = None →
  send_room w = None →
  serve_line (str "PUT " ++ filename) w
  = (emit (err_response "Invalid size header") (set_inp rest w), Continue)
  ∧ inp (serve_line (str "PUT " ++ filename) w).1 = rest
  ∧ fs (serve_line (str "PUT " ++ filename) w).1 = fs w
  ∧ disk_free (serve_line (str "PUT " ++ filename) w).1 = disk_free w.
Proof.
  intros Hs Hr Hn Hroom.
  rewrite serve_line_PUT, (do_PUT_bad_size _ _ _ _ Hs Hr Hn).
  by rewrite send_err_None.
Qed.

Lemma put_unparsable_size_witness :
  serve_line (str "PUT a.txt")
    (accepted (wire (str "ten" ++ NL :: str "LIST" ++ [NL])) ∅)
  = (emit (err_response "Invalid size header")
       (accepted (wire (str "LIST" ++ [NL])) ∅), Continue).
Proof.
  apply (put_unparsable_size (str "a.txt") (str "ten")
           (wire (str "LIST" ++ [NL]))
           (accepted (wire (str "ten" ++ NL :: str "LIST" ++ [NL])) ∅));
    reflexivity.
Defined.

(** C6, where the claim fails: the size line [12abc] is not a decimal
    number, yet [std::stoull] reads it as 12; the file is created, the next
    12 bytes of the stream are stored in it, and the answer is OK. *)
Lemma put_size_with_trailing_text_accepted :
  spec_decimal_number (str "12abc") = false
  ∧ stoull (str "12abc") = Some 12%N
  ∧ serve_line (str "PUT a.txt")
      (accepted (wire (str "12abc" ++ NL :: str "hello world!LIST" ++ [NL])) ∅)
    = (mkWorld (wire (str "LIST" ++ [NL])) (str "OK" ++ [NL]) None
               {[ str "a.txt" := File (str "hello world!") ]} 999988 false,
       Continue).
Proof. repeat split; vm_compute; reflexivity. Qed.

(** C5, at a GET whose name passes the guard and is longer than the system
    allows (300 bytes): [fs::exists] throws, nothing is sent, neither the
    lines ERR and "File not found" nor anything else, and the exception
    leaves [handle_client] with the LIST that follows unread. *)
Theorem get_name_too_long_unanswered :
  isSafeFilename (replicate 300 "a") = true
  ∧ fs_exists ∅ (replicate 300 "a") = None
  ∧ step (accepted (wire (str "GET " ++ replicate 300 "a" ++ NL
                          :: str "LIST" ++ [NL])) ∅)
    = (accepted (wire (str "LIST" ++ [NL])) ∅, Throw)
  ∧ (λ r, (out r.1, inp r.1, r.2)) <$>
      handle_client (accepted (wire (str "GET " ++ replicate 300 "a" ++ NL
                                     :: str "LIST" ++ [NL])) ∅)
    = Some ([], wire (str "LIST" ++ [NL]), ExitThrow).
Proof. repeat split; vm_compute; reflexivity. Qed.

(** C9, at a name the system refuses: a GET whose name passes the guard
    and is refused ends [handle_client] by the exception of [fs::exists];
    the [close] after the loop is not reached, so the connection is left as
    it was, and nothing is sent. *)
Theorem handle_client_exception_skips_close (filename : bytes)
    (rest : list recv_event) (w : World) :
  isSafeFilename filename = true →
  os_rejects filename = true →
  readLine (inp w) = (true, str "GET " ++ filename, rest) →
  handle_client w = Some (set_inp rest w, ExitThrow)
  ∧ closed (set_inp rest w) = closed w
  ∧ out (set_inp rest w) = out w.
Proof.
  intros Hs Ho Hr. split; [|done].
  apply handle_client_throw. unfold step. rewrite Hr. cbn [negb].
  by rewrite serve_line_GET, do_GET_throws.
Qed.

Lemma handle_client_exception_skips_close_witness :
  handle_client (accepted (wire (str "GET " ++ replicate 300 "a" ++ [NL])) ∅)
  = Some (accepted [] ∅, ExitThrow)
  ∧ closed (accepted [] ∅) = false.
Proof.
  destruct (handle_client_exception_skips_close (replicate 300 "a") []
              (accepted (wire (str "GET " ++ replicate 300 "a" ++ [NL])) ∅))
    as (H & _ & _); [vm_compute; reflexivity ..|].
  split; [exact H | reflexivity].
Defined.

(** X27. A GET whose filename passes the guard and is accepted by the
    system but names no regular file of the served directory is answered
    with the lines ERR and "File not found" and nothing more; the
    connection stays open and the loop goes on with the next line of the
    stream. *)
Theorem get_missing_file (filename : bytes) (rest : list recv_event)
    (w : World) :
  isSafeFilename filename = true →
  is_regular_file (fs w) filename = Some false →
  send_room w = None →
  readLine (inp w) = (true, str "GET " ++ filename, rest) →
  step w = (emit (err_response "File not found") (set_inp rest w), Continue)
  ∧ closed (emit (err_response "File not found") (set_inp rest w)) = closed w
  ∧ fs (emit (err_response "File not found") (set_inp rest w)) = fs w
  ∧ handle_client w
    = handle_client (emit (err_response "File not found") (set_inp rest w)).
Proof.
  intros Hs Hf Hroom Hr.
  assert (step w
          = (emit (err_response "File not found") (set_inp rest w), Continue))
    as E.
  { unfold step. rewrite Hr. cbn [negb].
    rewrite serve_line_GET, do_GET_not_found by done.
    by rewrite send_err_None. }
  split; [done|]. split; [done|]. split; [done|].
  by apply handle_client_continue.
Qed.

Lemma get_missing_file_witness :
  step (accepted (wire (str "GET missing.txt" ++ NL :: str "LIST" ++ [NL])) ∅)
  = (emit (err_response "File not found")
       (accepted (wire (str "LIST" ++ [NL])) ∅), Continue)
  ∧ (λ r, out r.1) <$>
      handle_client
        (accepted (wire (str "GET missing.txt" ++ NL :: str "LIST" ++ [NL])) ∅)
    = Some (err_response "File not found" ++ str "OK" ++ NL :: str "0" ++ [NL]).
Proof.
  destruct (get_missing_file (str "missing.txt") (wire (str "LIST" ++ [NL]))
              (accepted (wire (str "GET missing.txt" ++ NL :: str "LIST"
                              ++ [NL])) ∅))
    as (Hstep & _ & _ & Hloop); try reflexivity.
  split; [exact Hstep|]. rewrite Hloop. reflexivity.
Defined.

(** C4. A PUT with a safe filename and the size line [0], when the file
    can be created, reads nothing after the size line, writes nothing,
    leaves an empty file under that name and answers OK; a GET of an empty
    regular file is answered with the lines OK and [0] and no byte more. *)
Theorem put_zero_and_get_empty (filename : bytes) (rest : list recv_event)
    (w w2 : World) :
  isSafeFilename filename = true →
  readLine (inp w) = (true, str "0", rest) →
  ofstream_open (fs w) filename ≠ None →
  send_room w = None →
  resolve (fs w2) filename = Some (File []) →
  send_room w2 = None →
  serve_line (str "PUT " ++ filename) w
  = (mkWorld rest (out w ++ str "OK" ++ [NL]) None
             (<[c_str filename := File []]> (fs w)) (disk_free w) (closed w),
     Continue)
  ∧ serve_line (str "GET " ++ filename) w2
    = (emit (str "OK" ++ [NL] ++ str "0" ++ [NL]) w2, Continue).
Proof.
  intros Hs Hr Ho Hroom Hres Hroom2. split.
  - destruct (ofstream_open (fs w) filename) as [m|] eqn:Hm; [|done].
    pose proof (ofstream_open_Some _ _ _ Hm) as [-> _].
    rewrite serve_line_PUT.
    rewrite (do_PUT_stored filename (str "0") [] rest rest 0 w);
      try done; [| by destruct rest | lia].
    rewrite sendLine_None by done. unfold emit. simpl.
    by rewrite N.sub_0_r, Hroom.
  - by rewrite serve_line_GET, (do_GET_file _ [] w2) by done.
Qed.

Lemma put_zero_and_get_empty_witness :
  serve_line (str "PUT e.txt") (accepted (wire (str "0" ++ NL :: str "QUIT")) ∅)
  = (mkWorld (wire (str "QUIT")) (str "OK" ++ [NL]) None
             {[ str "e.txt" := File [] ]} 1000000 false, Continue)
  ∧ serve_line (str "GET e.txt") (accepted [] {[ str "e.txt" := File [] ]})
    = (emit (str "OK" ++ [NL] ++ str "0" ++ [NL])
            (accepted [] {[ str "e.txt" := File [] ]}), Continue).
Proof.
  apply (put_zero_and_get_empty (str "e.txt") (wire (str "QUIT"))
           (accepted (wire (str "0" ++ NL :: str "QUIT")) ∅)
           (accepted [] {[ str "e.txt" := File [] ]}));
    try reflexivity.
  vm_compute. discriminate.
Defined.

(** C7. When the volume has room for the size the size line declares and
    a PUT of [filename] is answered OK, the bytes taken off the stream
    after the size line are exactly as many as the size line declares, and
    a GET of the same name on a connection that sees the directory as that
    PUT left it is answered with OK, that number, and those very bytes. *)
Theorem put_then_get_roundtrip (filename : bytes) (w w1 w2 : World) :
  send_room w = None →
  (∀ sizeLine evs size,
     readLine (inp w) = (true, sizeLine, evs) →
     stoull sizeLine = Some size → (size <= disk_free w)%N) →
  serve_line (str "PUT " ++ filename) w = (w1, Continue) →
  out w1 = out w ++ str "OK" ++ [NL] →
  fs w2 = fs w1 →
  send_room w2 = None →
  ∃ (sizeLine payload : bytes) (evs : list recv_event) (size : N),
    readLine (inp w) = (true, sizeLine, evs)
    ∧ stoull sizeLine = Some size
    ∧ recvExact evs (N.to_nat size) [] = (Z.of_N size, payload, inp w1)
    ∧ payload = take (N.to_nat size) (delivered evs)
    ∧ N.of_nat (length payload) = size
    ∧ serve_line (str "GET " ++ filename) w2
      = (emit (str "OK" ++ [NL] ++ to_string size ++ [NL] ++ payload) w2,
         Continue).
Proof.
  intros Hroom Hfit Hput Hok Hfs Hroom2.
  rewrite serve_line_PUT in Hput.
  destruct (do_PUT_OK_inv _ _ _ Hroom Hfit Hput Hok)
    as (sizeLine & evs & size & payload & Hr & Hn & Hx & _ & Hres).
  assert (isSafeFilename filename = true) as Hs.
  { destruct (isSafeFilename filename) eqn:E; [done|].
    rewrite do_PUT_unsafe in Hput by done. injection Hput as <-.
    rewrite send_err_None in Hok by done. simpl in Hok.
    apply app_inv_head in Hok. revert Hok. differs. }
  destruct (recvExact_delivered _ _ _ _ _ _ Hx) as (Hp & _ & Hl); [lia|].
  simpl in Hp, Hl.
  exists sizeLine, payload, evs, size.
  split; [done|]. split; [done|]. split; [done|]. split; [done|].
  split; [lia|].
  rewrite <- Hfs in Hres.
  rewrite serve_line_GET, (do_GET_file _ payload w2) by done.
  by replace (N.of_nat (length payload)) with size by lia.
Qed.

Lemma put_then_get_roundtrip_witness :
  ∃ (sizeLine payload : bytes) (evs : list recv_event) (size : N),
    readLine (wire (str "3" ++ NL :: str "abcQUIT" ++ [NL]))
    = (true, sizeLine, evs)
    ∧ stoull sizeLine = Some size
    ∧ recvExact evs (N.to_nat size) []
      = (Z.of_N size, payload, wire (str "QUIT" ++ [NL]))
    ∧ payload = take (N.to_nat size) (delivered evs)
    ∧ N.of_nat (length payload) = size
    ∧ serve_line (str "GET f")
        (accepted (wire (str "QUIT" ++ [NL])) {[ str "f" := File (str "abc") ]})
      = (emit (str "OK" ++ [NL] ++ to_string size ++ [NL] ++ payload)
           (accepted (wire (str "QUIT" ++ [NL]))
                    {[ str "f" := File (str "abc") ]}), Continue).
Proof.
  apply (put_then_get_roundtrip (str "f")
           (accepted (wire (str "3" ++ NL :: str "abcQUIT" ++ [NL])) ∅)
           (mkWorld (wire (str "QUIT" ++ [NL])) (str "OK" ++ [NL]) None
                    {[ str "f" := File (str "abc") ]} 999997 false)
           (accepted (wire (str "QUIT" ++ [NL]))
                    {[ str "f" := File (str "abc") ]}));
    try reflexivity.
  intros sizeLine evs size [= <- <-] [= <-]. vm_compute. discriminate.
Defined.

(** ** Dispatch by prefix *)

Lemma do_LIST_None (w : World) :
  send_room w = None →
  do_LIST w
  = (emit (str "OK" ++ [NL]
           ++ to_string (N.of_nat (length (listing_of (fs w)))) ++ [NL]
           ++ listing_of (fs w)) w, Continue).
Proof.
  intros Hroom. unfold do_LIST.
  rewrite (sendLine_None _ w) by done. cbn [negb].
  rewrite sendLine_None by done. cbn [negb].
  rewrite emit_emit. case_bool_decide as Hl; cbn [negb].
  - by rewrite Hl.
  - rewrite sendAll_None by done.
    replace (Z.of_nat (length (listing_of (fs w))) <? 0)%Z with false
      by (symmetry; apply Z.ltb_ge; lia).
    rewrite emit_emit. by rewrite <- !app_assoc.
Qed.

(** No response of LIST, GET or PUT is the "Unknown command" response. *)
Lemma do_LIST_known (w : World) :
  send_room w = None →
  ∃ resp, out (do_LIST w).1 = out w ++ resp
          ∧ resp ≠ err_response "Unknown command".
Proof.
  intros Hroom. rewrite do_LIST_None by done.
  eexists. split; [reflexivity | differs].
Qed.

Lemma do_GET_known (filename : bytes) (w : World) :
  send_room w = None →
  ∃ resp, out (do_GET filename w).1 = out w ++ resp
          ∧ resp ≠ err_response "Unknown command".
Proof.
  intros Hroom. unfold do_GET.
  destruct (isSafeFilename filename) eqn:Hs; cbn [negb].
  2:{ rewrite send_err_None by done. eexists.
      split; [reflexivity | differs]. }
  destruct (fs_exists _ _) as [[|]|].
  2:{ rewrite send_err_None by done. eexists.
      split; [reflexivity | differs]. }
  2:{ exists []. split; [simpl; by rewrite app_nil_r | differs]. }
  destruct (is_regular_file _ _) as [[|]|].
  2:{ rewrite send_err_None by done. eexists.
      split; [reflexivity | differs]. }
  2:{ exists []. split; [simpl; by rewrite app_nil_r | differs]. }
  destruct (ifstream_open (fs w) filename) as [content|] eqn:Hi.
  2:{ rewrite send_err_None by done. eexists.
      split; [reflexivity | differs]. }
  rewrite (sendLine_None _ w) by done. cbn [snd].
  rewrite sendLine_None by done. cbn [snd fst].
  rewrite send_chunks_None by (done || lia).
  rewrite !emit_emit. eexists. split; [reflexivity | differs].
Qed.

Lemma do_PUT_known (filename : bytes) (w : World) :
  send_room w = None →
  ∃ resp, out (do_PUT filename w).1 = out w ++ resp
          ∧ resp ≠ err_response "Unknown command".
Proof.
  intros Hroom. unfold do_PUT.
  destruct (isSafeFilename filename) eqn:Hs; cbn [negb].
  2:{ rewrite send_err_None by done. eexists.
      split; [reflexivity | differs]. }
  destruct (readLine (inp w)) as [[ok sizeLine] evs] eqn:Hr.
  destruct ok; cbn [negb].
  2:{ exists []. split; [simpl; by rewrite app_nil_r | differs]. }
  destruct (stoull sizeLine) as [size|] eqn:Hn.
  2:{ rewrite send_err_None by done. eexists.
      split; [reflexivity | differs]. }
  destruct (ofstream_open _ _) as [m|] eqn:Ho.
  - match goal with |- context [recv_to_file ?f ?a ?n ?v] =>
      destruct (recv_to_file_frame f a n v) as [Fo Fr];
      destruct (recv_to_file f a n v) as [err w2] end.
    simpl in Fo, Fr. destruct err.
    + rewrite send_err_None by (by rewrite Fr). cbn [fst emit out].
      rewrite Fo. eexists. split; [reflexivity | differs].
    + rewrite sendLine_None by (by rewrite Fr). cbn [fst snd emit out].
      rewrite Fo. eexists. split; [reflexivity | differs].
  - cbn [fst].
    match goal with |- context [drain ?f ?n ?v] =>
      destruct (drain_frame f n v) as [-> _] end.
    rewrite send_err_None by done. eexists.
    split; [reflexivity | differs].
Qed.

(** C10. The dispatch is by prefix: a line that begins with LIST is served
    as LIST whatever follows, a line that begins with QUIT leaves the loop,
    and the "Unknown command" response is given to the lines that begin
    with none of LIST, "GET ", "PUT " and QUIT, and to no other line. *)
Theorem dispatch_by_prefix (line : bytes) (w : World) :
  (starts_with (str "LIST") line = true → serve_line line w = do_LIST w)
  ∧ (starts_with (str "QUIT") line = true →
     serve_line line w = (w, Break ExitQuit))
  ∧ (send_room w = None →
     (serve_line line w
      = (emit (err_response "Unknown command") w, Continue)
      ↔ starts_with (str "LIST") line = false
        ∧ starts_with (str "GET ") line = false
        ∧ starts_with (str "PUT ") line = false
        ∧ starts_with (str "QUIT") line = false)).
Proof.
  split; [| split].
  - intros H. by rewrite serve_line_unfold, H.
  - apply serve_line_QUIT.
  - intros Hroom. rewrite serve_line_unfold. split.
    + intros E.
      assert (∀ h : World * status,
                (∃ resp, out h.1 = out w ++ resp
                         ∧ resp ≠ err_response "Unknown command") →
                h ≠ (emit (err_response "Unknown command") w, Continue))
        as Hne.
      { intros h (resp & Ho & Hd) ->. simpl in Ho.
        by apply app_inv_head in Ho. }
      destruct (starts_with (str "LIST") line).
      { by apply Hne in E; [| apply do_LIST_known]. }
      destruct (starts_with (str "GET ") line).
      { by apply Hne in E; [| apply do_GET_known]. }
      destruct (starts_with (str "PUT ") line).
      { by apply Hne in E; [| apply do_PUT_known]. }
      destruct (starts_with (str "QUIT") line); [done | done].
    + intros (-> & -> & -> & ->). by rewrite send_err_None.
Qed.

Lemma dispatch_by_prefix_witness :
  serve_line (str "LISTX") (accepted [] ∅) = do_LIST (accepted [] ∅)
  ∧ serve_line (str "QUITE") (accepted [] ∅) = (accepted [] ∅, Break ExitQuit)
  ∧ serve_line (str "list") (accepted [] ∅)
    = (emit (err_response "Unknown command") (accepted [] ∅), Continue).
Proof.
  split; [| split].
  - by apply (dispatch_by_prefix (str "LISTX") (accepted [] ∅)).
  - by apply (dispatch_by_prefix (str "QUITE") (accepted [] ∅)).
  - by apply (dispatch_by_prefix (str "list") (accepted [] ∅)).
Defined.

Lemma handle_client_ends_witness :
  (∃ w' r, handle_client (accepted (wire (str "QUITE" ++ NL :: str "LIST")) ∅)
           = Some (w', r) ∧ (r ≠ ExitThrow → closed w' = true))
  ∧ handle_client (accepted (wire (str "QUITE" ++ NL :: str "LIST")) ∅)
    = Some (close (accepted (wire (str "LIST")) ∅), ExitQuit).
Proof.
  destruct (handle_client_ends
              (accepted (wire (str "QUITE" ++ NL :: str "LIST")) ∅))
    as [Hc Hq].
  split; [exact Hc|].
  by destruct (Hq (str "QUITE") (wire (str "LIST"))).
Defined.

(** A rejected PUT takes nothing off the stream beyond its own line. *)
Lemma put_unsafe_leaves_stream (filename : bytes) (w : World) :
  isSafeFilename filename = false →
  inp (serve_line (str "PUT " ++ filename) w).1 = inp w.
Proof.
  intros H. rewrite serve_line_PUT, do_PUT_unsafe by done.
  apply send_err_frame.
Qed.

(** ** Worked sessions *)

(** The three ways out of the loop by [break]. *)
Example exit_on_eof :
  snd <$> handle_client (accepted (wire (str "LIST")) ∅) = Some ExitRead.
Proof. reflexivity. Qed.

Example exit_on_failed_send :
  snd <$> handle_client
            (mkWorld (wire (str "LIST" ++ NL :: str "LIST" ++ [NL])) []
                     (Some 1) ∅ 0 false)
  = Some ExitSend.
Proof. reflexivity. Qed.

Example exit_on_quit :
  snd <$> handle_client (accepted (wire (str "QUIT" ++ NL :: str "LIST")) ∅)
  = Some ExitQuit.
Proof. reflexivity. Qed.

(** A name is cut at its first NUL byte on the way to the system, after
    the guard has looked at all of it: the GET of ["a"], NUL, ["b"] is
    answered with the file ["a"]. *)
Example get_name_with_nul :
  isSafeFilename (str "a" ++ NUL :: str "b") = true
  ∧ serve_line (str "GET a" ++ NUL :: str "b")
      (accepted [] {[ str "a" := File (str "secret") ]})
    = (emit (get_response (str "secret"))
         (accepted [] {[ str "a" := File (str "secret") ]}), Continue).
Proof. split; reflexivity. Qed.

(** The same holds for PUT: the upload named ["a"], NUL, ["b"] replaces
    the file ["a"]. *)
Example put_name_with_nul :
  fs (serve_line (str "PUT a" ++ NUL :: str "b")
        (accepted (wire (str "2" ++ NL :: str "xy"))
                  {[ str "a" := File (str "old") ]})).1
  = {[ str "a" := File (str "xy") ]}.
Proof. reflexivity. Qed.

(** The sibling path of C2: when the file cannot be created, the declared
    bytes are drained and the next line is the next command. *)
Example drain_after_failed_create :
  (λ r, out r.1) <$>
    handle_client (accepted (wire (str "PUT ." ++ NL :: str "3" ++ NL
                                  :: str "abcQUIT" ++ [NL])) ∅)
  = Some (err_response "Failed to create file").
Proof. reflexivity. Qed.

(** [std::stoull] takes the digits it finds and ignores what follows. *)
Example stoull_examples :
  stoull (str "12abc") = Some 12%N ∧ stoull (str " +7") = Some 7%N
  ∧ stoull (str "ten") = None ∧ stoull [] = None
  ∧ stoull (str "18446744073709551616") = None.
Proof. repeat split. Qed.

(** * Further properties of the framing layer *)

(** ** Sending to a peer that may stop taking bytes *)

Lemma sendAll_push (b : bytes) (w : World) :
  sendAll b w
  = (if has_room (send_room w) (length b) then Z.of_nat (length b)
     else (-1)%Z, push b w).
Proof.
  unfold sendAll, push, has_room, accepted_prefix, room_after.
  destruct (send_room w) as [r|]; [|done].
  destruct (length b <=? r)%nat eqn:E.
  - apply Nat.leb_le in E. by rewrite take_ge by lia.
  - apply Nat.leb_gt in E. by replace (r - length b) with 0 by lia.
Qed.

Lemma push_push (a b : bytes) (w : World) :
  push b (push a w) = push (a ++ b) w.
Proof.
  unfold push, accepted_prefix, room_after. simpl.
  destruct (send_room w) as [r|]; simpl.
  - rewrite take_app, length_app, <- app_assoc.
    by replace (r - (length a + length b)) with (r - length a - length b)
      by lia.
  - by rewrite <- app_assoc.
Qed.

Lemma push_nil (w : World) : push [] w = w.
Proof.
  destruct w as [i o r m d c]. unfold push, accepted_prefix, room_after.
  simpl. destruct r as [r|]; simpl; rewrite ?take_nil, app_nil_r;
    [by rewrite Nat.sub_0_r | done].
Qed.

(** Once a send has failed, later sends add nothing. *)
Lemma push_short (a b : bytes) (w : World) :
  has_room (send_room w) (length a) = false →
  push (a ++ b) w = push a w
  ∧ has_room (send_room w) (length (a ++ b)) = false.
Proof.
  unfold push, has_room, accepted_prefix, room_after.
  destruct (send_room w) as [r|]; [|done].
  intros E. apply Nat.leb_gt in E. rewrite length_app. split.
  - rewrite take_app_le by lia.
    by replace (r - (length a + length b)) with (r - length a) by lia.
  - apply Nat.leb_gt. lia.
Qed.

Lemma has_room_app (a b : bytes) (w : World) :
  has_room (send_room w) (length (a ++ b))
  = has_room (send_room w) (length a)
    && has_room (send_room (push a w)) (length b).
Proof.
  unfold push, has_room, room_after. rewrite length_app.
  destruct (send_room w) as [r|]; simpl; [|done].
  destruct (length a <=? r)%nat eqn:E1; simpl.
  - apply Nat.leb_le in E1.
    destruct (length b <=? r - length a)%nat eqn:E2.
    + apply Nat.leb_le in E2. apply Nat.leb_le. lia.
    + apply Nat.leb_gt in E2. apply Nat.leb_gt. lia.
  - apply Nat.leb_gt in E1. apply Nat.leb_gt. lia.
Qed.

Lemma sendLine_push (l : bytes) (w : World) :
  sendLine l w
  = (has_room (send_room w) (length (l ++ [NL])), push (l ++ [NL]) w).
Proof.
  unfold sendLine. rewrite sendAll_push.
  destruct (has_room _ _); f_equal.
  - by apply bool_decide_eq_true_2.
  - apply bool_decide_eq_false_2. lia.
Qed.

Lemma send_err_push (msg : string) (w : World) :
  send_err msg w = push (err_response msg) w.
Proof.
  unfold send_err, err_response. rewrite !sendLine_push. cbn [snd].
  by rewrite push_push, <- !app_assoc.
Qed.

Lemma send_chunks_push (fuel : nat) (content : bytes) (w : World) :
  length content < fuel → send_chunks fuel content w = push content w.
Proof.
  revert content w. induction fuel as [|fuel IH]; intros content w Hf; [lia|].
  cbn [send_chunks].
  set (k := N.to_nat BUFFER_SIZE).
  assert (0 < k) as Hk by (subst k; unfold BUFFER_SIZE; lia).
  clearbody k.
  destruct (decide (length content < k)) as [Hlt|Hge].
  - rewrite take_ge by lia.
    destruct content as [|c content].
    + rewrite push_nil. destruct k; [lia | done].
    + replace (0 <? length (c :: content))%nat with true
        by (symmetry; apply Nat.ltb_lt; simpl; lia).
      rewrite sendAll_push.
      replace (length (c :: content) =? k)%nat with false
        by (symmetry; apply Nat.eqb_neq; lia).
      by destruct (_ <? 0)%Z.
  - rewrite length_take, Nat.min_l by lia.
    replace (0 <? k)%nat with true by (symmetry; apply Nat.ltb_lt; lia).
    rewrite sendAll_push, Nat.eqb_refl.
    replace (push content w)
      with (push (take k content ++ drop k content) w)
      by (by rewrite take_drop).
    destruct (has_room (send_room w) (length (take k content))) eqn:Hroom.
    + replace (Z.of_nat (length (take k content)) <? 0)%Z with false
        by (symmetry; apply Z.ltb_ge; lia).
      rewrite IH by (rewrite length_drop; lia). apply push_push.
    + simpl. symmetry. by apply push_short.
Qed.

(** ** The loop of [sendAll] *)

Lemma sendAll_calls_spec (calls : list send_event) :
  ∀ pending gone : bytes,
    ∃ (taken : bytes) (rest : list send_event),
      taken `prefix_of` pending
      ∧ sendAll_calls calls pending gone
        = (if decide (taken = pending)
           then Z.of_nat (length (gone ++ pending)) else (-1)%Z,
           gone ++ taken, rest).
Proof.
  induction calls as [|e calls IH]; intros pending gone.
  - destruct pending as [|c p]; exists [], []; (split; [apply prefix_nil|]).
    + simpl. by rewrite !app_nil_r.
    + simpl. by rewrite app_nil_r.
  - destruct pending as [|c p].
    { exists [], (e :: calls). split; [done|]. simpl. by rewrite !app_nil_r. }
    destruct e as [n| |].
    + cbn [sendAll_calls]. destruct (n =? 0)%nat.
      { exists [], calls. split; [apply prefix_nil|]. simpl.
        by rewrite app_nil_r. }
      destruct (IH (drop n (c :: p)) (gone ++ take n (c :: p)))
        as (taken & rest & Hp & ->).
      exists (take n (c :: p) ++ taken), rest. split.
      * rewrite <- (take_drop n (c :: p)) at 2. by apply prefix_app.
      * rewrite <- !app_assoc, take_drop.
        destruct (decide (taken = drop n (c :: p))) as [->|Hne].
        -- by rewrite take_drop, decide_True.
        -- rewrite decide_False; [done|].
           rewrite <- (take_drop n (c :: p)) at 2.
           intros H. by apply app_inv_head in H.
    + cbn [sendAll_calls]. apply IH.
    + exists [], calls. split; [apply prefix_nil|]. simpl.
      by rewrite app_nil_r.
Qed.

(** X2. [sendAll] over any run of [send] outcomes is all or nothing in what
    it reports: it returns [len] exactly when every byte was taken, in one
    call or in several partial ones with the interrupted calls retried,
    and [-1] otherwise, when a proper head of the buffer has gone out; it
    never returns a short count. [sendLine] is true exactly when the line
    and its line feed went out whole. The outcome is the one [sendAll]
    above gives for a peer that takes as many bytes as went out. *)
Theorem sendAll_all_or_fail (calls : list send_event) (buf line : bytes) :
  (∃ taken rest,
     sendAll_calls calls buf []
     = (if decide (taken = buf) then Z.of_nat (length buf) else (-1)%Z,
        taken, rest)
     ∧ taken `prefix_of` buf
     ∧ ∀ w : World,
         send_room w = (if decide (taken = buf) then None
                        else Some (length taken)) →
         (sendAll buf w).1 = (sendAll_calls calls buf []).1.1
         ∧ out (sendAll buf w).2 = out w ++ taken)
  ∧ ((sendLine_calls calls line).1.1 = true
     ↔ (sendLine_calls calls line).1.2 = line ++ [NL]).
Proof.
  split.
  - destruct (sendAll_calls_spec calls buf []) as (taken & rest & Hp & E).
    exists taken, rest. rewrite E. cbn [app fst snd]. split; [done|].
    split; [done|]. intros w Hw. unfold sendAll. rewrite Hw.
    destruct (decide (taken = buf)) as [->|Hne]; [done|].
    assert (length taken < length buf) as Hlt.
    { destruct Hp as [post ->]. rewrite length_app.
      destruct post; [by rewrite app_nil_r in Hne | simpl; lia]. }
    replace (length buf <=? length taken)%nat with false
      by (symmetry; apply Nat.leb_gt; lia).
    cbn [fst snd out]. split; [done|].
    destruct Hp as [post ->]. by rewrite take_app_length.
  - unfold sendLine_calls.
    destruct (sendAll_calls_spec calls (line ++ [NL]) [])
      as (taken & rest & Hp & ->).
    cbn [app fst snd].
    destruct (decide (taken = line ++ [NL])) as [->|Hne].
    + by rewrite bool_decide_eq_true_2.
    + rewrite bool_decide_eq_false_2 by lia. split; [done | by intros ->].
Qed.

Lemma sendAll_all_or_fail_witness :
  sendAll_calls [SAccept 2; SEintr; SError; SAccept 2] (str "abcd") []
  = ((-1)%Z, str "ab", [SAccept 2])
  ∧ (sendAll (str "abcd") (mkWorld [] [] (Some 2) ∅ 0 false)).1 = (-1)%Z
  ∧ out (sendAll (str "abcd") (mkWorld [] [] (Some 2) ∅ 0 false)).2 = str "ab".
Proof.
  destruct (sendAll_all_or_fail [SAccept 2; SEintr; SError; SAccept 2]
              (str "abcd") [])
    as [(taken & rest & E & _ & H) _].
  assert (taken = str "ab") as -> by (by injection E).
  split; [reflexivity|].
  by destruct (H (mkWorld [] [] (Some 2) ∅ 0 false)).
Defined.

(** ** Receiving an exact count *)

Lemma recvExact_0 (evs : list recv_event) (buf : bytes) :
  recvExact evs 0 buf = (Z.of_nat (length buf), buf, evs).
Proof. by destruct evs. Qed.

Lemma recvExact_exact_gen (pre rest : list recv_event) (c : ascii) :
  Forall (λ e, e ≠ RError) pre →
  ∀ buf,
    recvExact (pre ++ RByte c :: rest) (S (length (delivered pre))) buf
    = (Z.of_nat (length buf + S (length (delivered pre))),
       buf ++ delivered pre ++ [c], rest).
Proof.
  induction 1 as [|e pre He _ IH]; intros buf.
  - simpl. rewrite recvExact_0, length_app. simpl. do 2 f_equal.
  - destruct e as [x| |]; [| apply IH | done].
    cbn [app delivered length recvExact]. rewrite IH.
    rewrite length_app, <- app_assoc. simpl. do 2 f_equal. f_equal. lia.
Qed.

Lemma recvExact_short_gen (pre rest : list recv_event) :
  Forall (λ e, e ≠ RError) pre →
  ∀ len buf,
    length (delivered pre) < len →
    recvExact pre len buf = ((-1)%Z, buf ++ delivered pre, [])
    ∧ recvExact (pre ++ RError :: rest) len buf
      = ((-1)%Z, buf ++ delivered pre, rest).
Proof.
  induction 1 as [|e pre He _ IH]; intros len buf Hl.
  - destruct len; [simpl in Hl; lia|]. simpl. by rewrite app_nil_r.
  - destruct len as [|len]; [simpl in Hl; lia|].
    destruct e as [x| |]; [| apply IH; simpl in Hl; lia | done].
    cbn [app delivered recvExact]. simpl in Hl.
    destruct (IH len (buf ++ [x])) as [-> ->]; [lia|].
    by rewrite <- app_assoc.
Qed.

(** X1. [recvExact] is exact at the boundary: when the stream delivers the
    wanted bytes it returns their count and those bytes, and the stream is
    left right behind the last of them; when the stream ends or fails
    before that, the result is [-1], never a short count. Interrupted calls
    change nothing. *)
Theorem recvExact_exact (pre rest : list recv_event) (c : ascii) (len : nat) :
  Forall (λ e, e ≠ RError) pre →
  recvExact (pre ++ RByte c :: rest) (S (length (delivered pre))) []
  = (Z.of_nat (S (length (delivered pre))), delivered pre ++ [c], rest)
  ∧ (length (delivered pre) < len →
     (recvExact pre len []).1.1 = (-1)%Z
     ∧ (recvExact (pre ++ RError :: rest) len []).1.1 = (-1)%Z
     ∧ (recvExact (pre ++ RError :: rest) len []).2 = rest).
Proof.
  intros H. split.
  - by rewrite recvExact_exact_gen.
  - intros Hl. destruct (recvExact_short_gen pre rest H len [] Hl) as [-> ->].
    done.
Qed.

Lemma recvExact_exact_witness :
  recvExact (wire (str "ab") ++ [REintr] ++ RByte "c" :: wire (str "LIST")) 3 []
  = (3%Z, str "abc", wire (str "LIST"))
  ∧ (recvExact (wire (str "ab") ++ [REintr]) 5 []).1.1 = (-1)%Z.
Proof.
  destruct (recvExact_exact (wire (str "ab") ++ [REintr])
              (wire (str "LIST")) "c" 5) as [H1 H2].
  - repeat constructor; discriminate.
  - split; [exact H1|]. apply H2. simpl. lia.
Defined.

Lemma recvExact_fail_rest (evs : list recv_event) :
  ∀ (a b : nat) (buf data : bytes) (rest : list recv_event),
    recvExact evs a buf = ((-1)%Z, data, rest) →
    (recvExact evs (a + b) buf).2 = rest
    ∧ (recvExact evs (a + b) buf).1.1 = (-1)%Z.
Proof.
  induction evs as [|e evs IH]; intros a b buf data rest.
  - destruct a; simpl; [intros [= H]; lia | by intros [= <- <-]].
  - destruct a as [|a]; [simpl; intros [= H]; lia|].
    destruct e as [c| |]; cbn [recvExact Nat.add].
    + apply IH.
    + intros E. apply (IH (S a) b _ _ _ E).
    + by intros [= <- <-].
Qed.

(** On success the bytes handed over are the head of what the stream
    delivers, and the rest of the stream delivers the remainder. *)
Lemma recvExact_delivered_rest (evs : list recv_event) :
  ∀ (len : nat) (buf data : bytes) (got : Z) (rest : list recv_event),
    recvExact evs len buf = (got, data, rest) →
    got ≠ (-1)%Z →
    ∃ d, data = buf ++ d ∧ length d = len
         ∧ delivered evs = d ++ delivered rest.
Proof.
  induction evs as [|e evs IH]; intros len buf data got rest.
  - destruct len; simpl; intros [= <- <- <-] H; [| done].
    exists []. by rewrite app_nil_r.
  - destruct len as [|len].
    + simpl. intros [= <- <- <-] _. exists []. by rewrite app_nil_r.
    + destruct e as [c| |]; cbn [recvExact delivered].
      * intros E Hg. destruct (IH _ _ _ _ _ E Hg) as (d & -> & Hl & Hd).
        exists (c :: d). rewrite <- app_assoc. simpl.
        split; [done|]. split; [lia | by rewrite Hd].
      * intros E Hg. apply (IH _ _ _ _ _ E Hg).
      * intros [= <- <- <-] H. done.
Qed.

Lemma set_inp_set_inp (a b : list recv_event) (w : World) :
  set_inp a (set_inp b w) = set_inp a w.
Proof. done. Qed.

Lemma set_inp_id (w : World) : set_inp (inp w) w = w.
Proof. by destruct w. Qed.

(** The drain in chunks of 4096 leaves the stream where one [recvExact] of
    the whole count leaves it, whether the bytes arrive or not. *)
Lemma drain_spec (fuel : nat) :
  ∀ (n : N) (w : World),
    length (inp w) < fuel →
    drain fuel n w = set_inp (recvExact (inp w) (N.to_nat n) []).2 w.
Proof.
  induction fuel as [|fuel IH]; intros n w Hf; [lia|].
  cbn [drain]. destruct (0 <? n)%N eqn:Hn.
  2:{ apply N.ltb_ge in Hn. assert (n = 0%N) as -> by lia.
      change (N.to_nat 0) with 0. rewrite recvExact_0. cbn [snd].
      by rewrite set_inp_id. }
  apply N.ltb_lt in Hn.
  set (chunk := if (4096 <? n)%N then 4096%N else n).
  assert (0 < chunk ∧ chunk <= n)%N as [Hc0 Hcn].
  { subst chunk. destruct (4096 <? n)%N eqn:E; [apply N.ltb_lt in E|]; lia. }
  clearbody chunk.
  assert (N.to_nat n = N.to_nat chunk + N.to_nat (n - chunk)) as -> by lia.
  destruct (recvExact_cases (inp w) (N.to_nat chunk) [])
    as (g1 & d1 & r1 & E1 & Hl1 & H1).
  cbn [length Nat.add app] in E1, H1. rewrite E1.
  destruct H1 as [->|(-> & Hd1 & Hlt)].
  - destruct (recvExact_fail_rest _ _ (N.to_nat (n - chunk)) _ _ _ E1)
      as [-> _]. done.
  - specialize (Hlt ltac:(lia)).
    replace (Z.of_nat (N.to_nat chunk) <=? 0)%Z with false
      by (symmetry; apply Z.leb_gt; lia).
    replace (Z.to_N (Z.of_nat (N.to_nat chunk))) with chunk by lia.
    rewrite IH by (simpl; lia). rewrite set_inp_set_inp. cbn [inp set_inp].
    destruct (recvExact_split (inp w) (N.to_nat chunk)
                (N.to_nat (n - chunk)) [] _ _ _ E1) as [Hs _].
    rewrite decide_False in Hs by lia. rewrite Hs.
    destruct (recvExact r1 (N.to_nat (n - chunk)) [])
      as [[g2 d2] r2] eqn:E2.
    by rewrite (recvExact_buf _ _ d1 _ _ _ E2).
Qed.

(** * Further properties of the protocol engine *)

(** ** LIST and GET for any peer *)

Lemma do_LIST_push (w : World) :
  do_LIST w
  = (push (list_response (fs w)) w,
     if has_room (send_room w) (length (list_response (fs w)))
     then Continue else Break ExitSend).
Proof.
  unfold do_LIST, list_response.
  set (sz := to_string (N.of_nat (length (listing_of (fs w))))).
  set (body := listing_of (fs w)).
  rewrite (sendLine_push _ w).
  replace (str "OK" ++ [NL] ++ sz ++ [NL] ++ body)
    with ((str "OK" ++ [NL]) ++ (sz ++ [NL]) ++ body)
    by (by rewrite <- !app_assoc).
  destruct (has_room (send_room w) (length (str "OK" ++ [NL]))) eqn:H1;
    cbn [negb].
  2:{ destruct (push_short (str "OK" ++ [NL]) ((sz ++ [NL]) ++ body) w H1)
        as [-> ->]. done. }
  rewrite sendLine_push.
  rewrite (has_room_app (str "OK" ++ [NL])), H1. cbn [andb].
  rewrite <- (push_push (str "OK" ++ [NL]) ((sz ++ [NL]) ++ body)).
  set (w1 := push (str "OK" ++ [NL]) w).
  destruct (has_room (send_room w1) (length (sz ++ [NL]))) eqn:H2;
    cbn [negb].
  2:{ destruct (push_short (sz ++ [NL]) body w1 H2) as [-> ->]. done. }
  rewrite (has_room_app (sz ++ [NL])), H2. cbn [andb].
  rewrite <- (push_push (sz ++ [NL]) body).
  case_bool_decide as Hb; cbn [negb].
  - rewrite Hb, push_nil. simpl.
    by destruct (send_room w).
  - rewrite sendAll_push. destruct (has_room _ (length body)).
    + by replace (Z.of_nat (length body) <? 0)%Z with false
        by (symmetry; apply Z.ltb_ge; lia).
    + done.
Qed.

(** A GET sends the part of some response the peer takes and goes on with
    the loop, unless its name passes the guard and is refused by the
    system: then it throws before anything is sent. *)
Lemma do_GET_cases (filename : bytes) (w : World) :
  (isSafeFilename filename = true ∧ os_rejects filename = true
   ∧ do_GET filename w = (w, Throw))
  ∨ (¬ (isSafeFilename filename = true ∧ os_rejects filename = true)
     ∧ ∃ b, do_GET filename w = (push b w, Continue)).
Proof.
  unfold do_GET, fs_exists, is_regular_file, ifstream_open.
  destruct (isSafeFilename filename); cbn [negb].
  2:{ right. split; [by intros [? _] | rewrite send_err_push; by eexists]. }
  destruct (os_rejects filename); [by left|].
  right. split; [by intros [_ ?]|].
  destruct (resolve (fs w) filename) as [[content| | |]|];
    try (rewrite send_err_push; by eexists).
  rewrite !sendLine_push. cbn [snd].
  rewrite send_chunks_push by lia. rewrite !push_push. by eexists.
Qed.

(** X3. The response to LIST for any peer. The body holds one line for
    each entry of the directory, in some order; what goes out is the part
    the peer takes of OK, the decimal length of the body and the body (for
    an empty directory the length line [0] is still sent), and the loop is
    left exactly when the peer did not take all of it. The directory and
    the incoming stream are untouched. *)
Theorem list_response_or_break (w : World) :
  ∃ (entries : list (bytes * entry)) (body : bytes),
    entries ≡ₚ map_to_list (fs w)
    ∧ body = concat (listing_line <$> entries)
    ∧ do_LIST w
      = (push (str "OK" ++ [NL] ++ to_string (N.of_nat (length body)) ++ [NL]
               ++ body) w,
         if has_room (send_room w)
              (length (str "OK" ++ [NL] ++ to_string (N.of_nat (length body))
                       ++ [NL] ++ body))
         then Continue else Break ExitSend)
    ∧ (fs w = ∅ → body = [] ∧ to_string (N.of_nat (length body)) = str "0")
    ∧ fs (do_LIST w).1 = fs w ∧ inp (do_LIST w).1 = inp w.
Proof.
  exists (map_to_list (fs w)), (listing_of (fs w)).
  split; [done|]. split; [done|].
  rewrite do_LIST_push. split; [done|]. split; [|done].
  intros E. unfold listing_of. by rewrite E, map_to_list_empty.
Qed.

Lemma list_response_or_break_witness :
  do_LIST (accepted [] ∅)
  = (push (str "OK" ++ [NL] ++ str "0" ++ [NL]) (accepted [] ∅), Continue).
Proof.
  destruct (list_response_or_break (accepted [] ∅))
    as (entries & body & _ & _ & Hd & He & _).
  destruct (He eq_refl) as [-> _]. exact Hd.
Defined.

(** X4. A GET of a regular file, for any peer: what goes out is the part
    the peer takes of OK, the file's length and the file's bytes; a peer
    that stops taking bytes cuts the response short but does not end the
    session, and the file is unchanged. *)
Theorem get_sends_what_peer_takes (filename content : bytes) (w : World) :
  isSafeFilename filename = true →
  resolve (fs w) filename = Some (File content) →
  serve_line (str "GET " ++ filename) w
  = (push (get_response content) w, Continue).
Proof.
  intros Hs Hr. rewrite serve_line_GET.
  unfold do_GET, fs_exists, is_regular_file, file_size, ifstream_open.
  rewrite Hs, (resolve_Some _ _ _ Hr), Hr. cbn [negb orb].
  rewrite !sendLine_push. cbn [snd].
  rewrite send_chunks_push by lia. rewrite !push_push.
  unfold get_response. by rewrite <- !app_assoc.
Qed.

Lemma get_sends_what_peer_takes_witness :
  serve_line (str "GET f")
    (mkWorld [] [] (Some 6) {[ str "f" := File (str "abcdef") ]} 0 false)
  = (mkWorld [] (str "OK" ++ NL :: str "6" ++ NL :: str "a") (Some 0)
             {[ str "f" := File (str "abcdef") ]} 0 false, Continue).
Proof.
  rewrite (get_sends_what_peer_takes (str "f") (str "abcdef")) by reflexivity.
  reflexivity.
Defined.

(** X5. A GET whose filename the guard rejects is answered with ERR and
    "Invalid filename" whatever the directory holds: no file is looked up
    and no file content is sent. *)
Theorem get_unsafe_name_rejected (filename : bytes) (w : World) :
  isSafeFilename filename = false →
  serve_line (str "GET " ++ filename) w
  = (push (err_response "Invalid filename") w, Continue).
Proof.
  intros Hs. rewrite serve_line_GET. unfold do_GET. rewrite Hs. cbn [negb].
  by rewrite send_err_push.
Qed.

Lemma get_unsafe_name_rejected_witness :
  serve_line (str "GET ../f")
    (accepted [] {[ str "../f" := File (str "secret") ]})
  = (push (err_response "Invalid filename")
       (accepted [] {[ str "../f" := File (str "secret") ]}), Continue).
Proof. by apply (get_unsafe_name_rejected (str "../f")). Defined.

(** ** PUT beyond the successful upload *)

Lemma drain_fs (fuel : nat) (n : N) (w : World) :
  fs (drain fuel n w) = fs w ∧ disk_free (drain fuel n w) = disk_free w.
Proof.
  revert n w. induction fuel as [|fuel IH]; intros n w; [done|].
  cbn [drain]. destruct (0 <? n)%N; [|done].
  destruct (recvExact _ _ _) as [[got data] rest].
  destruct (got <=? 0)%Z; [done|].
  destruct (IH (n - Z.to_N got)%N (set_inp rest w)) as [-> ->]. done.
Qed.

(** Whatever the outcome of the copy, the file holds what it held at the
    open followed by a head of what the stream delivered; after an error
    that head is shorter than the declared size. *)
Lemma recv_to_file_prefix (name : bytes) (fuel : nat) :
  ∀ (n : N) (w : World) (c : bytes),
    length (inp w) < fuel →
    fs w !! c_str name = Some (File c) →
    ∃ d, fs (recv_to_file fuel name n w).2
         = <[c_str name := File (c ++ d)]> (fs w)
         ∧ d `prefix_of` delivered (inp w)
         ∧ (N.of_nat (length d) <= n)%N
         ∧ ((recv_to_file fuel name n w).1 = true →
            (N.of_nat (length d) < n)%N).
Proof.
  induction fuel as [|fuel IH]; intros n w c Hf Hopen; [lia|].
  cbn [recv_to_file].
  destruct (0 <? n)%N eqn:Hn.
  2:{ exists []. rewrite app_nil_r, insert_id by done.
      split; [done|]. split; [apply prefix_nil|]. split; [simpl; lia | done]. }
  apply N.ltb_lt in Hn.
  set (chunk := if (BUFFER_SIZE <? n)%N then BUFFER_SIZE else n).
  assert (0 < chunk ∧ chunk <= n ∧ (chunk < FILEBUF_DIRECT → chunk = n))%N
    as (Hc0 & Hcn & Hlast).
  { subst chunk. unfold BUFFER_SIZE, FILEBUF_DIRECT.
    destruct (8192 <? n)%N eqn:E; [apply N.ltb_lt in E|]; lia. }
  clearbody chunk.
  destruct (recvExact (inp w) (N.to_nat chunk) []) as [[g1 d1] r1] eqn:E1.
  destruct (g1 <=? 0)%Z eqn:Hg.
  { exists []. cbn [snd fst set_inp fs]. rewrite app_nil_r, insert_id by done.
    split; [done|]. split; [apply prefix_nil|]. simpl. lia. }
  apply Z.leb_gt in Hg.
  destruct (recvExact_delivered_rest _ _ _ _ _ _ E1) as (d & -> & Hd & Hdel);
    [lia|].
  destruct (recvExact_cases (inp w) (N.to_nat chunk) [])
    as (g & d' & r & E & Hl & H).
  rewrite E1 in E. injection E as <- _ <-.
  destruct H as [->|(-> & _ & Hlt)]; [lia|]. specialize (Hlt ltac:(lia)).
  simpl in Hg |- *.
  unfold ofs_write. cbn [disk_free set_inp fs inp out send_room closed].
  rewrite Hd, N2Nat.id.
  replace (Z.to_N (Z.of_nat (N.to_nat chunk))) with chunk by lia.
  destruct (chunk <=? disk_free w)%N.
  2:{ destruct (chunk <? FILEBUF_DIRECT)%N eqn:Hbuf; cbn [negb].
      - (* the last chunk, lost in the buffer of the stream *)
        apply N.ltb_lt, Hlast in Hbuf. subst chunk.
        destruct (IH (n - n)%N (set_inp r1 w) c)
          as (d2 & Hfs & _ & Hle & _); [simpl; lia | done |].
        assert (d2 = []) as -> by (destruct d2; [done | simpl in Hle; lia]).
        exists []. rewrite Hfs. simpl.
        split; [done|]. split; [apply prefix_nil|]. lia.
      - exists []. cbn [snd fst]. rewrite app_nil_r, insert_id by done.
        split; [done|]. split; [apply prefix_nil|]. simpl. lia. }
  cbn [negb]. rewrite (alter_append_to _ _ c) by done.
  match goal with |- context [recv_to_file fuel name ?m ?v] =>
    destruct (IH m v (c ++ d)) as (d2 & Hfs & Hpre & Hle & Herr) end.
  { simpl. lia. }
  { simpl. apply lookup_insert_eq. }
  exists (d ++ d2). rewrite Hfs. simpl.
  rewrite insert_insert_eq, app_assoc. split; [done|]. split.
  - rewrite Hdel. by apply prefix_app.
  - rewrite length_app. simpl in Hpre. split; [lia|].
    intros He. specialize (Herr He). lia.
Qed.

(** X6. When the output stream of a PUT cannot be opened (the name is a
    directory, an entry that cannot be opened for writing, or a name the
    system refuses), the response is ERR and "Failed to create file", the
    directory is unchanged, and the stream is left where one exact read of
    the declared size leaves it: behind the payload when it arrives in
    full, so that the next line is the next command. *)
Theorem put_failed_create_drains (filename sizeLine : bytes)
    (evs : list recv_event) (size : N) (w : World) :
  isSafeFilename filename = true →
  readLine (inp w) = (true, sizeLine, evs) →
  stoull sizeLine = Some size →
  ofstream_open (fs w) filename = None →
  serve_line (str "PUT " ++ filename) w
  = (set_inp (recvExact evs (N.to_nat size) []).2
       (push (err_response "Failed to create file") (set_inp evs w)),
     Continue).
Proof.
  intros Hs Hr Hn Ho. rewrite serve_line_PUT. unfold do_PUT.
  rewrite Hs, Hr, Hn. cbn [negb set_inp fs]. rewrite Ho.
  rewrite drain_spec by lia. by rewrite send_err_push.
Qed.

Lemma put_failed_create_drains_witness :
  serve_line (str "PUT d")
    (accepted (wire (str "3" ++ NL :: str "abcLIST" ++ [NL]))
              {[ str "d" := Dir ]})
  = (mkWorld (wire (str "LIST" ++ [NL])) (err_response "Failed to create file")
             None {[ str "d" := Dir ]} 1000000 false, Continue).
Proof.
  rewrite (put_failed_create_drains (str "d") (str "3")
             (wire (str "abcLIST" ++ [NL])) 3) by reflexivity.
  reflexivity.
Defined.

(** X7. A PUT whose payload is cut short (the stream ends or fails before
    the declared size) is answered with ERR and "Transfer error". The file
    has been created or truncated all the same: it holds a head of the
    bytes that did arrive, shorter than the declared size, and what it held
    before is gone. *)
Theorem put_cut_short (filename sizeLine : bytes) (evs : list recv_event)
    (size : N) (w : World) :
  isSafeFilename filename = true →
  readLine (inp w) = (true, sizeLine, evs) →
  stoull sizeLine = Some size →
  ofstream_open (fs w) filename ≠ None →
  (recvExact evs (N.to_nat size) []).1.1 = (-1)%Z →
  ∃ w' d,
    serve_line (str "PUT " ++ filename) w = (w', Continue)
    ∧ out w' = out w ++ accepted_prefix (send_room w)
                          (err_response "Transfer error")
    ∧ fs w' = <[c_str filename := File d]> (fs w)
    ∧ d `prefix_of` delivered evs
    ∧ (N.of_nat (length d) < size)%N.
Proof.
  intros Hs Hr Hn Ho Hbad. rewrite serve_line_PUT. unfold do_PUT.
  rewrite Hs, Hr, Hn. cbn [negb set_inp fs].
  destruct (ofstream_open (fs w) filename) as [m|] eqn:Hm; [|done].
  apply ofstream_open_Some in Hm as [-> _].
  set (w1 := set_fs _ _).
  destruct (recv_to_file_spec filename (S (length (inp w1))) size w1 [])
    as (got & data & r & E & _ & Herr); [lia | apply lookup_insert_eq |].
  destruct (recv_to_file_prefix filename (S (length (inp w1))) size w1 [])
    as (d & Hfs & Hpre & _ & Hlt); [lia | apply lookup_insert_eq |].
  pose proof (recv_to_file_frame (S (length (inp w1))) filename size w1)
    as [Fo Fr].
  simpl in E.
  assert ((recv_to_file (S (length (inp w1))) filename size w1).1 = true)
    as He.
  { apply Herr. by rewrite E in Hbad. }
  destruct (recv_to_file _ _ _ _) as [err w2]. simpl in *. subst err.
  exists (send_err "Transfer error" w2), d.
  split; [done|]. rewrite send_err_push. simpl. rewrite Fo, Fr.
  split; [done|]. rewrite Hfs, insert_insert_eq. auto.
Qed.

Lemma put_cut_short_witness :
  ∃ w' d,
    serve_line (str "PUT f")
      (accepted (wire (str "5" ++ NL :: str "abc"))
                {[ str "f" := File (str "old content") ]})
    = (w', Continue)
    ∧ out w' = err_response "Transfer error"
    ∧ fs w' = <[str "f" := File d]> {[ str "f" := File (str "old content") ]}
    ∧ d `prefix_of` str "abc"
    ∧ (N.of_nat (length d) < 5)%N.
Proof.
  destruct (put_cut_short (str "f") (str "5") (wire (str "abc")) 5
              (accepted (wire (str "5" ++ NL :: str "abc"))
                        {[ str "f" := File (str "old content") ]}))
    as (w' & d & H1 & H2 & H3 & H4 & H5); try reflexivity.
  - vm_compute. discriminate.
  - exists w', d. repeat split; assumption.
Defined.

Lemma recv_to_file_other (fuel : nat) (name k : bytes) (n : N) (w : World) :
  k ≠ c_str name → fs (recv_to_file fuel name n w).2 !! k = fs w !! k.
Proof.
  intros Hk. revert n w. induction fuel as [|fuel IH]; intros n w; [done|].
  cbn [recv_to_file]. destruct (0 <? n)%N; [|done].
  destruct (recvExact _ _ _) as [[got data] rest].
  destruct (got <=? 0)%Z; [done|].
  unfold ofs_write.
  destruct (_ <=? _)%N; [| destruct (N.of_nat _ <? _)%N; [|done]];
    cbn [negb]; rewrite IH; [|done].
  simpl. by rewrite lookup_alter_ne.
Qed.

(** X8. A PUT changes no entry of the served directory but the one its
    name leads to (the name as the system sees it), whatever the stream and
    the peer do. *)
Theorem put_touches_only_its_entry (filename k : bytes) (w : World) :
  k ≠ c_str filename →
  fs (serve_line (str "PUT " ++ filename) w).1 !! k = fs w !! k.
Proof.
  intros Hk. rewrite serve_line_PUT. unfold do_PUT.
  destruct (isSafeFilename filename); cbn [negb];
    [| cbn [fst]; by rewrite send_err_push].
  destruct (readLine (inp w)) as [[ok sizeLine] evs].
  destruct ok; cbn [negb]; [|done].
  destruct (stoull sizeLine) as [size|];
    [| cbn [fst]; by rewrite send_err_push].
  cbn [set_inp fs].
  destruct (ofstream_open (fs w) filename) as [m|] eqn:Hm.
  - apply ofstream_open_Some in Hm as [-> _].
    match goal with |- context [recv_to_file ?f ?a ?n ?v] =>
      pose proof (recv_to_file_other f a k n v Hk) as Hother;
      destruct (recv_to_file f a n v) as [err w2] end.
    simpl in Hother. rewrite lookup_insert_ne in Hother by done.
    destruct err; cbn [fst].
    + by rewrite send_err_push.
    + by rewrite sendLine_push.
  - cbn [fst].
    match goal with |- context [drain ?f ?n ?v] =>
      destruct (drain_fs f n v) as [-> _] end.
    by rewrite send_err_push.
Qed.

Lemma put_touches_only_its_entry_witness :
  fs (serve_line (str "PUT a" ++ NUL :: str "b")
        (accepted (wire (str "2" ++ NL :: str "xy"))
                  {[ str "b" := File (str "keep") ]})).1 !! str "b"
  = Some (File (str "keep")).
Proof.
  rewrite (put_touches_only_its_entry (str "a" ++ NUL :: str "b") (str "b"))
    by discriminate.
  reflexivity.
Defined.

(** X28. A payload lost without notice: when a PUT creates a new file and
    the volume has no room for its payload, which is shorter than
    [FILEBUF_DIRECT] bytes, the one write of the copy loop only fills the
    buffer of the stream, which stays good; the bytes are lost at
    [ofs.close()], whose outcome the source does not test. The PUT is
    answered OK, the payload is taken off the stream, and the file is left
    empty. *)
Theorem put_small_payload_on_full_volume (filename sizeLine payload : bytes)
    (evs rest : list recv_event) (size : N) (w : World) :
  isSafeFilename filename = true →
  readLine (inp w) = (true, sizeLine, evs) →
  stoull sizeLine = Some size →
  fs w !! c_str filename = None →
  ofstream_open (fs w) filename ≠ None →
  recvExact evs (N.to_nat size) [] = (Z.of_N size, payload, rest) →
  (disk_free w < size)%N →
  (size < FILEBUF_DIRECT)%N →
  serve_line (str "PUT " ++ filename) w
  = (push (str "OK" ++ [NL])
       (mkWorld rest (out w) (send_room w)
                (<[c_str filename := File []]> (fs w))
                (disk_free w) (closed w)), Continue).
Proof.
  intros Hs Hr Hn _ Ho Hx Hfull Hsmall. rewrite serve_line_PUT. unfold do_PUT.
  rewrite Hs, Hr, Hn. cbn [negb set_inp fs].
  destruct (ofstream_open (fs w) filename) as [m|] eqn:Hm; [|done].
  apply ofstream_open_Some in Hm as [-> _].
  destruct (recvExact_delivered _ _ _ _ _ _ Hx) as (_ & _ & Hlen); [lia|].
  simpl in Hlen.
  destruct evs as [|e evs'].
  { destruct (N.to_nat size) eqn:E; simpl in Hx; [lia | injection Hx; lia]. }
  cbn [set_fs set_inp inp out send_room fs disk_free closed length
       recv_to_file].
  replace (0 <? size)%N with true by (symmetry; apply N.ltb_lt; lia).
  replace (BUFFER_SIZE <? size)%N with false
    by (symmetry; apply N.ltb_ge; unfold BUFFER_SIZE, FILEBUF_DIRECT in *; lia).
  rewrite Hx.
  replace (Z.of_N size <=? 0)%Z with false by (symmetry; apply Z.leb_gt; lia).
  unfold ofs_write. cbn [set_fs set_inp inp out send_room fs disk_free closed].
  replace (N.of_nat (length payload) <=? disk_free w)%N with false
    by (symmetry; apply N.leb_gt; lia).
  replace (N.of_nat (length payload) <? FILEBUF_DIRECT)%N with true
    by (symmetry; apply N.ltb_lt; lia).
  cbn [negb recv_to_file].
  replace (0 <? size - Z.to_N (Z.of_N size))%N with false
    by (symmetry; apply N.ltb_ge; lia).
  by rewrite sendLine_push.
Qed.

Lemma put_small_payload_on_full_volume_witness :
  serve_line (str "PUT f")
    (mkWorld (wire (str "3" ++ NL :: str "abcLIST" ++ [NL])) [] None ∅ 2 false)
  = (mkWorld (wire (str "LIST" ++ [NL])) (str "OK" ++ [NL]) None
             {[ str "f" := File [] ]} 2 false, Continue).
Proof.
  rewrite (put_small_payload_on_full_volume (str "f") (str "3") (str "abc")
             (wire (str "abcLIST" ++ [NL])) (wire (str "LIST" ++ [NL])) 3);
    try reflexivity.
  vm_compute. discriminate.
Defined.

(** ** Which lines write, and which lines end the session *)

(** X9. Only a line that begins with "PUT " can change the served
    directory or use up room on the volume. *)
Theorem only_put_writes (line : bytes) (w : World) :
  starts_with (str "PUT ") line = false →
  fs (serve_line line w).1 = fs w
  ∧ disk_free (serve_line line w).1 = disk_free w.
Proof.
  intros Hp. rewrite serve_line_unfold, Hp.
  destruct (starts_with (str "LIST") line); [by rewrite do_LIST_push|].
  destruct (starts_with (str "GET ") line).
  { by destruct (do_GET_cases (substr line 4) w)
      as [(_ & _ & ->)|(_ & b & ->)]. }
  destruct (starts_with (str "QUIT") line); [done|].
  by rewrite send_err_push.
Qed.

Lemma only_put_writes_witness :
  fs (serve_line (str "GET a") (accepted [] {[ str "a" := File (str "x") ]})).1
  = {[ str "a" := File (str "x") ]}.
Proof.
  destruct (only_put_writes (str "GET a")
              (accepted [] {[ str "a" := File (str "x") ]})) as [H _].
  - reflexivity.
  - exact H.
Defined.




(** ** Decimal sizes *)

Lemma parse_digits_uint (d d' : Decimal.uint) (junk : bytes) :
  match junk with c :: _ => digit_val c = None | [] => True end →
  parse_digits (str (NilEmpty.string_of_uint d) ++ junk)
               (DecimalPos.Unsigned.of_lu d')
  = DecimalPos.Unsigned.of_lu (Decimal.revapp d d').
Proof.
  intros Hj. revert d'.
  induction d as [|d IH|d IH|d IH|d IH|d IH|d IH|d IH|d IH|d IH|d IH];
    intros d'; simpl;
    try (rewrite <- IH; f_equal; cbn [DecimalPos.Unsigned.of_lu]; lia).
  destruct junk as [|c junk]; [done|]. simpl. by rewrite Hj.
Qed.

Lemma to_string_head (n : N) :
  ∃ c s, to_string n = c :: s ∧ digit_val c ≠ None ∧ isspace c = false
         ∧ c ≠ "-" ∧ c ≠ "+".
Proof.
  unfold to_string, NilZero.string_of_uint.
  destruct (N.to_uint n) eqn:E;
    try (eexists _, _; simpl; repeat split; done).
Qed.

Lemma skip_spaces_app (ws s : bytes) :
  Forall (λ c, isspace c = true) ws → skip_spaces (ws ++ s) = skip_spaces s.
Proof. induction 1 as [|c ws Hc _ IH]; [done|]. simpl. by rewrite Hc. Qed.

Lemma split_sign_other (c : ascii) (s : bytes) :
  c ≠ "-" → c ≠ "+" → split_sign (c :: s) = (false, c :: s).
Proof.
  intros H1 H2. unfold split_sign.
  destruct c as [[] [] [] [] [] [] [] []]; done.
Qed.

Lemma parse_to_string (n : N) (junk : bytes) :
  match junk with c :: _ => digit_val c = None | [] => True end →
  parse_digits (to_string n ++ junk) 0 = n.
Proof.
  intros Hj. unfold to_string, NilZero.string_of_uint.
  pose proof (DecimalN.Unsigned.of_to n) as Hn.
  unfold N.of_uint in Hn. rewrite DecimalPos.Unsigned.of_uint_alt in Hn.
  pose proof (parse_digits_uint (N.to_uint n) Decimal.Nil junk Hj) as Hp.
  change (Decimal.revapp (N.to_uint n) Decimal.Nil)
    with (Decimal.rev (N.to_uint n)) in Hp.
  rewrite Hn in Hp. simpl in Hp.
  destruct (N.to_uint n) eqn:E; exact Hp.
Qed.

Lemma stoull_of_to_string (n : N) :
  (n <= ULLONG_MAX)%N → stoull (to_string n) = Some n.
Proof.
  intros Hn. unfold stoull.
  pose proof (parse_to_string n [] I) as Hp. rewrite app_nil_r in Hp.
  destruct (to_string_head n) as (c & s & E & Hd & Hsp & Hm & Hpl).
  rewrite E in Hp |- *. cbn [skip_spaces]. rewrite Hsp.
  rewrite split_sign_other by done.
  destruct (digit_val c) eqn:Hc; [|done].
  rewrite Hp.
  by replace (ULLONG_MAX <? n)%N with false
    by (symmetry; apply N.ltb_ge; lia).
Qed.

(** X11. [std::stoull] reads back what [std::to_string] wrote: for every
    value of an [unsigned long long], the decimal text of the value, with
    white space before it and anything that does not begin with a digit
    after it, parses to that value. *)
Theorem stoull_to_string (n : N) (ws junk : bytes) :
  (n <= ULLONG_MAX)%N →
  Forall (λ c, isspace c = true) ws →
  match junk with c :: _ => digit_val c = None | [] => True end →
  stoull (ws ++ to_string n ++ junk) = Some n.
Proof.
  intros Hn Hws Hj. unfold stoull. rewrite skip_spaces_app by done.
  pose proof (parse_to_string n junk Hj) as Hp.
  destruct (to_string_head n) as (c & s & E & Hd & Hsp & Hm & Hpl).
  rewrite E in Hp |- *. cbn [app skip_spaces]. rewrite Hsp.
  rewrite split_sign_other by done.
  destruct (digit_val c) eqn:Hc; [|done].
  change (c :: s ++ junk) with ((c :: s) ++ junk) in Hp |- *.
  rewrite Hp.
  by replace (ULLONG_MAX <? n)%N with false
    by (symmetry; apply N.ltb_ge; lia).
Qed.

Lemma stoull_to_string_witness :
  stoull (str " " ++ to_string 1048576 ++ str " bytes") = Some 1048576%N.
Proof.
  apply (stoull_to_string 1048576 (str " ") (str " bytes")).
  - vm_compute. discriminate.
  - repeat constructor.
  - reflexivity.
Defined.

(** X12. A size line with a minus sign is not refused: [std::stoull]
    negates modulo 2^64, so ["-0"] is 0 and ["-1"] is the largest
    [unsigned long long]. *)
Theorem stoull_minus_wraps (n : N) :
  (n <= ULLONG_MAX)%N →
  stoull ("-" :: to_string n) = Some ((2 ^ 64 - n) mod 2 ^ 64)%N.
Proof.
  intros Hn. unfold stoull. cbn [skip_spaces isspace split_sign].
  pose proof (parse_to_string n [] I) as Hp. rewrite app_nil_r in Hp.
  destruct (to_string_head n) as (c & s & E & Hd & _).
  rewrite E in Hp |- *.
  destruct (digit_val c) eqn:Hc; [|done].
  rewrite Hp.
  by replace (ULLONG_MAX <? n)%N with false
    by (symmetry; apply N.ltb_ge; lia).
Qed.

Lemma stoull_minus_wraps_witness :
  stoull (str "-1") = Some ULLONG_MAX ∧ stoull (str "-0") = Some 0%N.
Proof.
  split.
  - apply (stoull_minus_wraps 1). vm_compute. discriminate.
  - apply (stoull_minus_wraps 0). vm_compute. discriminate.
Defined.

(** * Requests and responses on the wire *)

Lemma wire_app (a b : bytes) : wire (a ++ b) = wire a ++ wire b.
Proof. unfold wire. apply fmap_app. Qed.

Lemma delivered_wire (s : bytes) : delivered (wire s) = s.
Proof. induction s as [|c s IH]; [done|]. simpl. by rewrite IH. Qed.

Lemma readLine_wire (line : bytes) (rest : list recv_event) :
  Forall plain line →
  readLine (wire line ++ RByte NL :: rest) = (true, line, rest).
Proof.
  intros H. unfold readLine. rewrite readLine_from_line.
  - rewrite delivered_wire. simpl. f_equal. f_equal.
    induction H as [|c line [_ Hc] _ IH]; [done|].
    by rewrite filter_cons_True, IH.
  - induction H as [|c line [Hc _] _ IH]; constructor; [|done].
    split; [congruence | done].
Qed.

Lemma to_string_plain (n : N) : Forall plain (to_string n).
Proof.
  unfold to_string, NilZero.string_of_uint.
  assert (∀ d, Forall plain (str (NilEmpty.string_of_uint d))) as H.
  { induction d; simpl; constructor; try done; split; discriminate. }
  destruct (N.to_uint n); try apply H.
  constructor; [split; discriminate | constructor].
Qed.

Lemma recvExact_wire (content : bytes) (rest : list recv_event) (buf : bytes) :
  recvExact (wire content ++ rest) (length content) buf
  = (Z.of_nat (length buf + length content), buf ++ content, rest).
Proof.
  revert buf. induction content as [|c content IH]; intros buf.
  - simpl. rewrite recvExact_0, app_nil_r. do 2 f_equal. f_equal. lia.
  - cbn [wire fmap list_fmap app length recvExact]. fold (wire content).
    rewrite IH, length_app, <- app_assoc. simpl. do 2 f_equal. f_equal. lia.
Qed.

Lemma readLine_from_eof_rest (pre : list recv_event) (acc : bytes) :
  Forall quiet pre → (readLine_from pre acc).2 = [].
Proof.
  intros H. revert acc.
  induction H as [|e pre [Hnl Herr] _ IH]; intros acc; simpl; [done|].
  destruct e as [c| |]; [| apply IH | done].
  rewrite decide_False by congruence.
  destruct (decide (c ≠ CR)); apply IH.
Qed.

Lemma str_plain_OK : Forall plain (str "OK").
Proof. repeat constructor; discriminate. Qed.

Lemma str_plain_ERR : Forall plain (str "ERR").
Proof. repeat constructor; discriminate. Qed.

Lemma recvResponse_reads_size_lemma (n sizeOut : N) (errMsg : bytes)
    (rest : list recv_event) :
  (n <= ULLONG_MAX)%N →
  recvResponseOKAndSize
    (wire (str "OK" ++ [NL] ++ to_string n ++ [NL]) ++ rest) sizeOut errMsg
  = (true, n, errMsg, rest).
Proof.
  intros Hn. unfold recvResponseOKAndSize.
  rewrite !wire_app, <- !app_assoc. cbn [wire fmap list_fmap app].
  fold (wire (str "OK")). fold (wire (to_string n)).
  rewrite (readLine_wire (str "OK")) by apply str_plain_OK. cbn [negb].
  rewrite decide_True by done.
  rewrite readLine_wire by apply to_string_plain. cbn [negb].
  pose proof (parse_to_string n [] I) as Hp. rewrite app_nil_r in Hp.
  destruct (to_string_head n) as (c & s & E & Hd & Hsp & Hm & Hpl).
  unfold stoull. rewrite E in Hp |- *. cbn [skip_spaces]. rewrite Hsp.
  rewrite split_sign_other by done.
  destruct (digit_val c) eqn:Hc; [|done].
  rewrite Hp.
  by replace (ULLONG_MAX <? n)%N with false
    by (symmetry; apply N.ltb_ge; lia).
Qed.

Lemma recvResponse_err_lemma (msg errMsg : bytes) (sizeOut : N)
    (rest : list recv_event) :
  Forall plain msg →
  recvResponseOKAndSize (wire (str "ERR" ++ [NL] ++ msg ++ [NL]) ++ rest)
                        sizeOut errMsg
  = (false, sizeOut, msg, rest).
Proof.
  intros Hm. unfold recvResponseOKAndSize.
  rewrite !wire_app, <- !app_assoc. cbn [wire fmap list_fmap app].
  fold (wire msg). fold (wire (str "ERR")).
  rewrite (readLine_wire (str "ERR")) by apply str_plain_ERR. cbn [negb].
  rewrite decide_False by done. rewrite decide_True by done.
  by rewrite readLine_wire.
Qed.

(** X13. The client helper reads the header the server writes before a
    payload: after OK and the decimal size, the result is success with that
    size, and the stream stands at the first byte of the payload. *)
Theorem recvResponse_reads_size (n sizeOut : N) (errMsg : bytes)
    (rest : list recv_event) :
  (n <= ULLONG_MAX)%N →
  recvResponseOKAndSize
    (wire (str "OK" ++ [NL] ++ to_string n ++ [NL]) ++ rest) sizeOut errMsg
  = (true, n, errMsg, rest).
Proof.
  intros Hn. unfold recvResponseOKAndSize.
  rewrite !wire_app, <- !app_assoc. cbn [wire fmap list_fmap app].
  fold (wire (str "OK")). fold (wire (to_string n)).
  rewrite (readLine_wire (str "OK")) by apply str_plain_OK. cbn [negb].
  rewrite decide_True by done.
  rewrite readLine_wire by apply to_string_plain. cbn [negb].
  by rewrite stoull_of_to_string.
Qed.

Lemma recvResponse_reads_size_witness :
  recvResponseOKAndSize
    (wire (str "OK" ++ [NL] ++ to_string 3 ++ [NL]) ++ wire (str "abc")) 0 []
  = (true, 3%N, [], wire (str "abc")).
Proof.
  apply (recvResponse_reads_size 3 0 [] (wire (str "abc"))).
  vm_compute. discriminate.
Defined.

(** X14. The client helper on everything else: an ERR response yields
    failure with the server's message, any other status line yields failure
    with "Unexpected response", and a stream that ends before a line is
    complete yields failure with the message left as it was. *)
Theorem recvResponse_reports_failure (status msg errMsg : bytes) (sizeOut : N)
    (rest : list recv_event) :
  Forall plain msg → Forall plain status →
  status ≠ str "OK" → status ≠ str "ERR" →
  recvResponseOKAndSize (wire (err_response (string_of_list_ascii msg)) ++ rest)
                        sizeOut errMsg
  = (false, sizeOut, msg, rest)
  ∧ recvResponseOKAndSize (wire status ++ RByte NL :: rest) sizeOut errMsg
    = (false, sizeOut, str "Unexpected response", rest)
  ∧ recvResponseOKAndSize (wire status) sizeOut errMsg
    = (false, sizeOut, errMsg, []).
Proof.
  intros Hm Hst H1 H2. unfold recvResponseOKAndSize, err_response, str.
  rewrite list_ascii_of_string_of_list_ascii. split; [| split].
  - rewrite !wire_app, <- !app_assoc. cbn [wire fmap list_fmap app].
    fold (wire msg).
    change (RByte "E" :: RByte "R" :: RByte "R" :: RByte NL :: wire msg
            ++ RByte NL :: rest)
      with (wire (str "ERR") ++ RByte NL :: wire msg ++ RByte NL :: rest).
    rewrite (readLine_wire (str "ERR")) by apply str_plain_ERR. cbn [negb].
    rewrite decide_False by done. rewrite decide_True by done.
    by rewrite readLine_wire.
  - rewrite readLine_wire by done. cbn [negb].
    by rewrite !decide_False by done.
  - assert (Forall quiet (wire status)) as Hq.
    { clear -Hst. induction Hst as [|c s [Hc _] _ IH]; constructor; [|done].
      split; [congruence | done]. }
    pose proof (readLine_from_eof (wire status) [] Hq) as He.
    pose proof (readLine_from_eof_rest (wire status) [] Hq) as Hr.
    unfold readLine.
    destruct (readLine_from (wire status) []) as [[ok l] r].
    simpl in He, Hr. by subst ok r.
Qed.

Lemma recvResponse_reports_failure_witness :
  recvResponseOKAndSize (wire (err_response "File not found") ++ wire (str "x"))
                        7 []
  = (false, 7%N, str "File not found", wire (str "x"))
  ∧ recvResponseOKAndSize (wire (str "HELLO") ++ RByte NL :: wire (str "x")) 7 []
    = (false, 7%N, str "Unexpected response", wire (str "x")).
Proof.
  destruct (recvResponse_reports_failure (str "HELLO") (str "File not found")
              [] 7 (wire (str "x"))) as (H1 & H2 & _);
    [repeat constructor; discriminate | repeat constructor; discriminate
     | discriminate | discriminate |].
  split; [exact H1 | exact H2].
Defined.

Lemma step_line (line : bytes) (rest : list recv_event) (w : World) :
  readLine (inp w) = (true, line, rest) →
  step w = serve_line line (set_inp rest w).
Proof. intros H. unfold step. by rewrite H. Qed.

Lemma plain_command (cmd : string) (filename : bytes) :
  Forall plain (str cmd) → Forall plain filename →
  Forall plain (str cmd ++ filename).
Proof. intros. by apply Forall_app. Qed.

Lemma wire_put_request (filename content : bytes) (more : list recv_event) :
  wire (put_request filename content) ++ more
  = wire (str "PUT " ++ filename)
    ++ RByte NL :: wire (to_string (N.of_nat (length content)))
    ++ RByte NL :: wire content ++ more.
Proof.
  unfold put_request. rewrite (app_assoc (str "PUT ")).
  by rewrite !wire_app, <- !app_assoc.
Qed.

(** The server on the bytes of an upload request. *)
Lemma step_put_request (filename content : bytes) (more : list recv_event)
    (w : World) :
  isSafeFilename filename = true →
  Forall plain filename →
  ofstream_open (fs w) filename ≠ None →
  (N.of_nat (length content) <= disk_free w)%N →
  (N.of_nat (length content) <= ULLONG_MAX)%N →
  send_room w = None →
  inp w = wire (put_request filename content) ++ more →
  step w
  = (mkWorld more (out w ++ str "OK" ++ [NL]) None
             (<[c_str filename := File content]> (fs w))
             (disk_free w - N.of_nat (length content)) (closed w), Continue).
Proof.
  intros Hs Hp Ho Hd Hmax Hroom Hin.
  rewrite wire_put_request in Hin.
  assert (readLine (inp w)
          = (true, str "PUT " ++ filename,
             wire (to_string (N.of_nat (length content)))
             ++ RByte NL :: wire content ++ more)) as Hr.
  { rewrite Hin. apply readLine_wire. apply Forall_app. split; [|done].
    repeat constructor; discriminate. }
  rewrite (step_line _ _ _ Hr), serve_line_PUT.
  destruct (ofstream_open (fs w) filename) as [m|] eqn:Hm; [|done].
  pose proof (ofstream_open_Some _ _ _ Hm) as [-> _].
  rewrite (do_PUT_stored filename (to_string (N.of_nat (length content)))
             content (wire content ++ more) more
             (N.of_nat (length content)) (set_inp _ w)); try done.
  - rewrite sendLine_None by done. unfold emit. simpl. by rewrite Hroom.
  - simpl. apply readLine_wire, to_string_plain.
  - by apply stoull_of_to_string.
  - rewrite Nat2N.id, recvExact_wire. simpl. do 2 f_equal. lia.
Qed.

(** X15. An upload followed by a download on one connection: when the
    stream carries the upload request for [content] under a safe name and
    then the GET of that name, the server stores the bytes and answers OK,
    then answers OK, the length and the very same bytes, and goes on with
    what follows on the stream. *)
Theorem session_upload_then_download (filename content : bytes)
    (more : list recv_event) (w : World) :
  isSafeFilename filename = true →
  Forall plain filename →
  ofstream_open (fs w) filename ≠ None →
  (N.of_nat (length content) <= disk_free w)%N →
  (N.of_nat (length content) <= ULLONG_MAX)%N →
  send_room w = None →
  inp w = wire (put_request filename content)
          ++ wire (str "GET " ++ filename ++ [NL]) ++ more →
  handle_client w
  = handle_client
      (mkWorld more
         (out w ++ str "OK" ++ [NL] ++ get_response content) None
         (<[c_str filename := File content]> (fs w))
         (disk_free w - N.of_nat (length content)) (closed w)).
Proof.
  intros Hs Hp Ho Hd Hmax Hroom Hin.
  rewrite (handle_client_continue _ _
             (step_put_request _ _ _ _ Hs Hp Ho Hd Hmax Hroom Hin)).
  destruct (ofstream_open (fs w) filename) as [m|] eqn:Hm; [|done].
  pose proof (ofstream_open_Some _ _ _ Hm) as [-> Hres].
  apply handle_client_continue.
  rewrite (step_line (str "GET " ++ filename) more).
  - rewrite serve_line_GET, (do_GET_file _ content); try done.
    + unfold emit, get_response. simpl. by rewrite <- !app_assoc.
    + simpl. by apply (resolve_insert _ _ _ (File [])).
  - cbn [inp]. rewrite app_assoc, wire_app. rewrite <- app_assoc.
    cbn [wire fmap list_fmap app]. apply readLine_wire.
    apply Forall_app. split; [|done]. repeat constructor; discriminate.
Qed.

Lemma session_upload_then_download_witness :
  (λ r, (out r.1, fs r.1)) <$>
    handle_client (accepted (wire (put_request (str "f") (str "abc"))
                             ++ wire (str "GET " ++ str "f" ++ [NL]) ++ []) ∅)
  = Some (str "OK" ++ [NL] ++ get_response (str "abc"),
          {[ str "f" := File (str "abc") ]}).
Proof.
  rewrite (session_upload_then_download (str "f") (str "abc") []
             (accepted (wire (put_request (str "f") (str "abc"))
                        ++ wire (str "GET " ++ str "f" ++ [NL]) ++ []) ∅));
    try reflexivity.
  - repeat constructor; discriminate.
  - vm_compute. discriminate.
  - vm_compute. discriminate.
  - vm_compute. discriminate.
Defined.

(** * The client driver *)

Lemma client_command_unfold (cmd : bytes) (c : Client) :
  client_command cmd c =
  if bool_decide (cmd = []) then (c, CContinue)
  else if starts_with (str "LIST") cmd then client_LIST c
  else if starts_with (str "GET ") cmd then client_GET (substr cmd 4) c
  else if starts_with (str "PUT ") cmd then client_PUT (substr cmd 4) c
  else if starts_with (str "QUIT") cmd
  then (with_sock (snd (sendLine (str "QUIT") (sock c))) c, CBreak CQuit)
  else (say (str "Unknown command. Supported: LIST, GET <file>, PUT <file>, QUIT"
             ++ [NL]) c, CContinue).
Proof. unfold client_command. by rewrite !rfind_0_test. Qed.

Lemma client_command_PUT (filename : bytes) (c : Client) :
  client_command (str "PUT " ++ filename) c = client_PUT filename c.
Proof. by rewrite client_command_unfold. Qed.

Lemma client_command_GET (filename : bytes) (c : Client) :
  client_command (str "GET " ++ filename) c = client_GET filename c.
Proof. by rewrite client_command_unfold. Qed.

(** X16. What the client refuses by itself never reaches the server: an
    empty line, a GET or PUT without a filename, a PUT of a path that the
    system accepts and that is not a regular local file, and a line that is
    no command leave the socket untouched, and the client prompts again. *)
Theorem client_rejects_locally (cmd : bytes) (c : Client) :
  cmd = [] ∨ cmd = str "GET " ∨ cmd = str "PUT "
  ∨ (∃ f, cmd = str "PUT " ++ f
          ∧ is_regular_file (fs (sock c)) f = Some false)
  ∨ (starts_with (str "LIST") cmd = false
     ∧ starts_with (str "GET ") cmd = false
     ∧ starts_with (str "PUT ") cmd = false
     ∧ starts_with (str "QUIT") cmd = false) →
  sock (client_command cmd c).1 = sock c
  ∧ (client_command cmd c).2 = CContinue.
Proof.
  rewrite client_command_unfold.
  intros [->|[->|[->|[(f & -> & Hf)|(-> & -> & -> & ->)]]]]; try done.
  - simpl. unfold client_PUT.
    case_bool_decide; [done|]. rewrite Hf.
    apply is_regular_file_Some in Hf as (_ & _ & b' & ->). by destruct b'.
  - by case_bool_decide.
Qed.

Lemma client_rejects_locally_witness :
  sock (client_command (str "PUT nothing.txt")
          (mkClient (accepted [] ∅) [] [] [])).1 = accepted [] ∅
  ∧ sock (client_command (str "get a")
            (mkClient (accepted [] ∅) [] [] [])).1 = accepted [] ∅.
Proof.
  split.
  - apply (client_rejects_locally (str "PUT nothing.txt")
             (mkClient (accepted [] ∅) [] [] [])).
    right. right. right. left. by exists (str "nothing.txt").
  - apply (client_rejects_locally (str "get a")
             (mkClient (accepted [] ∅) [] [] [])).
    right. right. right. right. done.
Defined.

Lemma client_send_chunks_None (fuel : nat) (content : bytes) (w : World) :
  send_room w = None → length content < fuel →
  client_send_chunks fuel content w = (false, emit content w).
Proof.
  revert content w. induction fuel as [|fuel IH]; intros content w Hr Hf;
    [lia|].
  cbn [client_send_chunks].
  set (k := N.to_nat BUFFER_SIZE).
  assert (0 < k) as Hk by (subst k; unfold BUFFER_SIZE; lia).
  clearbody k.
  destruct (decide (length content < k)) as [Hlt|Hge].
  - rewrite take_ge by lia.
    destruct content as [|c content].
    + rewrite emit_nil. destruct k; [lia | done].
    + replace (0 <? length (c :: content))%nat with true
        by (symmetry; apply Nat.ltb_lt; simpl; lia).
      rewrite sendAll_None by done.
      replace (Z.of_nat (length (c :: content)) <? 0)%Z with false
        by (symmetry; apply Z.ltb_ge; lia).
      replace (length (c :: content) =? k)%nat with false
        by (symmetry; apply Nat.eqb_neq; lia).
      done.
  - rewrite length_take, Nat.min_l by lia.
    replace (0 <? k)%nat with true by (symmetry; apply Nat.ltb_lt; lia).
    rewrite sendAll_None by done.
    replace (Z.of_nat (length (take k content)) <? 0)%Z with false
      by (symmetry; apply Z.ltb_ge; lia).
    rewrite Nat.eqb_refl.
    rewrite IH; [| done | rewrite length_drop; lia].
    rewrite emit_emit. by rewrite take_drop.
Qed.

(** X17. The upload as the client performs it: for a regular local file
    the client sends the PUT line, the file's length in decimal and the
    file's bytes, in that order and nothing else; on the status line OK it
    reports success, and the local file is unchanged. *)
Theorem client_put_exchange (filename content : bytes)
    (back : list recv_event) (c : Client) :
  filename ≠ [] →
  resolve (fs (sock c)) filename = Some (File content) →
  send_room (sock c) = None →
  inp (sock c) = wire (str "OK") ++ RByte NL :: back →
  client_command (str "PUT " ++ filename) c
  = (mkClient
       (mkWorld back (out (sock c) ++ put_request filename content) None
                (fs (sock c)) (disk_free (sock c)) (closed (sock c)))
       (stdin c) (cout c ++ str "Upload successful" ++ [NL]) (cerr c),
     CContinue).
Proof.
  intros Hne Hres Hroom Hin. rewrite client_command_PUT.
  unfold client_PUT, fs_exists, is_regular_file, file_size, ifstream_open.
  rewrite bool_decide_eq_false_2 by done.
  rewrite (resolve_Some _ _ _ Hres), Hres. cbn [negb orb].
  rewrite (sendLine_None _ (sock c)) by done. cbn [negb].
  rewrite sendLine_None by done. cbn [negb fs emit].
  rewrite Hres.
  rewrite client_send_chunks_None by (done || lia).
  rewrite !emit_emit. cbn [inp emit]. rewrite Hin.
  rewrite (readLine_wire (str "OK")) by apply str_plain_OK. cbn [negb].
  rewrite bool_decide_eq_true_2 by done.
  unfold say, with_sock, set_inp, emit, put_request. simpl.
  rewrite Hroom. by rewrite <- !app_assoc.
Qed.

Lemma client_put_exchange_witness :
  client_command (str "PUT f")
    (mkClient (accepted (wire (str "OK") ++ RByte NL :: [])
                        {[ str "f" := File (str "abc") ]}) [] [] [])
  = (mkClient
       (mkWorld [] (put_request (str "f") (str "abc")) None
                {[ str "f" := File (str "abc") ]} 1000000 false)
       [] (str "Upload successful" ++ [NL]) [], CContinue).
Proof.
  rewrite (client_put_exchange (str "f") (str "abc") []
             (mkClient (accepted (wire (str "OK") ++ RByte NL :: [])
                                 {[ str "f" := File (str "abc") ]}) [] [] []));
    [reflexivity | discriminate | reflexivity | reflexivity | reflexivity].
Defined.

Lemma client_copy_of_recv_to_file (name : bytes) (fuel : nat) :
  ∀ (n : N) (w w' : World),
    recv_to_file fuel name n w = (false, w') →
    client_copy fuel name n true w = (false, w').
Proof.
  induction fuel as [|fuel IH]; intros n w w'; [done|].
  cbn [recv_to_file client_copy].
  destruct (0 <? n)%N; [|done].
  destruct (recvExact _ _ _) as [[got buf] rest].
  destruct (got <=? 0)%Z; [done|].
  destruct (ofs_write name buf (set_inp rest w)) as [good w2].
  destruct good; cbn [negb]; [apply IH | done].
Qed.

Lemma client_copy_fails (name : bytes) (fuel : nat) :
  ∀ (n : N) (good : bool) (w : World),
    length (inp w) < fuel →
    (recvExact (inp w) (N.to_nat n) []).1.1 = (-1)%Z →
    (client_copy fuel name n good w).1 = true.
Proof.
  induction fuel as [|fuel IH]; intros n good w Hf Hx; [lia|].
  cbn [client_copy].
  destruct (0 <? n)%N eqn:Hn.
  2:{ apply N.ltb_ge in Hn. assert (n = 0%N) as -> by lia.
      change (N.to_nat 0) with 0 in Hx. rewrite recvExact_0 in Hx.
      simpl in Hx. lia. }
  apply N.ltb_lt in Hn.
  set (chunk := if (BUFFER_SIZE <? n)%N then BUFFER_SIZE else n).
  assert (0 < chunk ∧ chunk <= n)%N as [Hc0 Hcn].
  { subst chunk. unfold BUFFER_SIZE.
    destruct (8192 <? n)%N eqn:E; [apply N.ltb_lt in E|]; lia. }
  clearbody chunk.
  assert (N.to_nat n = N.to_nat chunk + N.to_nat (n - chunk)) as Hsplit by lia.
  destruct (recvExact_cases (inp w) (N.to_nat chunk) [])
    as (g1 & d1 & r1 & E1 & Hl1 & H1).
  cbn [length Nat.add app] in E1, H1. rewrite E1.
  destruct H1 as [->|(-> & Hd1 & Hlt)]; [done|].
  specialize (Hlt ltac:(lia)).
  replace (Z.of_nat (N.to_nat chunk) <=? 0)%Z with false
    by (symmetry; apply Z.leb_gt; lia).
  destruct (recvExact_split (inp w) (N.to_nat chunk) (N.to_nat (n - chunk))
              [] _ _ _ E1) as [Hs _].
  rewrite decide_False in Hs by lia. rewrite <- Hsplit in Hs.
  rewrite Hs in Hx.
  destruct (recvExact_cases r1 (N.to_nat (n - chunk)) [])
    as (g2 & d2 & r2 & E2 & _ & H2).
  cbn [length Nat.add app] in E2, H2.
  rewrite (recvExact_buf _ _ d1 _ _ _ E2) in Hx. simpl in Hx.
  assert (g2 = (-1)%Z) as ->.
  { destruct (decide (g2 = (-1)%Z)) as [|Hg]; [done|].
    destruct H2 as [?|[-> _]]; [done | lia]. }
  assert (∃ w2 good', (if good then ofs_write name d1 (set_inp r1 w)
                       else (false, set_inp r1 w)) = (good', w2)
                      ∧ inp w2 = r1) as (w2 & good' & -> & Hi).
  { destruct good; [|by eexists _, _].
    unfold ofs_write.
    destruct (_ <=? _)%N; [| destruct (N.of_nat _ <? _)%N]; by eexists _, _. }
  apply IH; rewrite Hi; [lia|].
  replace (Z.to_N (Z.of_nat (N.to_nat chunk))) with chunk by lia.
  by rewrite E2.
Qed.

Lemma wire_get_response (content : bytes) (back : list recv_event) :
  wire (get_response content) ++ back
  = wire (str "OK" ++ [NL] ++ to_string (N.of_nat (length content)) ++ [NL])
    ++ wire content ++ back.
Proof.
  unfold get_response. rewrite !app_assoc, wire_app.
  by rewrite <- !app_assoc.
Qed.

(** X18. The download as the client performs it: it sends the GET line,
    and when the answer is OK, the length and the bytes of a file, it
    stores exactly those bytes under the same name in its working
    directory, reports the download, and leaves the stream behind the
    payload. *)
Theorem client_get_exchange (filename content : bytes)
    (back : list recv_event) (c : Client) :
  filename ≠ [] →
  send_room (sock c) = None →
  inp (sock c) = wire (get_response content) ++ back →
  ofstream_open (fs (sock c)) filename ≠ None →
  (N.of_nat (length content) <= disk_free (sock c))%N →
  (N.of_nat (length content) <= ULLONG_MAX)%N →
  client_command (str "GET " ++ filename) c
  = (mkClient
       (mkWorld back (out (sock c) ++ str "GET " ++ filename ++ [NL]) None
                (<[c_str filename := File content]> (fs (sock c)))
                (disk_free (sock c) - N.of_nat (length content))
                (closed (sock c)))
       (stdin c)
       (cout c ++ str "Downloaded " ++ filename ++ str " ("
        ++ to_string (N.of_nat (length content)) ++ str " bytes)" ++ [NL])
       (cerr c), CContinue).
Proof.
  intros Hne Hroom Hin Ho Hd Hmax. rewrite client_command_GET.
  unfold client_GET. rewrite bool_decide_eq_false_2 by done.
  rewrite sendLine_None by done. cbn [negb inp emit].
  rewrite Hin, wire_get_response, recvResponse_reads_size_lemma by done.
  cbn [negb set_inp fs emit].
  destruct (ofstream_open (fs (sock c)) filename) as [m|] eqn:Hm; [|done].
  pose proof (ofstream_open_Some _ _ _ Hm) as [-> _].
  set (w1 := set_fs _ _).
  destruct (recv_to_file_spec filename (S (length (inp w1)))
              (N.of_nat (length content)) w1 [])
    as (got & data & r & E & Hok & _); [lia | apply lookup_insert_eq |].
  simpl in E. rewrite Nat2N.id, recvExact_wire in E.
  injection E as <- <- <-.
  match goal with |- context [client_copy ?f filename ?n true ?v] =>
    change (client_copy f filename n true v)
      with (client_copy (S (length (inp w1))) filename
              (N.of_nat (length content)) true w1) end.
  rewrite (client_copy_of_recv_to_file _ _ _ _ _
             (Hok ltac:(simpl; lia) ltac:(simpl; lia))).
  unfold say, with_sock. simpl.
  by rewrite insert_insert_eq, Hroom.
Qed.

Lemma client_get_exchange_witness :
  client_command (str "GET f")
    (mkClient (accepted (wire (get_response (str "abc")) ++ []) ∅) [] [] [])
  = (mkClient
       (mkWorld [] (str "GET f" ++ [NL]) None
                {[ str "f" := File (str "abc") ]} 999997 false)
       [] (str "Downloaded f (3 bytes)" ++ [NL]) [], CContinue).
Proof.
  rewrite (client_get_exchange (str "f") (str "abc") []
             (mkClient (accepted (wire (get_response (str "abc")) ++ []) ∅)
                       [] [] []));
    [reflexivity | discriminate | reflexivity | reflexivity
     | vm_compute; discriminate | vm_compute; discriminate
     | vm_compute; discriminate].
Defined.

(** X19. A download the server refuses: on an ERR response the client
    prints the server's message and does not touch its working directory;
    in particular a local file of that name is neither created nor
    truncated. *)
Theorem client_get_refused (filename msg : bytes) (back : list recv_event)
    (c : Client) :
  filename ≠ [] →
  send_room (sock c) = None →
  Forall plain msg →
  inp (sock c) = wire (str "ERR" ++ [NL] ++ msg ++ [NL]) ++ back →
  client_command (str "GET " ++ filename) c
  = (mkClient
       (mkWorld back (out (sock c) ++ str "GET " ++ filename ++ [NL]) None
                (fs (sock c)) (disk_free (sock c)) (closed (sock c)))
       (stdin c) (cout c)
       (cerr c ++ str "Server error: " ++ msg ++ [NL]), CContinue).
Proof.
  intros Hne Hroom Hm Hin. rewrite client_command_GET.
  unfold client_GET. rewrite bool_decide_eq_false_2 by done.
  rewrite sendLine_None by done. cbn [negb inp emit].
  rewrite Hin, recvResponse_err_lemma by done. cbn [negb].
  unfold complain, with_sock, set_inp. simpl. by rewrite Hroom.
Qed.

Lemma client_get_refused_witness :
  client_command (str "GET f")
    (mkClient (accepted (wire (err_response "File not found") ++ [])
                        {[ str "f" := File (str "mine") ]}) [] [] [])
  = (mkClient
       (mkWorld [] (str "GET f" ++ [NL]) None
                {[ str "f" := File (str "mine") ]} 1000000 false)
       [] [] (str "Server error: File not found" ++ [NL]), CContinue).
Proof.
  rewrite (client_get_refused (str "f") (str "File not found") []
             (mkClient (accepted (wire (err_response "File not found") ++ [])
                                 {[ str "f" := File (str "mine") ]}) [] [] []));
    [reflexivity | discriminate | reflexivity
     | repeat constructor; discriminate | reflexivity].
Defined.

(** X20. A download that breaks off: when the header announces more bytes
    than the stream delivers before it ends, the client prints "Connection
    error during download" and all the same reports the file as downloaded
    with the announced size. *)
Theorem client_get_cut_short (filename partial : bytes) (n : N) (c : Client) :
  filename ≠ [] →
  send_room (sock c) = None →
  (n <= ULLONG_MAX)%N →
  (N.of_nat (length partial) < n)%N →
  ofstream_open (fs (sock c)) filename ≠ None →
  inp (sock c) = wire (str "OK" ++ [NL] ++ to_string n ++ [NL])
                 ++ wire partial →
  ∃ w',
    client_command (str "GET " ++ filename) c
    = (mkClient w' (stdin c)
         (cout c ++ str "Downloaded " ++ filename ++ str " ("
          ++ to_string n ++ str " bytes)" ++ [NL])
         (cerr c ++ str "Connection error during download" ++ [NL]),
       CContinue).
Proof.
  intros Hne Hroom Hmax Hlt Ho Hin. rewrite client_command_GET.
  unfold client_GET. rewrite bool_decide_eq_false_2 by done.
  rewrite sendLine_None by done. cbn [negb inp emit].
  rewrite Hin, recvResponse_reads_size_lemma by done.
  cbn [negb set_inp fs emit].
  destruct (ofstream_open (fs (sock c)) filename) as [m|] eqn:Hm; [|done].
  match goal with |- context [client_copy ?f filename n true ?v] =>
    pose proof (client_copy_fails filename f n true v) as Hf;
    destruct (client_copy f filename n true v) as [failed w3] end.
  simpl in Hf. rewrite Hf.
  - by eexists.
  - lia.
  - destruct (recvExact_short_gen (wire partial) [] ) with (len := N.to_nat n)
      (buf := @nil ascii) as [-> _]; try done.
    + unfold wire. apply Forall_fmap. by apply Forall_true.
    + rewrite delivered_wire. lia.
Qed.

Lemma client_get_cut_short_witness :
  ∃ w',
    client_command (str "GET f")
      (mkClient (accepted (wire (str "OK" ++ [NL] ++ to_string 5 ++ [NL])
                           ++ wire (str "abc")) ∅) [] [] [])
    = (mkClient w' [] (str "Downloaded f (5 bytes)" ++ [NL])
                (str "Connection error during download" ++ [NL]), CContinue).
Proof.
  destruct (client_get_cut_short (str "f") (str "abc") 5
              (mkClient (accepted (wire (str "OK" ++ [NL] ++ to_string 5
                                         ++ [NL]) ++ wire (str "abc")) ∅)
                        [] [] [])) as [w' H];
    [discriminate | reflexivity | vm_compute; discriminate | reflexivity
     | vm_compute; discriminate | reflexivity |].
  exists w'. exact H.
Defined.

Lemma wire_list_response (m : gmap bytes entry) (back : list recv_event) :
  wire (list_response m) ++ back
  = wire (str "OK" ++ [NL] ++ to_string (N.of_nat (length (listing_of m)))
          ++ [NL])
    ++ wire (listing_of m) ++ back.
Proof.
  unfold list_response. rewrite !app_assoc, wire_app.
  by rewrite <- !app_assoc.
Qed.

(** X21. The listing as the client shows it: it sends the LIST line, and
    when the answer is the server's response for a directory it prints
    exactly the body of that response, one line per entry, and leaves the
    stream behind it. (Were the body longer than a vector can be, which no
    memory holds, the client would throw before reading it.) *)
Theorem client_list_exchange (m : gmap bytes entry) (back : list recv_event)
    (c : Client) :
  send_room (sock c) = None →
  (N.of_nat (length (listing_of m)) <= ULLONG_MAX)%N →
  inp (sock c) = wire (list_response m) ++ back →
  client_command (str "LIST") c
  = if (N.of_nat (length (listing_of m)) <=? VECTOR_MAX)%N
    then
      (mkClient
         (mkWorld back (out (sock c) ++ str "LIST" ++ [NL]) None
                  (fs (sock c)) (disk_free (sock c)) (closed (sock c)))
         (stdin c)
         (cout c ++ str "Server listing:" ++ [NL] ++ listing_of m ++ [NL])
         (cerr c), CContinue)
    else
      (mkClient
         (mkWorld (wire (listing_of m) ++ back)
                  (out (sock c) ++ str "LIST" ++ [NL]) None
                  (fs (sock c)) (disk_free (sock c)) (closed (sock c)))
         (stdin c) (cout c) (cerr c), CThrow).
Proof.
  intros Hroom Hmax Hin. rewrite client_command_unfold.
  rewrite bool_decide_eq_false_2 by done.
  change (starts_with (str "LIST") (str "LIST")) with true. cbv iota.
  unfold client_LIST. rewrite sendLine_None by done. cbn [negb inp emit].
  rewrite Hin, wire_list_response, recvResponse_reads_size_lemma by done.
  cbn [negb set_inp inp]. rewrite N.ltb_antisym.
  destruct (N.of_nat (length (listing_of m)) <=? VECTOR_MAX)%N; cbn [negb].
  2:{ unfold with_sock, emit. simpl. by rewrite Hroom. }
  destruct (0 <? N.of_nat (length (listing_of m)))%N eqn:Hz.
  - rewrite Nat2N.id, recvExact_wire. simpl.
    replace (Z.of_nat (length (listing_of m)) <=? 0)%Z with false
      by (symmetry; apply Z.leb_gt; apply N.ltb_lt in Hz; lia).
    unfold say, with_sock, set_inp, emit. simpl. by rewrite Hroom.
  - apply N.ltb_ge in Hz.
    assert (listing_of m = []) as ->
      by (destruct (listing_of m); [done | simpl in Hz; lia]).
    unfold say, with_sock, set_inp, emit. simpl. by rewrite Hroom.
Qed.

Lemma client_list_exchange_witness :
  client_command (str "LIST")
    (mkClient (accepted (wire (list_response {[ str "a" := File (str "x") ]})
                         ++ []) ∅) [] [] [])
  = (mkClient (mkWorld [] (str "LIST" ++ [NL]) None ∅ 1000000 false) []
       (str "Server listing:" ++ [NL] ++ str "a" ++ TAB :: str "file" ++ [NL]
        ++ [NL]) [], CContinue).
Proof.
  rewrite (client_list_exchange {[ str "a" := File (str "x") ]} []
             (mkClient (accepted
                          (wire (list_response {[ str "a" := File (str "x") ]})
                           ++ []) ∅) [] [] []));
    [reflexivity | reflexivity | vm_compute; discriminate | reflexivity].
Defined.

(** ** The client's loop *)

Lemma client_LIST_stdin (c : Client) : stdin (client_LIST c).1 = stdin c.
Proof.
  unfold client_LIST.
  destruct (sendLine _ _) as [[] w1]; cbn [negb]; [|done].
  destruct (recvResponseOKAndSize _ _ _) as [[[[] size] err] rest];
    cbn [negb]; [|done].
  destruct (VECTOR_MAX <? size)%N; [done|].
  destruct (0 <? size)%N; [|done].
  destruct (recvExact _ _ _) as [[got data] rest'].
  by destruct (got <=? 0)%Z.
Qed.

Lemma client_GET_stdin (filename : bytes) (c : Client) :
  stdin (client_GET filename c).1 = stdin c.
Proof.
  unfold client_GET. case_bool_decide; [done|].
  destruct (sendLine _ _) as [[] w1]; cbn [negb]; [|done].
  destruct (recvResponseOKAndSize _ _ _) as [[[[] size] err] rest];
    cbn [negb]; [|done].
  destruct (ofstream_open _ _); [|done].
  destruct (client_copy _ _ _ _ _) as [[] w3]; done.
Qed.

Lemma client_PUT_stdin (filename : bytes) (c : Client) :
  stdin (client_PUT filename c).1 = stdin c.
Proof.
  unfold client_PUT. case_bool_decide; [done|].
  destruct (fs_exists _ _) as [[|]|]; [|done ..].
  destruct (is_regular_file _ _) as [[|]|]; [|done ..].
  destruct (sendLine _ (sock c)) as [[] w1]; cbn [negb]; [|done].
  destruct (sendLine _ w1) as [[] w2]; cbn [negb]; [|done].
  destruct (ifstream_open _ _) as [content|]; [|done].
  destruct (client_send_chunks _ _ _) as [failed w3].
  destruct (readLine (inp w3)) as [[[] status] rest]; cbn [negb].
  - case_bool_decide; [by destruct failed|].
    case_bool_decide; [|by destruct failed].
    destruct (readLine _) as [[? msg] rest']. by destruct failed.
  - by destruct failed.
Qed.

Lemma client_command_stdin (cmd : bytes) (c : Client) :
  stdin (client_command cmd c).1 = stdin c.
Proof.
  rewrite client_command_unfold. case_bool_decide; [done|].
  destruct (starts_with _ cmd); [apply client_LIST_stdin|].
  destruct (starts_with _ cmd); [apply client_GET_stdin|].
  destruct (starts_with _ cmd); [apply client_PUT_stdin|].
  by destruct (starts_with _ cmd).
Qed.

Lemma client_step_shrinks (c c' : Client) :
  client_step c = (c', CContinue) → length (stdin c') < length (stdin c).
Proof.
  unfold client_step. cbn [say stdin sock cout cerr].
  destruct (stdin c) as [|cmd more]; [done|].
  intros E.
  match type of E with client_command cmd ?v = _ =>
    pose proof (client_command_stdin cmd v) as H end.
  rewrite E in H. simpl in H |- *. rewrite H. lia.
Qed.

Lemma client_session_total (fuel : nat) (c : Client) :
  length (stdin c) < fuel → ∃ c' r, client_session fuel c = Some (c', r).
Proof.
  revert c. induction fuel as [|fuel IH]; intros c Hf; [lia|].
  cbn [client_session]. destruct (client_step c) as [c1 [|r|]] eqn:E;
    [| by eauto ..].
  apply client_step_shrinks in E. apply IH. lia.
Qed.

(** The client's drain is the server's: on success the count received is
    the chunk asked for. *)
Lemma client_drain_drain (fuel : nat) :
  ∀ (n : N) (w : World), client_drain fuel n w = drain fuel n w.
Proof.
  induction fuel as [|fuel IH]; intros n w; [done|].
  cbn [client_drain drain]. destruct (0 <? n)%N; [|done].
  set (chunk := if (4096 <? n)%N then 4096%N else n).
  destruct (recvExact_cases (inp w) (N.to_nat chunk) [])
    as (got & data & rest & E & _ & H).
  cbn [length Nat.add app] in E, H. rewrite E.
  destruct (got <=? 0)%Z eqn:Hg; [done|]. apply Z.leb_gt in Hg.
  destruct H as [->|(-> & _)]; [lia|].
  rewrite IH. by replace (Z.to_N (Z.of_nat (N.to_nat chunk))) with chunk by lia.
Qed.

(** X22. [run_client] always comes to an end on a finite input: the loop
    is left by a [break], and then the socket is closed and "Disconnected."
    is the last thing printed, or by an exception. On a line that begins
    with QUIT the client sends the one line QUIT, reads no further input,
    and closes. On a LIST that is answered with OK and the size line [-1]
    the vector for the listing cannot be created: the exception leaves
    [run_client] before anything of the body is read, with the socket open
    and nothing more printed. *)
Theorem run_client_ends (c : Client) :
  (∃ c' r,
     run_client c = Some (c', r)
     ∧ (r ≠ CThrown →
        closed (sock c') = true
        ∧ ∃ before, cout c' = before ++ str "Disconnected." ++ [NL]))
  ∧ (∀ cmd more,
       stdin c = cmd :: more →
       starts_with (str "QUIT") cmd = true →
       send_room (sock c) = None →
       run_client c
       = Some (mkClient (close (emit (str "QUIT" ++ [NL]) (sock c))) more
                 (cout c ++ str "> " ++ str "Disconnected." ++ [NL]) (cerr c),
               CQuit))
  ∧ (∀ more back,
       stdin c = str "LIST" :: more →
       send_room (sock c) = None →
       inp (sock c) = wire (str "OK") ++ RByte NL :: wire (str "-1")
                      ++ RByte NL :: back →
       run_client c
       = Some (mkClient (set_inp back (emit (str "LIST" ++ [NL]) (sock c)))
                 more (cout c ++ str "> ") (cerr c),
               CThrown)).
Proof.
  split; [| split].
  - unfold run_client.
    destruct (client_session_total (S (length (stdin c))) c)
      as (c' & r & E); [lia|].
    rewrite E.
    destruct r; eexists _, _; (split; [reflexivity|]); try done;
      intros _; (split; [done | by eexists]).
  - intros cmd more Hin Hq Hroom. unfold run_client.
    cbn [client_session]. unfold client_step. simpl. rewrite Hin.
    rewrite client_command_unfold. rewrite Hq.
    apply starts_with_spec in Hq as [post ->].
    rewrite bool_decide_eq_false_2 by done. simpl.
    rewrite (sendLine_None (str "QUIT")) by done.
    unfold say, with_sock. simpl. by rewrite <- !app_assoc.
  - intros more back Hin Hroom Hsock. unfold run_client.
    cbn [client_session]. unfold client_step. simpl. rewrite Hin.
    rewrite client_command_unfold.
    rewrite bool_decide_eq_false_2 by done.
    change (starts_with (str "LIST") (str "LIST")) with true. cbv iota.
    unfold client_LIST. cbn [sock].
    rewrite sendLine_None by done. cbn [negb inp emit].
    rewrite Hsock. unfold recvResponseOKAndSize.
    rewrite (readLine_wire (str "OK")) by apply str_plain_OK. cbn [negb].
    rewrite decide_True by done.
    rewrite (readLine_wire (str "-1")) by (repeat constructor; discriminate).
    cbn [negb].
    change (stoull (str "-1")) with (Some 18446744073709551615%N).
    change (VECTOR_MAX <? 18446744073709551615)%N with true. cbv iota.
    done.
Qed.

Lemma run_client_ends_witness :
  run_client (mkClient (accepted [] ∅) [str "QUIT"; str "LIST"] [] [])
  = Some (mkClient (close (emit (str "QUIT" ++ [NL]) (accepted [] ∅)))
            [str "LIST"] (str "> " ++ str "Disconnected." ++ [NL]) [], CQuit)
  ∧ run_client
      (mkClient (accepted (wire (str "OK") ++ RByte NL :: wire (str "-1")
                           ++ RByte NL :: wire (str "a" ++ TAB :: str "file"))
                          ∅)
                [str "LIST"; str "QUIT"] [] [])
    = Some (mkClient
              (mkWorld (wire (str "a" ++ TAB :: str "file"))
                       (str "LIST" ++ [NL]) None ∅ 1000000 false)
              [str "QUIT"] (str "> ") [], CThrown).
Proof.
  split.
  - destruct (run_client_ends
                (mkClient (accepted [] ∅) [str "QUIT"; str "LIST"] [] []))
      as (_ & H & _).
    by apply (H (str "QUIT") [str "LIST"]).
  - destruct (run_client_ends
                (mkClient
                   (accepted (wire (str "OK") ++ RByte NL :: wire (str "-1")
                              ++ RByte NL
                              :: wire (str "a" ++ TAB :: str "file")) ∅)
                   [str "LIST"; str "QUIT"] [] []))
      as (_ & _ & H).
    by apply (H [str "QUIT"] (wire (str "a" ++ TAB :: str "file"))).
Defined.



(** * Local mode *)

Lemma dir_of_set_dir (d : side) (m : gmap bytes entry) (s : Local) :
  dir_of d (set_dir d m s) = m.
Proof.
  destruct s as [sv cw sd fr lo le]. destruct d; simpl; [done|].
  by destruct sd.
Qed.

Lemma set_dir_set_dir (d : side) (m m' : gmap bytes entry) (s : Local) :
  set_dir d m' (set_dir d m s) = set_dir d m' s.
Proof.
  destruct s as [sv cw sd fr lo le]. destruct d; simpl; [done|].
  by destruct sd.
Qed.

(** With a good output stream and room on the volume, the chunked copy
    appends the whole content to the open file. *)
Lemma local_copy_all (d : side) (name : bytes) (fuel : nat) :
  ∀ (content c : bytes) (s : Local),
    length content < fuel →
    dir_of d s !! c_str name = Some (File c) →
    (N.of_nat (length content) <= lfree s)%N →
    local_copy fuel d name content true s
    = set_dir d (<[c_str name := File (c ++ content)]> (dir_of d s))
        (mkLocal (served s) (cwd s) (same_dir s)
                 (lfree s - N.of_nat (length content)) (lout s) (lerr s)).
Proof.
  induction fuel as [|fuel IH]; intros content c s Hf Hopen Hd; [lia|].
  cbn [local_copy].
  set (k := N.to_nat BUFFER_SIZE).
  assert (0 < k) as Hk by (subst k; unfold BUFFER_SIZE; lia).
  clearbody k.
  destruct (decide (length content < k)) as [Hlt|Hge].
  - rewrite take_ge by lia.
    replace (length content =? k)%nat with false
      by (symmetry; apply Nat.eqb_neq; lia).
    destruct content as [|x content].
    + simpl. rewrite app_nil_r, insert_id, N.sub_0_r by done.
      destruct s as [sv cw sd fr lo le]. destruct d; simpl in *; [done|].
      by destruct sd.
    + replace (0 <? length (x :: content))%nat with true
        by (symmetry; apply Nat.ltb_lt; simpl; lia).
      cbn [andb].
      replace (N.of_nat (length (x :: content)) <=? lfree s)%N with true
        by (symmetry; apply N.leb_le; lia).
      rewrite (alter_append_to _ _ c) by done.
      destruct s as [sv cw sd fr lo le]. destruct d; simpl in *; [done|].
      by destruct sd.
  - rewrite length_take, Nat.min_l by lia.
    replace (0 <? k)%nat with true by (symmetry; apply Nat.ltb_lt; lia).
    cbn [andb]. rewrite Nat.eqb_refl.
    assert (length content = k + length (drop k content)) as Hlen
      by (rewrite length_drop; lia).
    replace (N.of_nat k <=? lfree s)%N with true
      by (symmetry; apply N.leb_le; lia).
    rewrite (alter_append_to _ _ c) by done.
    rewrite (IH _ (c ++ take k content)).
    + destruct s as [sv cw sd fr lo le].
      destruct d; [|destruct sd]; simpl in *;
        rewrite insert_insert_eq, <- app_assoc, take_drop; f_equal; lia.
    + lia.
    + rewrite dir_of_set_dir. apply lookup_insert_eq.
    + destruct s as [sv cw sd fr lo le]. destruct d; simpl in *; [lia|].
      destruct sd; simpl; lia.
Qed.

(** X23. Local mode with a served directory other than the working
    directory: [do_put] copies the working file byte for byte into the
    served directory and leaves the working directory as it was. *)
Theorem local_put_copies (filename content : bytes) (s : Local) :
  same_dir s = false →
  isSafeFilename filename = true →
  resolve (cwd s) filename = Some (File content) →
  ofstream_open (served s) filename ≠ None →
  (N.of_nat (length content) <= lfree s)%N →
  do_put filename s
  = Returned
      (mkLocal (<[c_str filename := File content]> (served s)) (cwd s) false
               (lfree s - N.of_nat (length content))
               (lout s ++ str "Uploaded " ++ filename
                ++ str " to server directory" ++ [NL]) (lerr s)).
Proof.
  intros Hsd Hs Hres Ho Hd.
  unfold do_put, fs_exists, is_regular_file, ifstream_open, dir_of.
  rewrite Hs, Hsd, (resolve_Some _ _ _ Hres), Hres. cbn [negb orb].
  destruct (ofstream_open (served s) filename) as [m|] eqn:Hm; [|done].
  pose proof (ofstream_open_Some _ _ _ Hm) as [-> _].
  unfold readable, ifstream_open, dir_of. cbn [set_dir same_dir cwd].
  rewrite Hsd, Hres.
  rewrite (local_copy_all Served filename _ content []).
  - unfold lsay. simpl. by rewrite insert_insert_eq.
  - lia.
  - simpl. apply lookup_insert_eq.
  - done.
Qed.

Lemma local_put_copies_witness :
  do_put (str "f")
    (mkLocal ∅ {[ str "f" := File (str "abc") ]} false 10 [] [])
  = Returned
      (mkLocal {[ str "f" := File (str "abc") ]}
               {[ str "f" := File (str "abc") ]} false 7
               (str "Uploaded f to server directory" ++ [NL]) []).
Proof.
  rewrite (local_put_copies (str "f") (str "abc")
             (mkLocal ∅ {[ str "f" := File (str "abc") ]} false 10 [] []));
    [reflexivity | reflexivity | reflexivity | reflexivity
     | vm_compute; discriminate | vm_compute; discriminate].
Defined.

(** X24. Local mode with a served directory other than the working
    directory: [do_get] copies the served file byte for byte into the
    working directory, reports its size, and leaves the served directory
    as it was. *)
Theorem local_get_copies (filename content : bytes) (s : Local) :
  same_dir s = false →
  isSafeFilename filename = true →
  resolve (served s) filename = Some (File content) →
  ofstream_open (cwd s) filename ≠ None →
  (N.of_nat (length content) <= lfree s)%N →
  do_get filename s
  = Returned
      (mkLocal (served s) (<[c_str filename := File content]> (cwd s)) false
               (lfree s - N.of_nat (length content))
               (lout s ++ str "Downloaded " ++ filename ++ str " ("
                ++ to_string (N.of_nat (length content)) ++ str " bytes)"
                ++ [NL]) (lerr s)).
Proof.
  intros Hsd Hs Hres Ho Hd.
  unfold do_get, fs_exists, is_regular_file, ifstream_open, dir_of.
  rewrite Hs, Hsd, (resolve_Some _ _ _ Hres), Hres. cbn [negb orb].
  destruct (ofstream_open (cwd s) filename) as [m|] eqn:Hm; [|done].
  pose proof (ofstream_open_Some _ _ _ Hm) as [-> _].
  unfold readable, ifstream_open. cbn [set_dir]. rewrite Hsd.
  cbn [served]. rewrite Hres.
  rewrite (local_copy_all Working filename _ content []).
  - unfold lsay, file_size. simpl. by rewrite insert_insert_eq, Hres.
  - lia.
  - simpl. apply lookup_insert_eq.
  - done.
Qed.

Lemma local_get_copies_witness :
  do_get (str "f")
    (mkLocal {[ str "f" := File (str "abc") ]} ∅ false 10 [] [])
  = Returned
      (mkLocal {[ str "f" := File (str "abc") ]}
               {[ str "f" := File (str "abc") ]} false 7
               (str "Downloaded f (3 bytes)" ++ [NL]) []).
Proof.
  rewrite (local_get_copies (str "f") (str "abc")
             (mkLocal {[ str "f" := File (str "abc") ]} ∅ false 10 [] []));
    [reflexivity | reflexivity | reflexivity | reflexivity
     | vm_compute; discriminate | vm_compute; discriminate].
Defined.

(** X25. Local mode started without [--dir], where the served directory is
    the working directory: source and destination of [do_get] and of
    [do_put] are then the same file, which the output stream truncates
    before anything is read. Both commands leave the file empty, and
    [do_get] reports 0 bytes. *)
Theorem local_same_dir_empties (filename content : bytes) (s : Local) :
  same_dir s = true →
  isSafeFilename filename = true →
  resolve (served s) filename = Some (File content) →
  do_get filename s
  = Returned
      (mkLocal (<[c_str filename := File []]> (served s)) (cwd s) true
               (lfree s)
               (lout s ++ str "Downloaded " ++ filename ++ str " ("
                ++ str "0" ++ str " bytes)" ++ [NL]) (lerr s))
  ∧ do_put filename s
    = Returned
        (mkLocal (<[c_str filename := File []]> (served s)) (cwd s) true
                 (lfree s)
                 (lout s ++ str "Uploaded " ++ filename
                  ++ str " to server directory" ++ [NL]) (lerr s)).
Proof.
  intros Hsd Hs Hres.
  pose proof (ofstream_open_file _ _ _ Hres) as Ho.
  pose proof (ofstream_open_Some _ _ _ Ho) as [_ Hres'].
  split.
  - unfold do_get, fs_exists, is_regular_file, ifstream_open, dir_of.
    rewrite Hs, Hsd, (resolve_Some _ _ _ Hres), Hres, Ho. cbn [negb orb].
    unfold readable, ifstream_open. cbn [set_dir]. rewrite Hsd.
    cbn [served]. rewrite Hres'. simpl.
    unfold lsay, file_size. simpl. by rewrite Hres'.
  - unfold do_put, fs_exists, is_regular_file, ifstream_open, dir_of.
    rewrite Hs, Hsd, (resolve_Some _ _ _ Hres), Hres, Ho. cbn [negb orb].
    unfold readable, ifstream_open, dir_of. cbn [set_dir same_dir served].
    rewrite Hsd, Hres'. simpl. unfold lsay. by simpl.
Qed.

Lemma local_same_dir_empties_witness :
  do_get (str "f")
    (mkLocal {[ str "f" := File (str "abc") ]} ∅ true 10 [] [])
  = Returned
      (mkLocal {[ str "f" := File [] ]} ∅ true 10
               (str "Downloaded f (0 bytes)" ++ [NL]) []).
Proof.
  destruct (local_same_dir_empties (str "f") (str "abc")
              (mkLocal {[ str "f" := File (str "abc") ]} ∅ true 10 [] []))
    as [H _]; [reflexivity | reflexivity | reflexivity |].
  rewrite H. reflexivity.
Defined.

(** X30. Local mode on a name that passes the guard and that the system
    refuses: [fs::exists] throws in [do_get] and in [do_put] alike, before
    anything is printed or written. *)
Theorem local_refused_name_throws (filename : bytes) (s : Local) :
  isSafeFilename filename = true →
  os_rejects filename = true →
  do_get filename s = Thrown s ∧ do_put filename s = Thrown s.
Proof.
  intros Hs Ho. unfold do_get, do_put, fs_exists. by rewrite Hs, Ho.
Qed.

Lemma local_refused_name_throws_witness :
  do_get (replicate 300 "a") (mkLocal ∅ ∅ true 10 [] [])
  = Thrown (mkLocal ∅ ∅ true 10 [] []).
Proof.
  by destruct (local_refused_name_throws (replicate 300 "a")
                 (mkLocal ∅ ∅ true 10 [] [])).
Defined.
